(** * grpc-core: binding resolution and SDK query parameters

    A shallow embedding of
    - [internal/descriptor/services.go] (role extraction, binding
      construction, field-path resolution), and
    - [protoc-gen-sdk/internal/gensdk] (query-parameter inference and the
      registration loop of [applyTemplate]),
    together with the properties established about them. *)

From Stdlib Require Import String Ascii List Bool Arith Lia DecimalString.
From stdpp Require Import base option list gmap strings.

Local Open Scope string_scope.
Local Open Scope list_scope.

(* ===================================================================== *)
(** * Regular expressions (the fragment [regexp.MustCompile] is used on) *)
(* ===================================================================== *)

Module regexp.

(** Syntax: character classes by range, literals, concatenation,
    alternation and iteration. The anchors [^] and [$] of a Go pattern are
    not constructors: [MatchString] below is the anchored match. *)
Inductive re : Type :=
| Void
| Eps
| Range (lo hi : ascii)
| Cat (r1 r2 : re)
| Alt (r1 r2 : re)
| Star (r : re).

Definition Lit (c : ascii) : re := Range c c.
Definition Plus (r : re) : re := Cat r (Star r).

Definition in_range (lo hi c : ascii) : bool :=
  Nat.leb (nat_of_ascii lo) (nat_of_ascii c) && Nat.leb (nat_of_ascii c) (nat_of_ascii hi).

(** The language of an expression. *)
Inductive matches : re -> list ascii -> Prop :=
| m_eps : matches Eps []
| m_range lo hi c : in_range lo hi c = true -> matches (Range lo hi) [c]
| m_cat r1 r2 s1 s2 : matches r1 s1 -> matches r2 s2 -> matches (Cat r1 r2) (s1 ++ s2)
| m_alt_l r1 r2 s : matches r1 s -> matches (Alt r1 r2) s
| m_alt_r r1 r2 s : matches r2 s -> matches (Alt r1 r2) s
| m_star_nil r : matches (Star r) []
| m_star_app r s1 s2 : matches r s1 -> matches (Star r) s2 -> matches (Star r) (s1 ++ s2).

(** Matching by derivatives. *)
Fixpoint nullable (r : re) : bool :=
  match r with
  | Void => false
  | Eps => true
  | Range _ _ => false
  | Cat r1 r2 => nullable r1 && nullable r2
  | Alt r1 r2 => nullable r1 || nullable r2
  | Star _ => true
  end.

Fixpoint deriv (c : ascii) (r : re) : re :=
  match r with
  | Void => Void
  | Eps => Void
  | Range lo hi => if in_range lo hi c then Eps else Void
  | Cat r1 r2 =>
      if nullable r1 then Alt (Cat (deriv c r1) r2) (deriv c r2)
      else Cat (deriv c r1) r2
  | Alt r1 r2 => Alt (deriv c r1) (deriv c r2)
  | Star r1 => Cat (deriv c r1) (Star r1)
  end.

Fixpoint match_list (r : re) (s : list ascii) : bool :=
  match s with
  | [] => nullable r
  | c :: s' => match_list (deriv c r) s'
  end.

(** [Regexp.MatchString] for a pattern written [^r$]: without the [m]
    flag both anchors are text anchors, so the whole input must be in the
    language of [r]. *)
Definition MatchString (r : re) (s : string) : bool :=
  match_list r (list_ascii_of_string s).

End regexp.

(* ===================================================================== *)
(** * Results of Go functions                                             *)
(* ===================================================================== *)

(** The errors built in [services.go], one constructor per [fmt.Errorf] /
    [errors.New] with the values it formats, and the errors handed up from
    functions whose source is elsewhere. *)
Inductive error : Type :=
| ErrNotKebabCase (field value : string)
    (* "field '%s' with value '%s' is not in kebab-case format" *)
| ErrInvalidRole (method : string) (err : error)
    (* "invalid role in method %s: %w" *)
| ErrGetWithBody (method : string)
    (* "must not set request body when http method is GET: %s" *)
| ErrDeleteWithBody (method : string)
    (* "must not set request body when http method is DELETE except
        allow_delete_body option is true: %s" *)
| ErrClientStreamingPathParam
    (* "cannot use path parameter in client streaming" *)
| ErrNestedAdditionalBinding (service method : string)
    (* "additional_binding in additional_binding not allowed: %s.%s" *)
| ErrInvalidFieldAccessList (path : string)
    (* "invalid field access list for %s" *)
| ErrMessageTypePathParam (service method path : string)
    (* "%s.%s: %s is a protobuf message type. Protobuf message types cannot
        be used as path parameters, ..." *)
| ErrNotAggregate (field path : string)
    (* "not an aggregate type: %s in %s" *)
| ErrNoField (path root : string)
    (* "no field %q found in %s" *)
| ErrOptionalField (field path : string)
    (* "optional field not allowed in field path: %s in %s" *)
| ErrParse (msg : string)
    (* whatever httprule.Parse reports *)
| ErrLookupMsg (msg : string)
    (* whatever Registry.LookupMsg reports *)
| ErrDuplicateRoute (service verb template : string) (methods : list string)
    (* the duplicate-route error of Registry.CheckDuplicateAnnotation *)
| ErrNoTargetService.
    (* errNoTargetService *)

(** A call returns a value, returns an error, or panics (nil dereference,
    index out of range). *)
Inductive outcome (A : Type) : Type :=
| Ok (a : A)
| Err (e : error)
| Panic.
Arguments Ok {A} a.
Arguments Err {A} e.
Arguments Panic {A}.

#[global] Instance outcome_ret : MRet outcome := fun A a => Ok a.
#[global] Instance outcome_bind : MBind outcome := fun A B k x =>
  match x with
  | Ok a => k a
  | Err e => Err e
  | Panic => Panic
  end.


(* ===================================================================== *)
(** * Package descriptor                                                  *)
(* ===================================================================== *)

Module descriptor.

(** ** Descriptors *)

(** [descriptorpb.FieldDescriptorProto_Type]. *)
Inductive FieldDescriptorProto_Type : Type :=
| TYPE_DOUBLE | TYPE_FLOAT | TYPE_INT64 | TYPE_UINT64 | TYPE_INT32
| TYPE_FIXED64 | TYPE_FIXED32 | TYPE_BOOL | TYPE_STRING | TYPE_GROUP
| TYPE_MESSAGE | TYPE_BYTES | TYPE_UINT32 | TYPE_ENUM | TYPE_SFIXED32
| TYPE_SFIXED64 | TYPE_SINT32 | TYPE_SINT64.

(** Modelled from the spec: [descriptor.Field] (types.go is not among the
    sources; section 3), as the code reads it: [GetName], [GetType],
    [GetProto3Optional], and the [TypeName] pointer, which [newParam]
    dereferences and [resolveFieldPath] reads through [GetTypeName]. *)
Record Field : Type := mkField {
  Field_Name : string;
  Field_Type : FieldDescriptorProto_Type;
  Field_TypeName : option string;
  Field_Proto3Optional : bool
}.

Definition Field_GetTypeName (f : Field) : string :=
  default "" (Field_TypeName f).

(** The [case TYPE_MESSAGE, TYPE_GROUP] of both type switches. *)
Definition aggregate (t : FieldDescriptorProto_Type) : bool :=
  match t with
  | TYPE_MESSAGE | TYPE_GROUP => true
  | _ => false
  end.

(** Modelled from the spec: [descriptor.Message] (types.go is not among the
    sources; section 3): the package of the owning file, the name, the
    ordered fields. *)
Record Message : Type := mkMessage {
  Message_Package : string;
  Message_Name : string;
  Message_Fields : list Field
}.

(** [options.CustomHttpPattern]. *)
Record CustomHttpPattern : Type := mkCustom {
  Custom_Kind : string;
  Custom_Path : string
}.

(** The oneof [pattern] of [options.HttpRule]; the pointer held by
    [HttpRule_Custom] may be nil. *)
Inductive isHttpRule_Pattern : Type :=
| HttpRule_Get (s : string)
| HttpRule_Put (s : string)
| HttpRule_Post (s : string)
| HttpRule_Delete (s : string)
| HttpRule_Patch (s : string)
| HttpRule_Custom (c : option CustomHttpPattern).

(** [options.HttpRule]. *)
#[warnings="-register-all"]
Inductive HttpRule : Type := mkHttpRule {
  Pattern : option isHttpRule_Pattern;
  Body : string;
  ResponseBody : string;
  AdditionalBindings : list HttpRule
}.

Definition GetGet (opts : HttpRule) : string :=
  match Pattern opts with Some (HttpRule_Get s) => s | _ => "" end.
Definition GetPut (opts : HttpRule) : string :=
  match Pattern opts with Some (HttpRule_Put s) => s | _ => "" end.
Definition GetPost (opts : HttpRule) : string :=
  match Pattern opts with Some (HttpRule_Post s) => s | _ => "" end.
Definition GetDelete (opts : HttpRule) : string :=
  match Pattern opts with Some (HttpRule_Delete s) => s | _ => "" end.
Definition GetPatch (opts : HttpRule) : string :=
  match Pattern opts with Some (HttpRule_Patch s) => s | _ => "" end.
Definition GetCustom (opts : HttpRule) : option CustomHttpPattern :=
  match Pattern opts with Some (HttpRule_Custom c) => c | _ => None end.
Definition GetAdditionalBindings (opts : HttpRule) : list HttpRule :=
  AdditionalBindings opts.

(** Modelled from the spec: [myoptions.Role], the message of the [E_Role]
    extension (coreapis/api is not among the sources; section 6, role
    option schema). *)
Record api_Role : Type := mkApiRole {
  api_Resource : string;
  api_Verb : string;
  api_Scope : list string
}.

(** The two extensions read from [MethodOptions]. An extension's value has
    the Go type its descriptor fixes, so the type assertions of
    [extractRoleOptions] and [extractAPIOptions] hold whenever
    [proto.HasExtension] does. *)
Record MethodOptions : Type := mkMethodOptions {
  E_Http : option HttpRule;
  E_Role : option api_Role
}.

Record MethodDescriptorProto : Type := mkMethodDescriptor {
  md_Name : string;
  md_InputType : string;
  md_OutputType : string;
  md_Options : option MethodOptions;
  md_ClientStreaming : bool;
  md_ServerStreaming : bool
}.

Record ServiceDescriptorProto : Type := mkServiceDescriptor {
  sd_Name : string;
  sd_Method : list MethodDescriptorProto
}.

Record FileDescriptorProto : Type := mkFileDescriptor {
  fd_Name : string;
  fd_Package : string;
  fd_Service : list ServiceDescriptorProto
}.

(** ** Resolved model *)

(** Modelled from the spec: [httprule.Template] (internal/httprule is not
    among the sources; section 4.1): the captured field paths in order and
    the canonical template string, the two fields the code reads. *)
Record Template : Type := mkTemplate {
  Tmpl_Fields : list string;
  Tmpl_Template : string
}.

(** Modelled from the spec: [httprule.Compiler] (section 4.1): what [Parse]
    returns, with its [Compile] method. *)
Record Compiler : Type := mkCompiler {
  Compile : Template
}.

(** Modelled from the spec: [descriptor.FieldPathComponent] and
    [descriptor.FieldPath] (types.go; section 4.2, the ordered chain of
    resolved field descriptors). *)
Record FieldPathComponent : Type := mkComponent {
  Comp_Name : string;
  Comp_Target : Field
}.

Abbreviation FieldPath := (list FieldPathComponent).

(** Modelled from the spec: [descriptor.Role] (types.go; section 3). *)
Record Role : Type := mkRole {
  Role_Resource : string;
  Role_Scopes : list string;
  Role_Verb : string
}.

(** Modelled from the spec: [descriptor.Service], [descriptor.Method],
    [descriptor.Parameter], [descriptor.Body], [descriptor.Binding] and
    [descriptor.File] (types.go is not among the sources; section 3), with
    the fields the sources read and write. The object graph is cyclic
    ([Method.Service], [Binding.Method] and [Parameter.Method] point back
    to the owner). A back pointer is modelled by the fields of its target
    that are set when the pointer is stored: everything but the owner's
    list of children. [ServiceRef] is that part of a [Service]. *)
Record ServiceRef : Type := mkServiceRef {
  Service_File : FileDescriptorProto;
  Service_proto : ServiceDescriptorProto;
  Service_ForcePrefixedName : bool
}.

(** The part of a [Method] that a [Binding] or a [Parameter] points back
    to. *)
Record MethodRef : Type := mkMethodRef {
  Method_Service : ServiceRef;
  Method_proto : MethodDescriptorProto;
  RequestType : Message;
  ResponseType : Message;
  Method_Role : option Role
}.

(** [descriptor.Parameter]. *)
Record Parameter_ : Type := mkParameter {
  Param_FieldPath : FieldPath;
  Param_Method : MethodRef;
  Param_Target : Field
}.

(** [descriptor.Body]; a nil [FieldPath] is the empty list. *)
Record Body_ : Type := mkBody {
  Body_FieldPath : FieldPath
}.

(** [descriptor.Binding]. *)
Record Binding : Type := mkBinding {
  Binding_Method : MethodRef;
  Binding_Index : nat;
  PathTmpl : Template;
  HTTPMethod : string;
  PathParams : list Parameter_;
  Binding_Body : option Body_;
  Binding_ResponseBody : option Body_
}.

(** [descriptor.Method]. [Bindings] is a [[]*Binding]: an entry may be
    nil ([None]). *)
Record Method : Type := mkMethod {
  Method_ref : MethodRef;
  Bindings : list (option Binding)
}.

(** [descriptor.Service]. *)
Record Service : Type := mkService {
  Service_ref : ServiceRef;
  Methods : list Method
}.

(** [descriptor.File]. *)
Record File : Type := mkFile {
  File_proto : FileDescriptorProto;
  File_Messages : list Message;
  Services : list Service
}.

Definition Service_GetName (svc : ServiceRef) : string := sd_Name (Service_proto svc).
Definition Method_GetName (meth : MethodRef) : string := md_Name (Method_proto meth).

(** Modelled from the spec: [descriptor.Registry] (registry.go is not among
    the sources). [standalone], [generateUnboundMethods],
    [warnOnUnboundMethods], [allowDeleteBody] and [meths] are the fields
    [services.go] uses. [msgs] is the message table (section 3, mapping
    from fully-qualified name to Message), [externalHTTPRules] the
    externally registered rule overrides keyed by fully-qualified method
    name (section 4.5), [annotationMap] the routes registered so far, one
    entry per verb, compiled template and owning service (section 4.3,
    duplicate detection). *)
Record Registry : Type := mkRegistry {
  msgs : gmap string Message;
  meths : gmap string Method;
  externalHTTPRules : gmap string (list HttpRule);
  annotationMap : gset (string * string * string);
  standalone : bool;
  generateUnboundMethods : bool;
  warnOnUnboundMethods : bool;
  allowDeleteBody : bool
}.

(** Modelled from the spec: Registry.LookupExternalHTTPRules (registry.go is
    not among the sources). Section 4.5: a lookup keyed by fully-qualified
    method name that returns zero or more rule option sets. *)
Definition LookupExternalHTTPRules (r : Registry) (qualifiedMethodName : string)
  : list HttpRule :=
  default [] (externalHTTPRules r !! qualifiedMethodName).

(** Functions of this repository and of its libraries that the embedded
    code calls and whose source is not at hand. The development is
    parametric in them. A returned [inl] is the callee's error message. *)
Class Externals : Type := mkExternals {
  (** [httprule.Parse]. *)
  httprule_Parse : string -> string + Compiler;
  (** [Registry.LookupMsg location name]. *)
  LookupMsg : Registry -> string -> string -> string + Message;
  (** [IsWellKnownType]. *)
  IsWellKnownType : string -> bool;
  (** [Message.FQMN]. *)
  Message_FQMN : Message -> string;
  (** [Method.FQMN]; [loadServices] calls it on a method that has only its
      service and descriptor set. *)
  Method_FQMN : ServiceRef -> MethodDescriptorProto -> string;
  (** [Service.FQSN]. *)
  Service_FQSN : ServiceRef -> string;
  (** [casing.Camel]. *)
  casing_Camel : string -> string
}.

Definition lift {A : Type} (wrap : string -> error) (x : string + A) : outcome A :=
  match x with
  | inl msg => Err (wrap msg)
  | inr a => Ok a
  end.

(** ** Library functions *)

(** [strings.Split s sep] for a one-byte separator: the substrings between
    the separators, in order; one more than there are separators. *)
Fixpoint strings_Split (s : string) (sep : ascii) : list string :=
  match s with
  | EmptyString => [EmptyString]
  | String c s' =>
      if Ascii.eqb c sep then EmptyString :: strings_Split s' sep
      else match strings_Split s' sep with
           | [] => [String c EmptyString]
           | w :: ws => String c w :: ws
           end
  end.

(** [strings.TrimPrefix s prefix] for a one-byte prefix. *)
Definition strings_TrimPrefix (s : string) (prefix : ascii) : string :=
  match s with
  | String c s' => if Ascii.eqb c prefix then s' else s
  | EmptyString => s
  end.

(** [fmt.Sprintf("%d", i)] for a non-negative [i]. *)
Definition decimal (i : nat) : string := NilZero.string_of_uint (Nat.to_uint i).

(** Modelled from the spec: FieldPath.String (types.go is not among the
    sources): the dotted rendering of a field path, its component names
    joined by [.]. *)
Fixpoint FieldPath_String (p : FieldPath) : string :=
  match p with
  | [] => ""
  | [c] => Comp_Name c
  | c :: p' => Comp_Name c +:+ "." +:+ FieldPath_String p'
  end.

(** ** services.go *)

Section services.
Context `{Externals}.

(** [kebabCaseRegex = regexp.MustCompile(`^[a-z][a-z0-9]*(-[a-z0-9]+)*$`)]. *)
Definition kebabCaseRegex : regexp.re :=
  let lower := regexp.Range "a" "z" in
  let alnum := regexp.Alt (regexp.Range "a" "z") (regexp.Range "0" "9") in
  regexp.Cat lower
    (regexp.Cat (regexp.Star alnum)
       (regexp.Star (regexp.Cat (regexp.Lit "-") (regexp.Plus alnum)))).

(** [validateKebabCase]; [None] is the nil error. *)
Definition validateKebabCase (field value : string) : option error :=
  if String.eqb value "" then None
  else if negb (regexp.MatchString kebabCaseRegex value)
       then Some (ErrNotKebabCase field value)
       else None.

(** The loop of [extractRoleOptions] over [role.Scope], from index [i]. *)
Fixpoint extractRoleOptions_scopes (methName : string) (i : nat) (scopes : list string)
  : option error :=
  match scopes with
  | [] => None
  | scope :: rest =>
      match validateKebabCase ("scope[" +:+ decimal i +:+ "]") scope with
      | Some err => Some (ErrInvalidRole methName err)
      | None => extractRoleOptions_scopes methName (S i) rest
      end
  end.

Definition extractRoleOptions (meth : MethodDescriptorProto) : outcome (option api_Role) :=
  match md_Options meth with
  | None => Ok None
  | Some o =>
      match E_Role o with
      | None => Ok None
      | Some role =>
          match validateKebabCase "resource" (api_Resource role) with
          | Some err => Err (ErrInvalidRole (md_Name meth) err)
          | None =>
              match validateKebabCase "verb" (api_Verb role) with
              | Some err => Err (ErrInvalidRole (md_Name meth) err)
              | None =>
                  match extractRoleOptions_scopes (md_Name meth) 0 (api_Scope role) with
                  | Some err => Err err
                  | None => Ok (Some role)
                  end
              end
          end
      end
  end.

Definition extractAPIOptions (meth : MethodDescriptorProto) : outcome (option HttpRule) :=
  match md_Options meth with
  | None => Ok None
  | Some o =>
      match E_Http o with
      | None => Ok None
      | Some opts => Ok (Some opts)
      end
  end.

Definition defaultAPIOptions (svc : ServiceRef) (md : MethodDescriptorProto)
  : outcome HttpRule :=
  let fqsn := strings_TrimPrefix (Service_FQSN svc) "." in
  let rule := {| Pattern := Some (HttpRule_Post ("/" +:+ fqsn +:+ "/" +:+ md_Name md));
                 Body := "*";
                 ResponseBody := "";
                 AdditionalBindings := [] |} in
  Ok rule.

Fixpoint lookupField_fields (fields : list Field) (name : string) : option Field :=
  match fields with
  | [] => None
  | f :: rest => if String.eqb (Field_Name f) name then Some f
                 else lookupField_fields rest name
  end.

(** [lookupField]: the first field of [msg] named [name], or nil. *)
Definition lookupField (msg : Message) (name : string) : option Field :=
  lookupField_fields (Message_Fields msg) name.

(** The loop of [resolveFieldPath] over the components [cs] that remain;
    [i] is the loop index, [msg] and [result] the loop's variables. *)
Fixpoint resolveFieldPath_loop (r : Registry) (root : Message) (path : string)
    (isPathParam : bool) (cs : list string) (i : nat) (msg : Message)
    (result : FieldPath) : outcome FieldPath :=
  match cs with
  | [] => Ok result
  | c :: cs' =>
      msg' ← (if Nat.ltb 0 i then
                match result !! (i - 1) with
                | None => Panic
                | Some prev =>
                    let f := Comp_Target prev in
                    match Field_Type f with
                    | TYPE_MESSAGE | TYPE_GROUP =>
                        lift ErrLookupMsg (LookupMsg r (Message_FQMN msg) (Field_GetTypeName f))
                    | _ => Err (ErrNotAggregate (Field_Name f) path)
                    end
                end
              else Ok msg);
      match lookupField msg' c with
      | None => Err (ErrNoField path (Message_Name root))
      | Some f =>
          if isPathParam && Field_Proto3Optional f
          then Err (ErrOptionalField (Field_Name f) path)
          else resolveFieldPath_loop r root path isPathParam cs' (S i) msg'
                 (result ++ [{| Comp_Name := c; Comp_Target := f |}])
      end
  end.

Definition resolveFieldPath (r : Registry) (msg : Message) (path : string)
    (isPathParam : bool) : outcome FieldPath :=
  if String.eqb path "" then Ok []
  else resolveFieldPath_loop r msg path isPathParam (strings_Split path ".") 0 msg [].

Definition newParam (r : Registry) (meth : MethodRef) (path : string) : outcome Parameter_ :=
  let msg := RequestType meth in
  fields ← resolveFieldPath r msg path true;
  let l := length fields in
  if Nat.eqb l 0 then Err (ErrInvalidFieldAccessList path)
  else
    match fields !! (l - 1) with
    | None => Panic
    | Some last_ =>
        let target := Comp_Target last_ in
        _ ← match Field_Type target with
            | TYPE_MESSAGE | TYPE_GROUP =>
                match Field_TypeName target with
                | None => Panic
                | Some typeName =>
                    if IsWellKnownType typeName then Ok tt
                    else Err (ErrMessageTypePathParam
                                (Service_GetName (Method_Service meth))
                                (Method_GetName meth) path)
                end
            | _ => Ok tt
            end;
        Ok {| Param_FieldPath := fields; Param_Method := meth; Param_Target := target |}
    end.

Definition newBody (r : Registry) (meth : MethodRef) (path : string) : outcome (option Body_) :=
  if String.eqb path "" then Ok None
  else if String.eqb path "*" then Ok (Some {| Body_FieldPath := [] |})
  else
    let msg := RequestType meth in
    fields ← resolveFieldPath r msg path false;
    Ok (Some {| Body_FieldPath := fields |}).

Definition newResponse (r : Registry) (meth : MethodRef) (path : string) : outcome (option Body_) :=
  let msg := ResponseType meth in
  if String.eqb path "" || String.eqb path "*" then Ok None
  else
    fields ← resolveFieldPath r msg path false;
    Ok (Some {| Body_FieldPath := fields |}).

(** ** newMethod and its two closures *)

(** The [switch] of [newBinding]: the verb and path template of the
    selected pattern, an error, or [None] for the [default] case. *)
Definition newBinding_pattern (r : Registry) (md : MethodDescriptorProto) (opts : HttpRule)
  : outcome (option (string * string)) :=
  if negb (String.eqb (GetGet opts) "") then
    if negb (String.eqb (Body opts) "") then Err (ErrGetWithBody (md_Name md))
    else Ok (Some ("GET", GetGet opts))
  else if negb (String.eqb (GetPut opts) "") then Ok (Some ("PUT", GetPut opts))
  else if negb (String.eqb (GetPost opts) "") then Ok (Some ("POST", GetPost opts))
  else if negb (String.eqb (GetDelete opts) "") then
    if negb (String.eqb (Body opts) "") && negb (allowDeleteBody r)
    then Err (ErrDeleteWithBody (md_Name md))
    else Ok (Some ("DELETE", GetDelete opts))
  else if negb (String.eqb (GetPatch opts) "") then Ok (Some ("PATCH", GetPatch opts))
  else match GetCustom opts with
       | Some custom => Ok (Some (Custom_Kind custom, Custom_Path custom))
       | None => Ok None
       end.

(** The loop of [newBinding] over [tmpl.Fields]. *)
Fixpoint newBinding_params (r : Registry) (meth : MethodRef) (fields : list string)
    (acc : list Parameter_) : outcome (list Parameter_) :=
  match fields with
  | [] => Ok acc
  | f :: rest =>
      param ← newParam r meth f;
      newBinding_params r meth rest (acc ++ [param])
  end.

(** [newBinding] after the [switch]. *)
Definition newBinding_build (r : Registry) (md : MethodDescriptorProto) (meth : MethodRef)
    (opts : HttpRule) (idx : nat) (httpMethod pathTemplate : string) : outcome Binding :=
  parsed ← lift ErrParse (httprule_Parse pathTemplate);
  let tmpl := Compile parsed in
  if md_ClientStreaming md && Nat.ltb 0 (length (Tmpl_Fields tmpl))
  then Err ErrClientStreamingPathParam
  else
    params ← newBinding_params r meth (Tmpl_Fields tmpl) [];
    body ← newBody r meth (Body opts);
    responseBody ← newResponse r meth (ResponseBody opts);
    Ok {| Binding_Method := meth;
          Binding_Index := idx;
          PathTmpl := tmpl;
          HTTPMethod := httpMethod;
          PathParams := params;
          Binding_Body := body;
          Binding_ResponseBody := responseBody |}.

(** [newBinding]: [Ok None] is the return [nil, nil]. *)
Definition newBinding (r : Registry) (md : MethodDescriptorProto) (meth : MethodRef)
    (opts : HttpRule) (idx : nat) : outcome (option Binding) :=
  sel ← newBinding_pattern r md opts;
  match sel with
  | None => Ok None
  | Some (httpMethod, pathTemplate) =>
      b ← newBinding_build r md meth opts idx httpMethod pathTemplate;
      Ok (Some b)
  end.

Definition append_binding (meth : Method) (b : option Binding) : Method :=
  {| Method_ref := Method_ref meth; Bindings := Bindings meth ++ [b] |}.

(** The loop of [applyOpts] over [opts.GetAdditionalBindings()]: whatever
    [newBinding] returned without an error is appended. *)
Fixpoint applyOpts_additional (r : Registry) (svc : ServiceRef) (md : MethodDescriptorProto)
    (meth : Method) (additionals : list HttpRule) : outcome Method :=
  match additionals with
  | [] => Ok meth
  | additional :: rest =>
      if Nat.ltb 0 (length (AdditionalBindings additional))
      then Err (ErrNestedAdditionalBinding (Service_GetName svc)
                  (Method_GetName (Method_ref meth)))
      else
        b ← newBinding r md (Method_ref meth) additional (length (Bindings meth));
        applyOpts_additional r svc md (append_binding meth b) rest
  end.

(** [applyOpts]: the primary binding is appended only when it is not nil. *)
Definition applyOpts (r : Registry) (svc : ServiceRef) (md : MethodDescriptorProto)
    (meth : Method) (opts : HttpRule) : outcome Method :=
  b ← newBinding r md (Method_ref meth) opts (length (Bindings meth));
  let meth' := match b with
               | Some _ => append_binding meth b
               | None => meth
               end in
  applyOpts_additional r svc md meth' (GetAdditionalBindings opts).

Fixpoint newMethod_optsList (r : Registry) (svc : ServiceRef) (md : MethodDescriptorProto)
    (meth : Method) (optsList : list HttpRule) : outcome Method :=
  match optsList with
  | [] => Ok meth
  | opts :: rest =>
      meth' ← applyOpts r svc md meth opts;
      newMethod_optsList r svc md meth' rest
  end.

Definition newMethod (r : Registry) (svc : ServiceRef) (md : MethodDescriptorProto)
    (optsList : list HttpRule) (role : option api_Role) : outcome Method :=
  requestType ← lift ErrLookupMsg (LookupMsg r (fd_Package (Service_File svc)) (md_InputType md));
  responseType ← lift ErrLookupMsg (LookupMsg r (fd_Package (Service_File svc)) (md_OutputType md));
  let meth := {| Method_ref :=
                   {| Method_Service := svc;
                      Method_proto := md;
                      RequestType := requestType;
                      ResponseType := responseType;
                      Method_Role :=
                        match role with
                        | Some role => Some {| Role_Resource := api_Resource role;
                                               Role_Scopes := api_Scope role;
                                               Role_Verb := api_Verb role |}
                        | None => None
                        end |};
                 Bindings := [] |} in
  newMethod_optsList r svc md meth optsList.

(** ** loadServices *)

(** The body of the loop of [loadServices] over [sd.GetMethod()], up to
    the call of [newMethod]. *)
Definition loadServices_method (r : Registry) (svc : ServiceRef) (md : MethodDescriptorProto)
  : outcome Method :=
  opts ← extractAPIOptions md;
  role ← extractRoleOptions md;
  let optsList := LookupExternalHTTPRules r (Method_FQMN svc md) in
  let optsList := match opts with
                  | Some opts => optsList ++ [opts]
                  | None => optsList
                  end in
  optsList ← (if Nat.eqb (length optsList) 0 then
                if generateUnboundMethods r then
                  defaultOpts ← defaultAPIOptions svc md;
                  Ok (optsList ++ [defaultOpts])
                else Ok optsList
              else Ok optsList);
  newMethod r svc md optsList role.

Definition register_method (r : Registry) (fqmn : string) (meth : Method) : Registry :=
  {| msgs := msgs r;
     meths := <[fqmn := meth]> (meths r);
     externalHTTPRules := externalHTTPRules r;
     annotationMap := annotationMap r;
     standalone := standalone r;
     generateUnboundMethods := generateUnboundMethods r;
     warnOnUnboundMethods := warnOnUnboundMethods r;
     allowDeleteBody := allowDeleteBody r |}.

Fixpoint loadServices_methods (r : Registry) (svc : ServiceRef)
    (mds : list MethodDescriptorProto) (methods : list Method)
  : outcome (Registry * list Method) :=
  match mds with
  | [] => Ok (r, methods)
  | md :: rest =>
      meth ← loadServices_method r svc md;
      loadServices_methods
        (register_method r (Method_FQMN svc md) meth) svc rest (methods ++ [meth])
  end.

Fixpoint loadServices_services (r : Registry) (file : FileDescriptorProto)
    (sds : list ServiceDescriptorProto) (svcs : list Service)
  : outcome (Registry * list Service) :=
  match sds with
  | [] => Ok (r, svcs)
  | sd :: rest =>
      let svc := {| Service_File := file;
                    Service_proto := sd;
                    Service_ForcePrefixedName := standalone r |} in
      '(r', methods) ← loadServices_methods r svc (sd_Method sd) [];
      if Nat.eqb (length methods) 0
      then loadServices_services r' file rest svcs
      else loadServices_services r' file rest
             (svcs ++ [{| Service_ref := svc; Methods := methods |}])
  end.

Definition loadServices (r : Registry) (file : File) : outcome (Registry * File) :=
  '(r', svcs) ← loadServices_services r (File_proto file) (fd_Service (File_proto file)) [];
  Ok (r', {| File_proto := File_proto file;
             File_Messages := File_Messages file;
             Services := svcs |}).

End services.

(** ** Duplicate routes *)

Section registry.
Context `{Externals}.

Definition owns_route (verb template : string) (m : Method) : bool :=
  existsb (fun ob => match ob with
                     | Some b => String.eqb (HTTPMethod b) verb
                                 && String.eqb (Tmpl_Template (PathTmpl b)) template
                     | None => false
                     end) (Bindings m).

(** The methods of [svc] that own a binding with the given verb and
    compiled template, in declaration order. *)
Definition collidingMethods (svc : Service) (verb template : string) : list string :=
  map (fun m => Method_GetName (Method_ref m))
      (filter (fun m => owns_route verb template m = true) (Methods svc)).

Definition register_route (r : Registry) (key : string * string * string) : Registry :=
  {| msgs := msgs r;
     meths := meths r;
     externalHTTPRules := externalHTTPRules r;
     annotationMap := {[ key ]} ∪ annotationMap r;
     standalone := standalone r;
     generateUnboundMethods := generateUnboundMethods r;
     warnOnUnboundMethods := warnOnUnboundMethods r;
     allowDeleteBody := allowDeleteBody r |}.

(** Modelled from the spec: Registry.CheckDuplicateAnnotation (registry.go
    is not among the sources; [applyTemplate] calls it with the verb, the
    compiled template string and the owning service). Section 4.3: the
    (verb, compiled-template) pair is checked against all bindings already
    registered for the owning service in the current run; a repeat is
    rejected as a duplicate-route error naming both colliding methods.
    The methods are read off the service that the caller passes. *)
Definition CheckDuplicateAnnotation (r : Registry) (httpMethod httpTemplate : string)
    (svc : Service) : outcome Registry :=
  let key := (httpMethod, httpTemplate, Service_FQSN (Service_ref svc)) in
  if decide (key ∈ annotationMap r)
  then Err (ErrDuplicateRoute (Service_GetName (Service_ref svc)) httpMethod httpTemplate
              (collidingMethods svc httpMethod httpTemplate))
  else Ok (register_route r key).

End registry.

End descriptor.

(* ===================================================================== *)
(** * Package gensdk                                                      *)
(* ===================================================================== *)

Module gensdk.
Import descriptor.

Section gensdk.
Context `{Externals}.

(** [HasQueryParam] (query.go). Its argument is a [*Binding]. *)
Definition HasQueryParam (b : option Binding) : outcome bool :=
  match b with
  | None => Panic
  | Some b =>
      if (match Binding_Body b with
          | Some body => Nat.eqb (length (Body_FieldPath body)) 0
          | None => false
          end)
      then Ok false
      else
        let fields : gmap string bool :=
          foldl (fun fields f => <[Field_Name f := true]> fields) ∅
                (Message_Fields (RequestType (Binding_Method b))) in
        let fields :=
          match Binding_Body b with
          | Some body => delete (FieldPath_String (Body_FieldPath body)) fields
          | None => fields
          end in
        let fields :=
          foldl (fun fields p => delete (FieldPath_String (Param_FieldPath p)) fields)
                fields (PathParams b) in
        Ok (Nat.ltb 0 (size fields))
  end.

(** The last loop of [hasQueryParams]. *)
Fixpoint hasQueryParams_loop (fields : gmap string bool) (fs : list Field) : bool :=
  match fs with
  | [] => false
  | f :: rest =>
      let val := Field_Name f in
      match fields !! val with
      | Some _ => true
      | None => hasQueryParams_loop fields rest
      end
  end.

Definition hasQueryParams (m : Method) : outcome bool :=
  if Nat.eqb (length (Bindings m)) 0 then Ok false
  else
    match Bindings m !! 0%nat with
    | None | Some None => Panic
    | Some (Some b) =>
        if (match Binding_Body b with
            | Some body => Nat.eqb (length (Body_FieldPath body)) 0
            | None => false
            end)
        then Ok false
        else
          let fields : gmap string bool :=
            foldl (fun fields f => <[Field_Name f := true]> fields) ∅
                  (Message_Fields (RequestType (Binding_Method b))) in
          let fields :=
            match Binding_Body b with
            | Some body => delete (FieldPath_String (Body_FieldPath body)) fields
            | None => fields
            end in
          let fields :=
            foldl (fun fields p => delete (FieldPath_String (Param_FieldPath p)) fields)
                  fields (PathParams b) in
          Ok (hasQueryParams_loop fields (Message_Fields (RequestType (Binding_Method b))))
    end.

(** The last loop of [getQueryParams]. *)
Fixpoint getQueryParams_loop (fields : gmap string bool) (fs : list Field)
    (list_ : list string) : list string :=
  match fs with
  | [] => list_
  | f :: rest =>
      let val := Field_Name f in
      match fields !! val with
      | Some _ => getQueryParams_loop fields rest (list_ ++ [val])
      | None => getQueryParams_loop fields rest list_
      end
  end.

Definition getQueryParams (m : Method) : outcome (list string) :=
  let list_ : list string := [] in
  if Nat.eqb (length (Bindings m)) 0 then Ok list_
  else
    match Bindings m !! 0%nat with
    | None | Some None => Panic
    | Some (Some b) =>
        if (match Binding_Body b with
            | Some body => Nat.eqb (length (Body_FieldPath body)) 0
            | None => false
            end)
        then Ok list_
        else
          let fields : gmap string bool :=
            foldl (fun fields f => <[Field_Name f := true]> fields) ∅
                  (Message_Fields (RequestType (Binding_Method b))) in
          let fields :=
            match Binding_Body b with
            | Some body => delete (FieldPath_String (Body_FieldPath body)) fields
            | None => fields
            end in
          let fields :=
            foldl (fun fields p => delete (FieldPath_String (Param_FieldPath p)) fields)
                  fields (PathParams b) in
          Ok (getQueryParams_loop fields (Message_Fields (RequestType (Binding_Method b))) list_)
    end.

(** ** The registration loop of applyTemplate (template.go) *)

(** [meth.Name = &methName] with [methName := casing.Camel( *meth.Name )]. *)
Definition rename_method (m : Method) : Method :=
  let ref := Method_ref m in
  let md := Method_proto ref in
  {| Method_ref :=
       {| Method_Service := Method_Service ref;
          Method_proto :=
            {| md_Name := casing_Camel (md_Name md);
               md_InputType := md_InputType md;
               md_OutputType := md_OutputType md;
               md_Options := md_Options md;
               md_ClientStreaming := md_ClientStreaming md;
               md_ServerStreaming := md_ServerStreaming md |};
          RequestType := RequestType ref;
          ResponseType := ResponseType ref;
          Method_Role := Method_Role ref |};
     Bindings := Bindings m |}.

(** [svc.Name = &svcName] with [svcName := casing.Camel( *svc.Name )]. *)
Definition rename_service (svc : ServiceRef) : ServiceRef :=
  {| Service_File := Service_File svc;
     Service_proto := {| sd_Name := casing_Camel (sd_Name (Service_proto svc));
                         sd_Method := sd_Method (Service_proto svc) |};
     Service_ForcePrefixedName := Service_ForcePrefixedName svc |}.

(** The loop over [meth.Bindings]; [svc] is the service as it stands when
    the loop runs. A nil binding is dereferenced. *)
Fixpoint applyTemplate_bindings (reg : Registry) (svc : Service)
    (bs : list (option Binding)) (methodWithBindingsSeen : bool)
  : outcome (Registry * bool) :=
  match bs with
  | [] => Ok (reg, methodWithBindingsSeen)
  | None :: _ => Panic
  | Some b :: rest =>
      reg' ← CheckDuplicateAnnotation reg (HTTPMethod b) (Tmpl_Template (PathTmpl b)) svc;
      applyTemplate_bindings reg' svc rest true
  end.

(** The loop over [svc.Methods]: [done] are the methods already visited
    (renamed in place), [todo] those still to visit. *)
Fixpoint applyTemplate_methods (reg : Registry) (svc : ServiceRef)
    (done todo : list Method) (methodWithBindingsSeen : bool)
  : outcome (Registry * list Method * bool) :=
  match todo with
  | [] => Ok (reg, done, methodWithBindingsSeen)
  | meth :: rest =>
      let meth' := rename_method meth in
      let svc_now := {| Service_ref := svc; Methods := done ++ meth' :: rest |} in
      '(reg', seen) ← applyTemplate_bindings reg svc_now (Bindings meth') methodWithBindingsSeen;
      applyTemplate_methods reg' svc (done ++ [meth']) rest seen
  end.

(** The loop over [p.Services], building [targetServices]. *)
Fixpoint applyTemplate_services (reg : Registry) (svcs : list Service)
    (targetServices : list Service) : outcome (Registry * list Service) :=
  match svcs with
  | [] => Ok (reg, targetServices)
  | svc :: rest =>
      let ref := rename_service (Service_ref svc) in
      '(reg', methods, seen) ← applyTemplate_methods reg ref [] (Methods svc) false;
      let svc' := {| Service_ref := ref; Methods := methods |} in
      applyTemplate_services reg' rest
        (if seen : bool then targetServices ++ [svc'] else targetServices)
  end.

(** [applyTemplate] up to the execution of the text template: the
    services handed to the template, or the error returned before. The
    first loop, which renames the messages of the file, is left out: what
    follows here does not read a message. *)
Definition applyTemplate (p : File) (reg : Registry) : outcome (Registry * list Service) :=
  '(reg', targetServices) ← applyTemplate_services reg (Services p) [];
  if Nat.eqb (length targetServices) 0 then Err ErrNoTargetService
  else Ok (reg', targetServices).

(** ** Imports and source paths (template.go) *)

(** The loop of [equalPath]: [i] runs over the indices of [a]; a read
    past the end of a slice panics. The elements are [int32] values. *)
Fixpoint equalPath_loop (a b : list Z) (indices : list nat) : outcome bool :=
  match indices with
  | [] => Ok true
  | i :: rest =>
      match a !! i, b !! i with
      | Some x, Some y =>
          if negb (Z.eqb x y) then Ok false else equalPath_loop a b rest
      | _, _ => Panic
      end
  end.

Definition equalPath (a b : list Z) : outcome bool :=
  if negb (Nat.eqb (length a) (length b)) then Ok false
  else equalPath_loop a b (seq 0 (length a)).

(** The body of the loop of [getImports] over [s.Methods]. *)
Definition getImports_method (importMap : gmap string bool) (m : Method)
  : outcome (gmap string bool) :=
  if Nat.eqb (length (Bindings m)) 0 then Ok importMap
  else
    match Bindings m !! 0%nat with
    | None | Some None => Panic
    | Some (Some b) =>
        let importMap :=
          if negb (Nat.eqb (length (PathParams b)) 0)
          then <["net/url" := true]> (<["strings" := true]> importMap)
          else importMap in
        q ← hasQueryParams m;
        let importMap := if q : bool then <["net/url" := true]> importMap else importMap in
        let importMap := match Binding_Body b with
                         | Some _ => <["bytes" := true]> importMap
                         | None => importMap
                         end in
        Ok importMap
    end.

Fixpoint getImports_methods (importMap : gmap string bool) (ms : list Method)
  : outcome (gmap string bool) :=
  match ms with
  | [] => Ok importMap
  | m :: rest =>
      importMap' ← getImports_method importMap m;
      getImports_methods importMap' rest
  end.

Fixpoint getImports_services (importMap : gmap string bool) (services : list Service)
  : outcome (gmap string bool) :=
  match services with
  | [] => Ok importMap
  | s :: rest =>
      importMap' ← getImports_methods importMap (Methods s);
      getImports_services importMap' rest
  end.

Definition getImports (services : list Service) : outcome (list string) :=
  let imports := ["context"; "fmt"; "io"; "net/http"] in
  importMap ← getImports_services ∅ services;
  let imports := match importMap !! "strings" with
                 | Some _ => imports ++ ["strings"]
                 | None => imports
                 end in
  let imports := match importMap !! "net/url" with
                 | Some _ => imports ++ ["net/url"]
                 | None => imports
                 end in
  let imports := match importMap !! "bytes" with
                 | Some _ => imports ++ ["bytes"]
                 | None => imports
                 end in
  Ok imports.

End gensdk.

End gensdk.

(* ===================================================================== *)
(** * Package parser                                                      *)
(* ===================================================================== *)

Module parser.

(** The part of the Go library that [strings.ToLower] hands a string with
    a byte outside ASCII to: [strings.Map(unicode.ToLower, s)]. *)
Class GoStrings : Type := mkGoStrings {
  strings_Map_unicode_ToLower : string -> string
}.

Section parser.
Context `{GoStrings}.

(** [c += 'a' - 'A'] for ['A' <= c && c <= 'Z']. *)
Definition lower (c : ascii) : ascii :=
  let n := nat_of_ascii c in
  if Nat.leb 65 n && Nat.leb n 90 then ascii_of_nat (n + 32) else c.

(** [strings.ToLower]: a string of ASCII bytes is lowered byte by byte
    (and returned as it is when it has no upper-case letter, which is the
    same string); any other string goes through [unicode.ToLower]. *)
Definition strings_ToLower (s : string) : string :=
  if forallb (fun c => Nat.ltb (nat_of_ascii c) 128) (list_ascii_of_string s)
  then string_of_list_ascii (map lower (list_ascii_of_string s))
  else strings_Map_unicode_ToLower s.

(** [strings.HasSuffix]:
    [len(s) >= len(suffix) && s[len(s)-len(suffix):] == suffix]. *)
Definition strings_HasSuffix (s suffix : string) : bool :=
  Nat.leb (String.length suffix) (String.length s)
  && String.eqb (substring (String.length s - String.length suffix)
                           (String.length suffix) s) suffix.

(** map of irregular plural -> singular *)
Definition irregulars : gmap string string :=
  list_to_map [ ("men", "man"); ("women", "woman"); ("children", "child");
                ("feet", "foot"); ("teeth", "tooth"); ("geese", "goose");
                ("mice", "mouse"); ("people", "person") ].

Definition Plural2Singular (word : string) : string * bool :=
  let word := strings_ToLower word in
  match irregulars !! word with
  | Some singular => (singular, true)
  | None =>
      if strings_HasSuffix word "ies" && Nat.ltb 3 (String.length word)
      then (substring 0 (String.length word - 3) word +:+ "y", true)
      else if strings_HasSuffix word "es"
              && (strings_HasSuffix word "ses" || strings_HasSuffix word "xes"
                  || strings_HasSuffix word "zes" || strings_HasSuffix word "ches"
                  || strings_HasSuffix word "shes")
      then (substring 0 (String.length word - 2) word, true)
      else if strings_HasSuffix word "s" && Nat.ltb 3 (String.length word)
              && negb (strings_HasSuffix word "ss")
              && negb (strings_HasSuffix word "us")
      then (substring 0 (String.length word - 1) word, true)
      else (word, false)
  end.

End parser.

End parser.

(* ===================================================================== *)
(** * A sample environment, used for closed examples                     *)
(* ===================================================================== *)

Module sample.
Import descriptor.

(** The field paths of the capture groups of a template, in order: the
    text between [{] and the next [=] or [}]. *)
Fixpoint captures (s : string) (in_path : bool) (cur : string) : list string :=
  match s with
  | EmptyString => []
  | String c s' =>
      if in_path then
        if Ascii.eqb c "}" then cur :: captures s' false ""
        else if Ascii.eqb c "=" then cur :: captures s' false ""
        else captures s' true (cur +:+ String c "")
      else if Ascii.eqb c "{" then captures s' true ""
      else captures s' false ""
  end.

Definition Parse (tmpl : string) : string + Compiler :=
  match tmpl with
  | String "/" _ =>
      inr {| Compile := {| Tmpl_Fields := captures tmpl false ""; Tmpl_Template := tmpl |} |}
  | _ => inl "no leading /"
  end.

Definition wellKnownTypes : list string :=
  [ ".google.protobuf.Timestamp"; ".google.protobuf.Duration";
    ".google.protobuf.StringValue"; ".google.protobuf.BoolValue";
    ".google.protobuf.Int32Value"; ".google.protobuf.Int64Value" ].

Definition FQSN (svc : ServiceRef) : string :=
  "." +:+ fd_Package (Service_File svc) +:+ "." +:+ sd_Name (Service_proto svc).

Definition upper (c : ascii) : ascii :=
  let n := nat_of_ascii c in
  if Nat.leb 97 n && Nat.leb n 122 then ascii_of_nat (n - 32) else c.

#[global] Instance env : Externals := {|
  httprule_Parse := Parse;
  LookupMsg := fun r _ name =>
    match msgs r !! name with
    | Some m => inr m
    | None => inl ("no message found: " +:+ name)
    end;
  IsWellKnownType := fun typeName => bool_decide (typeName ∈ wellKnownTypes);
  Message_FQMN := fun m => "." +:+ Message_Package m +:+ "." +:+ Message_Name m;
  Method_FQMN := fun svc md => FQSN svc +:+ "." +:+ md_Name md;
  Service_FQSN := FQSN;
  casing_Camel := fun s => match s with
                           | String c s' => String (upper c) s'
                           | EmptyString => EmptyString
                           end
|}.

Definition registry (ms : list Message) : Registry :=
  {| msgs := list_to_map (map (fun m => (Message_FQMN m, m)) ms);
     meths := ∅;
     externalHTTPRules := ∅;
     annotationMap := ∅;
     standalone := false;
     generateUnboundMethods := true;
     warnOnUnboundMethods := false;
     allowDeleteBody := false |}.

End sample.

(* ===================================================================== *)
(** * Vocabulary of the properties                                      *)
(* ===================================================================== *)

Import descriptor.
Import gensdk.

(** The role annotation a method carries, if any. *)
Definition role_annotation (md : MethodDescriptorProto) : option api_Role :=
  match md_Options md with
  | Some o => E_Role o
  | None => None
  end.

(** A value the role format accepts: empty, or in the language of the
    kebab-case pattern. *)
Definition permitted (v : string) : Prop :=
  v = "" \/ regexp.matches kebabCaseRegex (list_ascii_of_string v).

(** No byte of [s] is a dot. *)
Fixpoint dotless (s : string) : bool :=
  match s with
  | EmptyString => true
  | String c s' => negb (Ascii.eqb c ".") && dotless s'
  end.

Definition component (name : string) (f : Field) : FieldPathComponent :=
  {| Comp_Name := name; Comp_Target := f |}.

Definition required (c : FieldPathComponent) : Prop :=
  Field_Proto3Optional (Comp_Target c) = false.

(** The two rejections that concern the request body of a rule. *)
Definition body_ground (e : error) : bool :=
  match e with
  | ErrGetWithBody _ | ErrDeleteWithBody _ => true
  | _ => false
  end.

(** The rule a method carries inline, if any. *)
Definition inline_rule (md : MethodDescriptorProto) : option HttpRule :=
  match md_Options md with
  | Some o => E_Http o
  | None => None
  end.

(** The guard of the three functions: the body is the whole message. *)
Definition whole_message_body (b : Binding) : bool :=
  match Binding_Body b with
  | Some body => Nat.eqb (length (Body_FieldPath body)) 0
  | None => false
  end.

(** The map [fields] after the three steps that build it. *)
Definition query_fields (b : Binding) : gmap string bool :=
  let fields : gmap string bool :=
    foldl (fun fields f => <[Field_Name f := true]> fields) ∅
          (Message_Fields (RequestType (Binding_Method b))) in
  let fields :=
    match Binding_Body b with
    | Some body => delete (FieldPath_String (Body_FieldPath body)) fields
    | None => fields
    end in
  foldl (fun fields p => delete (FieldPath_String (Param_FieldPath p)) fields)
        fields (PathParams b).

Definition request_fields (b : Binding) : list string :=
  map Field_Name (Message_Fields (RequestType (Binding_Method b))).

Definition path_param_keys (b : Binding) : list string :=
  map (fun p => FieldPath_String (Param_FieldPath p)) (PathParams b).

(** The keys that the code deletes from [fields]. *)
Definition deleted_keys (b : Binding) : list string :=
  match Binding_Body b with
  | Some body => [FieldPath_String (Body_FieldPath body)]
  | None => []
  end ++ path_param_keys b.

(** The list as the specification words it: the direct fields of the
    request message, minus the field named by the body's field path (if
    the binding has a non-empty body path), minus the field path of every
    path parameter, in declaration order. *)
Definition specified_query_params (b : Binding) : list string :=
  let body_key :=
    match Binding_Body b with
    | Some body => match Body_FieldPath body with
                   | [] => []
                   | path => [FieldPath_String path]
                   end
    | None => []
    end in
  filter (fun name => name ∉ body_key ++ path_param_keys b) (request_fields b).

(** The verb and compiled template of a binding. *)
Definition route_of (b : Binding) : string * string :=
  (HTTPMethod b, Tmpl_Template (PathTmpl b)).

(** The routes of the bindings of a list that are not nil, in order. *)
Definition routes (bs : list (option Binding)) : list (string * string) :=
  map route_of (omap id bs).

Section vocabulary.
Context `{Externals}.

(** One step of the walk: [f] is a field of aggregate type whose message
    type, looked up from [msg], is [next]. *)
Definition steps_into (r : Registry) (msg : Message) (f : Field) (next : Message) : Prop :=
  aggregate (Field_Type f) = true /\
  LookupMsg r (Message_FQMN msg) (Field_GetTypeName f) = inr next.

(** The rest of [newBinding] once the verb and the path are selected. *)
Definition newBinding_continue (r : Registry) (md : MethodDescriptorProto) (meth : MethodRef)
    (opts : HttpRule) (idx : nat) (httpMethod pathTemplate : string)
  : outcome (option Binding) :=
  b ← newBinding_build r md meth opts idx httpMethod pathTemplate; Ok (Some b).

(** [/<service-fqn>/<method>], the service's fully-qualified name being
    [FQSN] without its leading dot. *)
Definition default_path (svc : ServiceRef) (md : MethodDescriptorProto) : string :=
  "/" +:+ strings_TrimPrefix (Service_FQSN svc) "." +:+ "/" +:+ md_Name md.

(** A binding for verb POST whose template is the compiled default path,
    whose body is the whole request message, first in its method. *)
Definition default_binding (svc : ServiceRef) (md : MethodDescriptorProto) (b : Binding)
  : Prop :=
  HTTPMethod b = "POST" /\
  (exists parsed, httprule_Parse (default_path svc md) = inr parsed
                  /\ PathTmpl b = Compile parsed) /\
  Binding_Body b = Some {| Body_FieldPath := [] |} /\
  Binding_ResponseBody b = None /\
  Binding_Index b = 0.

(** [r'] is [r] after further successful registrations. *)
Inductive registered_after (r : Registry) : Registry -> Prop :=
| after_none : registered_after r r
| after_more r' r'' verb template svc :
    registered_after r r' ->
    CheckDuplicateAnnotation r' verb template svc = Ok r'' ->
    registered_after r r''.

Definition route_key (svc : ServiceRef) (k : string * string) : string * string * string :=
  (k.1, k.2, Service_FQSN svc).

(** The registry after the routes [ks] are registered for [svc]. *)
Definition register_routes (r : Registry) (svc : ServiceRef) (ks : list (string * string))
  : Registry :=
  foldl (fun r k => register_route r (route_key svc k)) r ks.

End vocabulary.

(** The call returns: a value or an error, no panic. *)
Definition returns {A : Type} (x : outcome A) : Prop :=
  match x with
  | Panic => False
  | _ => True
  end.

(** The call returns a value. *)
Definition succeeds {A : Type} (x : outcome A) : Prop :=
  exists a, x = Ok a.

(** The target of a component carries the component's name. *)
Definition well_named (c : FieldPathComponent) : Prop :=
  Field_Name (Comp_Target c) = Comp_Name c.

(** A rule that itself declares additional bindings. *)
Definition nests (additional : HttpRule) : Prop :=
  AdditionalBindings additional <> [].

(** Every binding that is not nil sits at its own index and points back
    to its method. *)
Definition indexed (meth : Method) : Prop :=
  forall i b, Bindings meth !! i = Some (Some b) ->
              Binding_Index b = i /\ Binding_Method b = Method_ref meth.

Section loading.
Context `{Externals}.

(** [meth.FQMN()] of a method that has its service and descriptor set. *)
Definition FQMN (m : Method) : string :=
  Method_FQMN (Method_Service (Method_ref m)) (Method_proto (Method_ref m)).

(** [r'] differs from [r] in the method table at most. *)
Definition same_settings (r r' : Registry) : Prop :=
  msgs r' = msgs r /\ externalHTTPRules r' = externalHTTPRules r /\
  annotationMap r' = annotationMap r /\ standalone r' = standalone r /\
  generateUnboundMethods r' = generateUnboundMethods r /\
  warnOnUnboundMethods r' = warnOnUnboundMethods r /\
  allowDeleteBody r' = allowDeleteBody r.

(** The service descriptor declares a method. *)
Definition declares_methods (sd : ServiceDescriptorProto) : bool :=
  negb (Nat.eqb (length (sd_Method sd)) 0).

(** The service that [loadServices] builds for [sd]. *)
Definition service_of (r : Registry) (file : FileDescriptorProto)
    (sd : ServiceDescriptorProto) : ServiceRef :=
  {| Service_File := file; Service_proto := sd;
     Service_ForcePrefixedName := standalone r |}.

(** The methods of the services of a list, in order. *)
Definition loaded_methods (svcs : list Service) : list Method :=
  flat_map Methods svcs.

(** The entry of key [k] once the methods [loaded] are stored in [table]
    one after the other, each under its fully-qualified name. *)
Definition stored_last (table : gmap string Method) (loaded : list Method) (k : string)
  : option Method :=
  match last (filter (fun m => FQMN m = k) loaded) with
  | Some m => Some m
  | None => table !! k
  end.

End loading.

Section targets.
Context `{Externals}.

(** A service as the loops of [applyTemplate] leave it: its name and the
    names of its methods in camel case. *)
Definition renamed (s : Service) : Service :=
  {| Service_ref := rename_service (Service_ref s);
     Methods := map rename_method (Methods s) |}.

(** The method has a binding. *)
Definition bound (m : Method) : bool := negb (Nat.eqb (length (Bindings m)) 0).

(** The service has a method with a binding. *)
Definition targeted (s : Service) : bool := existsb bound (Methods s).

(** No binding of the service is nil. *)
Definition built (s : Service) : Prop :=
  Forall (fun m => Forall is_Some (Bindings m)) (Methods s).

(** The keys under which the routes of a service are registered: verb,
    compiled template and the fully-qualified name of the renamed
    service, in the order of the methods and their bindings. *)
Definition service_keys (s : Service) : list (string * string * string) :=
  map (route_key (rename_service (Service_ref s)))
      (routes (flat_map Bindings (Methods s))).

Definition file_keys (svcs : list Service) : list (string * string * string) :=
  flat_map service_keys svcs.


End targets.

(** ** Imports *)

(** The first binding of each method that has bindings, when it is not
    nil. *)
Definition first_bindings (ms : list Method) : list Binding :=
  omap (fun m => match Bindings m with
                 | Some b :: _ => Some b
                 | _ => None
                 end) ms.

(** The first binding of the method is nil. *)
Definition first_nil (m : Method) : bool :=
  match Bindings m with
  | None :: _ => true
  | _ => false
  end.

Definition has_path_params (b : Binding) : bool :=
  negb (Nat.eqb (length (PathParams b)) 0).

Definition has_body (b : Binding) : bool :=
  match Binding_Body b with
  | Some _ => true
  | None => false
  end.

(** [hasQueryParams] returns true. *)
Definition has_query (m : Method) : bool :=
  match hasQueryParams m with
  | Ok q => q
  | _ => false
  end.

(** The key is in the map (the two-value read [_, ok := importMap[k]]). *)
Definition holds (importMap : gmap string bool) (k : string) : bool :=
  match importMap !! k with
  | Some _ => true
  | None => false
  end.

(** The imports that the methods [ms] add to the four fixed ones. *)
Definition added_imports (ms : list Method) : list string :=
  (if existsb has_path_params (first_bindings ms) then ["strings"] else [])
  ++ (if existsb has_path_params (first_bindings ms) || existsb has_query ms
      then ["net/url"] else [])
  ++ (if existsb has_body (first_bindings ms) then ["bytes"] else []).

(** ** Plurals *)

(** For closed examples: their words are ASCII, the function is not
    called. *)
#[global] Instance ascii_only : parser.GoStrings :=
  {| parser.strings_Map_unicode_ToLower := fun s => s |}.

(** The words that end in [s], [x], [z], [ch] or [sh]. *)
Definition sibilant (stem : string) : bool :=
  parser.strings_HasSuffix stem "s" || parser.strings_HasSuffix stem "x"
  || parser.strings_HasSuffix stem "z" || parser.strings_HasSuffix stem "ch"
  || parser.strings_HasSuffix stem "sh".

(** The table of TestPlural2Singular: input, wanted singular, wanted
    flag. *)
Definition TestPlural2Singular_tests : list (string * string * bool) :=
  [ ("men", "man", true); ("women", "woman", true); ("children", "child", true);
    ("feet", "foot", true); ("teeth", "tooth", true); ("geese", "goose", true);
    ("mice", "mouse", true); ("people", "person", true);
    ("parties", "party", true); ("stories", "story", true); ("flies", "fly", true);
    ("boxes", "box", true); ("wishes", "wish", true); ("buses", "bus", true);
    ("benches", "bench", true);
    ("cats", "cat", true); ("dogs", "dog", true); ("cars", "car", true);
    ("dog", "dog", false); ("bus", "bus", false); ("quiz", "quiz", false);
    ("s", "s", false); ("", "", false); ("ies", "ies", false) ].

(** ** Kebab case *)

Definition is_lower (c : ascii) : bool := regexp.in_range "a" "z" c.

Definition is_alnum (c : ascii) : bool :=
  regexp.in_range "a" "z" c || regexp.in_range "0" "9" c.

(** The two classes of the kebab-case pattern: [[a-z0-9]] and
    [(-[a-z0-9]+)]. *)
Definition alnum : regexp.re :=
  regexp.Alt (regexp.Range "a" "z") (regexp.Range "0" "9").

Definition group : regexp.re :=
  regexp.Cat (regexp.Lit "-") (regexp.Plus alnum).

(** Every byte is a lower-case letter, a digit or a hyphen, and every
    hyphen is followed by a letter or a digit. *)
Fixpoint hyphenated (s : list ascii) : bool :=
  match s with
  | [] => true
  | c :: rest =>
      (is_alnum c
       || (Ascii.eqb c "-" && match rest with
                              | d :: _ => is_alnum d
                              | [] => false
                              end))
      && hyphenated rest
  end.

(** A lower-case letter, then letters, digits and hyphens, each hyphen
    followed by a letter or a digit. *)
Definition kebab_shaped (s : string) : bool :=
  match list_ascii_of_string s with
  | c :: rest => is_lower c && hyphenated rest
  | [] => false
  end.

(** ** Patterns *)

(** The verb and the path template that a rule selects: the pattern of
    one of the five verbs with a path that is not empty, or a custom
    pattern that is not nil. *)
Definition selected (opts : HttpRule) : option (string * string) :=
  match Pattern opts with
  | Some (HttpRule_Get s) => if String.eqb s "" then None else Some ("GET", s)
  | Some (HttpRule_Put s) => if String.eqb s "" then None else Some ("PUT", s)
  | Some (HttpRule_Post s) => if String.eqb s "" then None else Some ("POST", s)
  | Some (HttpRule_Delete s) => if String.eqb s "" then None else Some ("DELETE", s)
  | Some (HttpRule_Patch s) => if String.eqb s "" then None else Some ("PATCH", s)
  | Some (HttpRule_Custom (Some custom)) => Some (Custom_Kind custom, Custom_Path custom)
  | Some (HttpRule_Custom None) => None
  | None => None
  end.

(* ===================================================================== *)
(** * Data of the closed examples                                       *)
(* ===================================================================== *)

Module demo.
Import sample.

Definition scalar (name : string) (optional : bool) : Field :=
  {| Field_Name := name; Field_Type := TYPE_STRING; Field_TypeName := None;
     Field_Proto3Optional := optional |}.

Definition nested (name typeName : string) : Field :=
  {| Field_Name := name; Field_Type := TYPE_MESSAGE; Field_TypeName := Some typeName;
     Field_Proto3Optional := false |}.

Definition Owner : Message :=
  {| Message_Package := "demo"; Message_Name := "Owner";
     Message_Fields := [scalar "name" false; scalar "nick" true;
                        nested "since" ".google.protobuf.Timestamp"] |}.

Definition Shelf : Message :=
  {| Message_Package := "demo"; Message_Name := "Shelf";
     Message_Fields := [nested "owner" ".demo.Owner"; scalar "theme" false] |}.

Definition Book : Message :=
  {| Message_Package := "demo"; Message_Name := "Book";
     Message_Fields := [scalar "id" false; scalar "name" false; scalar "filter" false;
                        nested "shelf" ".demo.Shelf"] |}.

Definition reg : Registry := registry [Owner; Shelf; Book].

Definition file : FileDescriptorProto :=
  {| fd_Name := "demo.proto"; fd_Package := "demo"; fd_Service := [] |}.

Definition GetBook : MethodDescriptorProto :=
  {| md_Name := "GetBook"; md_InputType := ".demo.Book"; md_OutputType := ".demo.Book";
     md_Options := None; md_ClientStreaming := false; md_ServerStreaming := false |}.

Definition Library : ServiceRef :=
  {| Service_File := file;
     Service_proto := {| sd_Name := "Library"; sd_Method := [GetBook] |};
     Service_ForcePrefixedName := false |}.

Definition getBook : MethodRef :=
  {| Method_Service := Library; Method_proto := GetBook; RequestType := Book;
     ResponseType := Book; Method_Role := None |}.

End demo.

Definition shelf_owner_name : FieldPath :=
  [component "shelf" (demo.nested "shelf" ".demo.Shelf");
   component "owner" (demo.nested "owner" ".demo.Owner");
   component "name" (demo.scalar "name" false)].

Definition id_param : Parameter_ :=
  {| Param_FieldPath := [component "id" (demo.scalar "id" false)];
     Param_Method := demo.getBook;
     Param_Target := demo.scalar "id" false |}.

(** What [newBinding] builds for [GET /v1/books/{id}] on [demo.getBook]. *)
Definition get_book_binding : Binding :=
  {| Binding_Method := demo.getBook; Binding_Index := 0;
     PathTmpl := {| Tmpl_Fields := ["id"]; Tmpl_Template := "/v1/books/{id}" |};
     HTTPMethod := "GET"; PathParams := [id_param];
     Binding_Body := None; Binding_ResponseBody := None |}.

(** A method with client-side streaming. *)
Definition Upload : MethodDescriptorProto :=
  {| md_Name := "Upload"; md_InputType := ".demo.Book"; md_OutputType := ".demo.Book";
     md_Options := None; md_ClientStreaming := true; md_ServerStreaming := false |}.

Definition upload : MethodRef :=
  {| Method_Service := demo.Library; Method_proto := Upload; RequestType := demo.Book;
     ResponseType := demo.Book; Method_Role := None |}.

(** A rule with an additional binding that declares one of its own. *)
Definition rule_nested : HttpRule :=
  {| Pattern := Some (HttpRule_Get "/v1/books/{id}"); Body := ""; ResponseBody := "";
     AdditionalBindings :=
       [ {| Pattern := Some (HttpRule_Get "/v1/items/{id}"); Body := ""; ResponseBody := "";
            AdditionalBindings :=
              [ {| Pattern := Some (HttpRule_Get "/v2/items/{id}"); Body := "";
                   ResponseBody := ""; AdditionalBindings := [] |} ] |} ] |}.

(** A rule with two additional bindings. *)
Definition rule_three_routes : HttpRule :=
  {| Pattern := Some (HttpRule_Get "/v1/books/{id}"); Body := ""; ResponseBody := "";
     AdditionalBindings :=
       [ {| Pattern := Some (HttpRule_Put "/v1/books/{id}"); Body := "*"; ResponseBody := "";
            AdditionalBindings := [] |};
         {| Pattern := Some (HttpRule_Custom (Some {| Custom_Kind := "HEAD";
                                                      Custom_Path := "/v1/books" |}));
            Body := ""; ResponseBody := ""; AdditionalBindings := [] |} ] |}.

(** The registry of the examples with default generation off. *)
Definition reg_no_default : Registry :=
  {| msgs := msgs demo.reg; meths := meths demo.reg;
     externalHTTPRules := externalHTTPRules demo.reg;
     annotationMap := annotationMap demo.reg; standalone := standalone demo.reg;
     generateUnboundMethods := false;
     warnOnUnboundMethods := warnOnUnboundMethods demo.reg;
     allowDeleteBody := allowDeleteBody demo.reg |}.

Definition role_w : api_Role :=
  {| api_Resource := "user-profile"; api_Verb := "read";
     api_Scope := ["tenant"; "Bad_Scope"; ""] |}.

Definition md_w : MethodDescriptorProto :=
  {| md_Name := "GetUser"; md_InputType := ".demo.GetUserReq";
     md_OutputType := ".demo.User";
     md_Options := Some {| E_Http := None; E_Role := Some role_w |};
     md_ClientStreaming := false; md_ServerStreaming := false |}.

Definition rule_without_pattern : HttpRule :=
  {| Pattern := None; Body := ""; ResponseBody := ""; AdditionalBindings := [] |}.

Definition rule_with_additional : HttpRule :=
  {| Pattern := Some (HttpRule_Get "/v1/books/{id}"); Body := ""; ResponseBody := "";
     AdditionalBindings := [rule_without_pattern] |}.

(** A service whose method holds the two entries that [newMethod] builds
    from [rule_with_additional]. *)
Definition service_with_nil_binding : Service :=
  {| Service_ref := demo.Library;
     Methods := [ {| Method_ref := demo.getBook;
                     Bindings :=
                       [Some {| Binding_Method := demo.getBook; Binding_Index := 0;
                                PathTmpl := {| Tmpl_Fields := ["id"];
                                               Tmpl_Template := "/v1/books/{id}" |};
                                HTTPMethod := "GET"; PathParams := [];
                                Binding_Body := None; Binding_ResponseBody := None |};
                        None] |} ] |}.

Definition rule_get (body : string) : HttpRule :=
  {| Pattern := Some (HttpRule_Get "/v1/books/{id}"); Body := body; ResponseBody := "";
     AdditionalBindings := [] |}.

Definition rule_delete (body : string) : HttpRule :=
  {| Pattern := Some (HttpRule_Delete "/v1/books/{id}"); Body := body; ResponseBody := "";
     AdditionalBindings := [] |}.

Definition with_delete_body (r : Registry) : Registry :=
  {| msgs := msgs r; meths := meths r; externalHTTPRules := externalHTTPRules r;
     annotationMap := annotationMap r; standalone := standalone r;
     generateUnboundMethods := generateUnboundMethods r;
     warnOnUnboundMethods := warnOnUnboundMethods r; allowDeleteBody := true |}.

Module query_demo.

Definition Request : Message :=
  {| Message_Package := "demo"; Message_Name := "ListReq";
     Message_Fields := [demo.scalar "id" false; demo.scalar "name" false;
                        demo.scalar "filter" false] |}.

Definition list_ : MethodRef :=
  {| Method_Service := demo.Library;
     Method_proto := {| md_Name := "List"; md_InputType := ".demo.ListReq";
                        md_OutputType := ".demo.ListReq"; md_Options := None;
                        md_ClientStreaming := false; md_ServerStreaming := false |};
     RequestType := Request; ResponseType := Request; Method_Role := None |}.

Definition on_id : Parameter_ :=
  {| Param_FieldPath := [component "id" (demo.scalar "id" false)];
     Param_Method := list_;
     Param_Target := demo.scalar "id" false |}.

(** [GET /v1/items/{id}], no body. *)
Definition get_binding : Binding :=
  {| Binding_Method := list_; Binding_Index := 0;
     PathTmpl := {| Tmpl_Fields := ["id"]; Tmpl_Template := "/v1/items/{id}" |};
     HTTPMethod := "GET"; PathParams := [on_id];
     Binding_Body := None; Binding_ResponseBody := None |}.

(** [POST /v1/items] with body [*]. *)
Definition post_binding : Binding :=
  {| Binding_Method := list_; Binding_Index := 0;
     PathTmpl := {| Tmpl_Fields := []; Tmpl_Template := "/v1/items" |};
     HTTPMethod := "POST"; PathParams := [];
     Binding_Body := Some {| Body_FieldPath := [] |}; Binding_ResponseBody := None |}.

Definition method_of (b : Binding) : Method :=
  {| Method_ref := list_; Bindings := [Some b] |}.

End query_demo.

Module route_demo.

Definition binding (meth : MethodRef) (verb template : string) : Binding :=
  {| Binding_Method := meth; Binding_Index := 0;
     PathTmpl := {| Tmpl_Fields := ["id"]; Tmpl_Template := template |};
     HTTPMethod := verb; PathParams := [];
     Binding_Body := None; Binding_ResponseBody := None |}.

Definition fetch_book : MethodRef :=
  {| Method_Service := demo.Library;
     Method_proto := {| md_Name := "fetchBook"; md_InputType := ".demo.Book";
                        md_OutputType := ".demo.Book"; md_Options := None;
                        md_ClientStreaming := false; md_ServerStreaming := false |};
     RequestType := demo.Book; ResponseType := demo.Book; Method_Role := None |}.

Definition library : Service :=
  {| Service_ref := demo.Library;
     Methods := [ {| Method_ref := demo.getBook;
                     Bindings := [Some (binding demo.getBook "GET" "/v1/books/{id}")] |};
                  {| Method_ref := fetch_book;
                     Bindings := [Some (binding fetch_book "GET" "/v1/books/{id}")] |} ] |}.

Definition file : File :=
  {| File_proto := demo.file; File_Messages := [demo.Book]; Services := [library] |}.

End route_demo.

(** A file with three services: one without methods, one with two bound
    methods, one whose only method has no binding. *)
Module target_demo.

Definition bare : Service :=
  {| Service_ref := {| Service_File := demo.file;
                       Service_proto := {| sd_Name := "bare"; sd_Method := [] |};
                       Service_ForcePrefixedName := false |};
     Methods := [] |}.

Definition library : Service :=
  {| Service_ref := demo.Library;
     Methods := [ {| Method_ref := demo.getBook;
                     Bindings := [Some (route_demo.binding demo.getBook "GET"
                                          "/v1/books/{id}")] |};
                  {| Method_ref := route_demo.fetch_book;
                     Bindings := [Some (route_demo.binding route_demo.fetch_book "GET"
                                          "/v1/fetch/{id}");
                                  Some (route_demo.binding route_demo.fetch_book "POST"
                                          "/v1/books/{id}")] |} ] |}.

Definition unbound : Service :=
  {| Service_ref := {| Service_File := demo.file;
                       Service_proto := {| sd_Name := "archive";
                                           sd_Method := [demo.GetBook] |};
                       Service_ForcePrefixedName := false |};
     Methods := [ {| Method_ref := demo.getBook; Bindings := [] |} ] |}.

Definition file : File :=
  {| File_proto := demo.file; File_Messages := [demo.Book];
     Services := [bare; library; unbound] |}.

Definition unbound_file : File :=
  {| File_proto := demo.file; File_Messages := [demo.Book];
     Services := [bare; unbound] |}.

End target_demo.

(** A file descriptor with three services, the second without methods. *)
Module load_demo.

Definition ListBooks : MethodDescriptorProto :=
  {| md_Name := "ListBooks"; md_InputType := ".demo.Book"; md_OutputType := ".demo.Book";
     md_Options := Some {| E_Http := Some {| Pattern := Some (HttpRule_Get "/v1/books");
                                             Body := ""; ResponseBody := "";
                                             AdditionalBindings := [] |};
                           E_Role := None |};
     md_ClientStreaming := false; md_ServerStreaming := false |}.

Definition proto : FileDescriptorProto :=
  {| fd_Name := "demo.proto"; fd_Package := "demo";
     fd_Service := [ {| sd_Name := "Library"; sd_Method := [demo.GetBook; ListBooks] |};
                     {| sd_Name := "Empty"; sd_Method := [] |};
                     {| sd_Name := "Archive"; sd_Method := [demo.GetBook] |} ] |}.

Definition file : File :=
  {| File_proto := proto; File_Messages := [demo.Owner; demo.Shelf; demo.Book];
     Services := [] |}.

End load_demo.

(* ===================================================================== *)
(** * Properties                                                          *)
(* ===================================================================== *)

(** ** Regular expressions: the matcher decides the language *)

Section regexp_facts.
Import regexp.

Lemma nullable_matches (r : re) : nullable r = true <-> matches r [].
Proof.
  split.
  - induction r; simpl; intros Hn; try discriminate.
    + constructor.
    + apply andb_true_iff in Hn as [H1 H2].
      change (@nil ascii) with (@nil ascii ++ []). constructor; auto.
    + apply orb_true_iff in Hn as [H1 | H2]; [apply m_alt_l | apply m_alt_r]; auto.
    + constructor.
  - intros Hm. remember (@nil ascii) as s eqn:Hs.
    induction Hm; simpl; subst; try discriminate; auto.
    + apply app_eq_nil in Hs as [-> ->]. rewrite IHHm1, IHHm2; auto.
    + rewrite IHHm; auto.
    + rewrite IHHm; auto. apply orb_true_r.
Qed.

Lemma deriv_sound (c : ascii) (r : re) (s : list ascii) :
  matches (deriv c r) s -> matches r (c :: s).
Proof.
  revert s. induction r; simpl; intros s Hm.
  - inversion Hm.
  - inversion Hm.
  - destruct (in_range lo hi c) eqn:Hc; inversion Hm; subst. constructor; auto.
  - destruct (nullable r1) eqn:Hn.
    + inversion Hm as [| | | ? ? ? Hl | ? ? ? Hr | |]; subst.
      * inversion Hl; subst.
        change (c :: s1 ++ s2) with ((c :: s1) ++ s2). constructor; auto.
      * change (c :: s) with ([] ++ c :: s). constructor; auto.
        apply nullable_matches; auto.
    + inversion Hm; subst.
      change (c :: s1 ++ s2) with ((c :: s1) ++ s2). constructor; auto.
  - inversion Hm; subst; [apply m_alt_l | apply m_alt_r]; auto.
  - inversion Hm; subst.
    change (c :: s1 ++ s2) with ((c :: s1) ++ s2). constructor; auto.
Qed.

Lemma deriv_complete (c : ascii) (r : re) (s : list ascii) :
  matches r (c :: s) -> matches (deriv c r) s.
Proof.
  intros Hm. remember (c :: s) as cs eqn:Hcs. revert s Hcs.
  induction Hm; intros t Hcs; simpl; try discriminate.
  - injection Hcs as Hc Ht. subst. rewrite H. constructor.
  - destruct s1 as [| c1 s1'].
    + simpl in Hcs. subst s2.
      assert (Hn : nullable r1 = true) by (apply nullable_matches; auto).
      rewrite Hn. apply m_alt_r. auto.
    + simpl in Hcs. injection Hcs as Hc Ht. subst.
      destruct (nullable r1).
      * apply m_alt_l. constructor; auto.
      * constructor; auto.
  - apply m_alt_l; auto.
  - apply m_alt_r; auto.
  - destruct s1 as [| c1 s1'].
    + simpl in Hcs. auto.
    + simpl in Hcs. injection Hcs as Hc Ht. subst. constructor; auto.
Qed.

Lemma match_list_spec (r : re) (s : list ascii) :
  match_list r s = true <-> matches r s.
Proof.
  revert r. induction s as [| c s IH]; intros r; simpl.
  - apply nullable_matches.
  - rewrite IH. split; [apply deriv_sound | apply deriv_complete].
Qed.

Lemma MatchString_spec (r : re) (s : string) :
  MatchString r s = true <-> matches r (list_ascii_of_string s).
Proof. apply match_list_spec. Qed.

End regexp_facts.

(** ** Role extraction *)

Lemma validateKebabCase_None (field v : string) :
  validateKebabCase field v = None <-> permitted v.
Proof.
  unfold validateKebabCase, permitted.
  destruct (String.eqb_spec v "") as [-> | Hne]; [tauto |].
  destruct (regexp.MatchString kebabCaseRegex v) eqn:Hm; simpl.
  - apply MatchString_spec in Hm. tauto.
  - split; [discriminate |]. intros [He | Hk]; [contradiction |].
    apply MatchString_spec in Hk. congruence.
Qed.

Lemma validateKebabCase_Some (field v : string) :
  ~ permitted v -> validateKebabCase field v = Some (ErrNotKebabCase field v).
Proof.
  intros Hv. destruct (validateKebabCase field v) eqn:Hr.
  - unfold validateKebabCase in Hr.
    destruct (String.eqb v ""); [discriminate |].
    destruct (negb _); congruence.
  - apply validateKebabCase_None in Hr. contradiction.
Qed.

Lemma extractRoleOptions_scopes_None (name : string) (scopes : list string) (i : nat) :
  extractRoleOptions_scopes name i scopes = None <-> Forall permitted scopes.
Proof.
  revert i. induction scopes as [| s rest IH]; intros i; simpl.
  - split; auto.
  - destruct (validateKebabCase _ s) eqn:Hv.
    + split; [discriminate |]. intros Hall. inversion Hall as [| ? ? Hs _]; subst.
      apply (validateKebabCase_None ("scope[" +:+ decimal i +:+ "]")) in Hs. congruence.
    + apply validateKebabCase_None in Hv. rewrite IH. split.
      * intros Hall. constructor; auto.
      * intros Hall. inversion Hall; auto.
Qed.

Lemma extractRoleOptions_scopes_first (name : string) (scopes : list string) (i k : nat)
    (s : string) :
  scopes !! k = Some s ->
  ~ permitted s ->
  (forall j s', j < k -> scopes !! j = Some s' -> permitted s') ->
  extractRoleOptions_scopes name i scopes
  = Some (ErrInvalidRole name (ErrNotKebabCase ("scope[" +:+ decimal (i + k) +:+ "]") s)).
Proof.
  revert i k. induction scopes as [| s0 rest IH]; intros i k Hk Hbad Hbefore.
  - discriminate.
  - destruct k as [| k']; simpl in *.
    + injection Hk as ->. rewrite Nat.add_0_r.
      rewrite validateKebabCase_Some by assumption. reflexivity.
    + assert (Hs0 : permitted s0) by (apply (Hbefore 0); [lia | reflexivity]).
      apply (validateKebabCase_None ("scope[" +:+ decimal i +:+ "]")) in Hs0.
      rewrite Hs0.
      replace (i + S k') with (S i + k') by lia.
      apply IH; auto.
      intros j s' Hj Hl. apply (Hbefore (S j)); [lia | exact Hl].
Qed.

(** C9. A method without a role annotation yields no role and no error.
    With an annotation, [extractRoleOptions] succeeds (returning the role)
    exactly when resource, verb and every scope are empty or in the
    language of [^[a-z][a-z0-9]*(-[a-z0-9]+)*$]; otherwise it fails on the
    first violating value, in the order resource, verb, scope[0],
    scope[1], ..., with an error that carries the name of the field, the
    value, and the name of the method. *)
Theorem extractRoleOptions_kebab_case (md : MethodDescriptorProto) :
  (role_annotation md = None -> extractRoleOptions md = Ok None) /\
  (forall role, role_annotation md = Some role ->
     ((exists res, extractRoleOptions md = Ok res) <->
        permitted (api_Resource role) /\ permitted (api_Verb role)
        /\ Forall permitted (api_Scope role)) /\
     (permitted (api_Resource role) -> permitted (api_Verb role) ->
        Forall permitted (api_Scope role) ->
        extractRoleOptions md = Ok (Some role)) /\
     (~ permitted (api_Resource role) ->
        extractRoleOptions md
        = Err (ErrInvalidRole (md_Name md)
                 (ErrNotKebabCase "resource" (api_Resource role)))) /\
     (permitted (api_Resource role) -> ~ permitted (api_Verb role) ->
        extractRoleOptions md
        = Err (ErrInvalidRole (md_Name md) (ErrNotKebabCase "verb" (api_Verb role)))) /\
     (forall i scope,
        permitted (api_Resource role) -> permitted (api_Verb role) ->
        api_Scope role !! i = Some scope -> ~ permitted scope ->
        (forall j s', j < i -> api_Scope role !! j = Some s' -> permitted s') ->
        extractRoleOptions md
        = Err (ErrInvalidRole (md_Name md)
                 (ErrNotKebabCase ("scope[" +:+ decimal i +:+ "]") scope)))).
Proof.
  unfold role_annotation, extractRoleOptions. split.
  - destruct (md_Options md) as [o |]; [| reflexivity].
    intros ->. reflexivity.
  - intros role Hrole.
    destruct (md_Options md) as [o |]; [| discriminate].
    rewrite Hrole.
    assert (Hok : permitted (api_Resource role) -> permitted (api_Verb role) ->
                  Forall permitted (api_Scope role) ->
                  match validateKebabCase "resource" (api_Resource role) with
                  | Some err => Err (ErrInvalidRole (md_Name md) err)
                  | None =>
                      match validateKebabCase "verb" (api_Verb role) with
                      | Some err => Err (ErrInvalidRole (md_Name md) err)
                      | None =>
                          match extractRoleOptions_scopes (md_Name md) 0 (api_Scope role) with
                          | Some err => Err err
                          | None => Ok (Some role)
                          end
                      end
                  end = Ok (Some role)).
    { intros Hr Hv Hs.
      apply (validateKebabCase_None "resource") in Hr. rewrite Hr.
      apply (validateKebabCase_None "verb") in Hv. rewrite Hv.
      apply (extractRoleOptions_scopes_None (md_Name md) _ 0) in Hs. rewrite Hs.
      reflexivity. }
    split; [| split; [exact Hok | split; [| split]]].
    + split.
      * intros [res Hres].
        destruct (validateKebabCase "resource" (api_Resource role)) eqn:Hr; [discriminate |].
        destruct (validateKebabCase "verb" (api_Verb role)) eqn:Hv; [discriminate |].
        destruct (extractRoleOptions_scopes (md_Name md) 0 (api_Scope role)) eqn:Hs;
          [discriminate |].
        apply validateKebabCase_None in Hr, Hv.
        apply extractRoleOptions_scopes_None in Hs. auto.
      * intros (Hr & Hv & Hs). eexists. apply Hok; assumption.
    + intros Hr. rewrite validateKebabCase_Some by assumption. reflexivity.
    + intros Hr Hv.
      apply (validateKebabCase_None "resource") in Hr. rewrite Hr.
      rewrite validateKebabCase_Some by assumption. reflexivity.
    + intros i scope Hr Hv Hi Hbad Hbefore.
      apply (validateKebabCase_None "resource") in Hr. rewrite Hr.
      apply (validateKebabCase_None "verb") in Hv. rewrite Hv.
      rewrite (extractRoleOptions_scopes_first (md_Name md) _ 0 i scope Hi Hbad Hbefore).
      reflexivity.
Qed.

Ltac kebab_yes :=
  right; apply MatchString_spec; vm_compute; reflexivity.
Ltac kebab_no :=
  let H := fresh in
  intros [H | H]; [discriminate H | apply MatchString_spec in H; vm_compute in H; discriminate H].

Example kebab_samples :
  map (regexp.MatchString kebabCaseRegex)
      ["read"; "user-profile"; "a1-2b"; "Read"; "a--b"; "a-"; "-a"; "1a"; "a_b"; ""]
  = [true; true; true; false; false; false; false; false; false; false].
Proof. vm_compute. reflexivity. Qed.

Lemma extractRoleOptions_kebab_case_witness :
  extractRoleOptions md_w
  = Err (ErrInvalidRole "GetUser" (ErrNotKebabCase "scope[1]" "Bad_Scope")).
Proof.
  destruct (extractRoleOptions_kebab_case md_w) as [_ Hrole].
  destruct (Hrole role_w eq_refl) as (_ & _ & _ & _ & Hscope).
  apply (Hscope 1 "Bad_Scope").
  - kebab_yes.
  - kebab_yes.
  - reflexivity.
  - kebab_no.
  - intros j s' Hj Hl. destruct j as [| j]; [| lia].
    injection Hl as <-. kebab_yes.
Defined.

(** ** Field paths *)

Lemma strings_Split_dotless (s : string) :
  dotless s = true -> strings_Split s "." = [s].
Proof.
  induction s as [| c s IH]; simpl; [reflexivity |].
  intros Hd. apply andb_true_iff in Hd as [Hc Hs].
  apply negb_true_iff in Hc. rewrite Hc, (IH Hs). reflexivity.
Qed.

Lemma strings_Split_app (a b : string) :
  dotless a = true ->
  strings_Split (a +:+ "." +:+ b) "." = a :: strings_Split b ".".
Proof.
  induction a as [| c a IH]; simpl; [reflexivity |].
  intros Hd. apply andb_true_iff in Hd as [Hc Ha].
  apply negb_true_iff in Hc. rewrite Hc. simpl in IH. rewrite (IH Ha). reflexivity.
Qed.

Lemma append_dot_nonempty (a b : string) :
  String.eqb (a +:+ "." +:+ b) "" = false.
Proof. destruct a; reflexivity. Qed.

Section field_path.
Context `{Externals}.

(** What the loop does at index 0. *)
Lemma resolveFieldPath_loop_first (r : Registry) (root : Message) (path : string)
    (isPathParam : bool) (c : string) (cs : list string) (msg : Message) :
  resolveFieldPath_loop r root path isPathParam (c :: cs) 0 msg []
  = match lookupField msg c with
    | None => Err (ErrNoField path (Message_Name root))
    | Some f =>
        if isPathParam && Field_Proto3Optional f
        then Err (ErrOptionalField (Field_Name f) path)
        else resolveFieldPath_loop r root path isPathParam cs 1 msg [component c f]
    end.
Proof. reflexivity. Qed.

(** What the loop does at index [i > 0] when the previous field steps
    into [next]. *)
Lemma resolveFieldPath_loop_step (r : Registry) (root : Message) (path : string)
    (isPathParam : bool) (c : string) (cs : list string) (i : nat) (msg next : Message)
    (result : FieldPath) (prev : FieldPathComponent) :
  result !! i = Some prev ->
  steps_into r msg (Comp_Target prev) next ->
  resolveFieldPath_loop r root path isPathParam (c :: cs) (S i) msg result
  = match lookupField next c with
    | None => Err (ErrNoField path (Message_Name root))
    | Some f =>
        if isPathParam && Field_Proto3Optional f
        then Err (ErrOptionalField (Field_Name f) path)
        else resolveFieldPath_loop r root path isPathParam cs (S (S i)) next
               (result ++ [component c f])
    end.
Proof.
  intros Hprev [Hagg Hnext]. simpl.
  replace (i - 0) with i by lia. rewrite Hprev.
  unfold aggregate in Hagg.
  destruct (Field_Type (Comp_Target prev)); try discriminate;
    rewrite Hnext; reflexivity.
Qed.

(** C5. For a path [a.b.c] (components without dots) resolved against
    [M]: when [a] is a field of [M] whose message type is [Ma], [b] a field
    of [Ma] whose message type is [Mb], and [c] a field of [Mb] (none of
    them optional when the path is a path parameter), the result is the
    chain of these three fields in this order; and when the component
    looked up in [M], in [Ma] or in [Mb] is absent there, the result is the
    error that carries the whole path and the name of [M]. *)
Theorem resolveFieldPath_chain (r : Registry) (M : Message) (a b c : string)
    (isPathParam : bool) :
  dotless a = true -> dotless b = true -> dotless c = true ->
  let p := a +:+ "." +:+ b +:+ "." +:+ c in
  (forall fa fb fc Ma Mb,
     lookupField M a = Some fa -> steps_into r M fa Ma ->
     lookupField Ma b = Some fb -> steps_into r Ma fb Mb ->
     lookupField Mb c = Some fc ->
     (isPathParam = true ->
      Field_Proto3Optional fa = false /\ Field_Proto3Optional fb = false
      /\ Field_Proto3Optional fc = false) ->
     resolveFieldPath r M p isPathParam
     = Ok [component a fa; component b fb; component c fc]) /\
  (lookupField M a = None ->
     resolveFieldPath r M p isPathParam = Err (ErrNoField p (Message_Name M))) /\
  (forall fa Ma,
     lookupField M a = Some fa -> steps_into r M fa Ma ->
     (isPathParam = true -> Field_Proto3Optional fa = false) ->
     lookupField Ma b = None ->
     resolveFieldPath r M p isPathParam = Err (ErrNoField p (Message_Name M))) /\
  (forall fa fb Ma Mb,
     lookupField M a = Some fa -> steps_into r M fa Ma ->
     lookupField Ma b = Some fb -> steps_into r Ma fb Mb ->
     (isPathParam = true ->
      Field_Proto3Optional fa = false /\ Field_Proto3Optional fb = false) ->
     lookupField Mb c = None ->
     resolveFieldPath r M p isPathParam = Err (ErrNoField p (Message_Name M))).
Proof.
  intros Ha Hb Hc p.
  assert (Hsplit : strings_Split p "." = [a; b; c]).
  { unfold p. rewrite (strings_Split_app a) by assumption.
    rewrite (strings_Split_app b) by assumption.
    rewrite strings_Split_dotless by assumption. reflexivity. }
  assert (Hne : String.eqb p "" = false) by apply append_dot_nonempty.
  assert (Hflag : forall f, (isPathParam = true -> Field_Proto3Optional f = false) ->
                            isPathParam && Field_Proto3Optional f = false).
  { intros f Hf. destruct isPathParam; [rewrite Hf |]; reflexivity. }
  unfold resolveFieldPath. rewrite Hne, Hsplit.
  repeat split.
  - intros fa fb fc Ma Mb Hfa Hsa Hfb Hsb Hfc Hopt.
    rewrite resolveFieldPath_loop_first, Hfa.
    rewrite Hflag by (intros Hp; apply Hopt, Hp).
    rewrite (resolveFieldPath_loop_step _ _ _ _ _ _ 0 _ Ma _ (component a fa))
      by (auto || reflexivity).
    rewrite Hfb. rewrite Hflag by (intros Hp; apply Hopt, Hp).
    rewrite (resolveFieldPath_loop_step _ _ _ _ _ _ 1 _ Mb _ (component b fb))
      by (auto || reflexivity).
    rewrite Hfc. rewrite Hflag by (intros Hp; apply Hopt, Hp).
    reflexivity.
  - intros Hfa.
    rewrite resolveFieldPath_loop_first, Hfa.
    reflexivity.
  - intros fa Ma Hfa Hsa Hopt Hfb.
    rewrite resolveFieldPath_loop_first, Hfa.
    rewrite Hflag by assumption.
    rewrite (resolveFieldPath_loop_step _ _ _ _ _ _ 0 _ Ma _ (component a fa))
      by (auto || reflexivity).
    rewrite Hfb. reflexivity.
  - intros fa fb Ma Mb Hfa Hsa Hfb Hsb Hopt Hfc.
    rewrite resolveFieldPath_loop_first, Hfa.
    rewrite Hflag by (intros Hp; apply Hopt, Hp).
    rewrite (resolveFieldPath_loop_step _ _ _ _ _ _ 0 _ Ma _ (component a fa))
      by (auto || reflexivity).
    rewrite Hfb. rewrite Hflag by (intros Hp; apply Hopt, Hp).
    rewrite (resolveFieldPath_loop_step _ _ _ _ _ _ 1 _ Mb _ (component b fb))
      by (auto || reflexivity).
    rewrite Hfc. reflexivity.
Qed.

(** In path-parameter mode every resolved field is a required one. *)
Lemma resolveFieldPath_loop_required (r : Registry) (root : Message) (path : string)
    (cs : list string) (i : nat) (msg : Message) (result fields : FieldPath) :
  resolveFieldPath_loop r root path true cs i msg result = Ok fields ->
  Forall required result -> Forall required fields.
Proof.
  revert i msg result. induction cs as [| c cs IH]; intros i msg result Hloop Hres.
  - simpl in Hloop. injection Hloop as <-. exact Hres.
  - simpl in Hloop.
    match type of Hloop with (?X ≫= _) = _ => destruct X as [msg' | e |] end;
      simpl in Hloop; try discriminate.
    destruct (lookupField msg' c) as [f |] eqn:Hf; [| discriminate].
    destruct (Field_Proto3Optional f) eqn:Hopt; [discriminate |].
    apply IH in Hloop; [exact Hloop |].
    apply Forall_app. split; [exact Hres |].
    constructor; [exact Hopt | constructor].
Qed.

(** The two modes differ only in the rejection of optional fields. *)
Lemma resolveFieldPath_loop_modes (r : Registry) (root : Message) (path : string)
    (cs : list string) (i : nat) (msg : Message) (result fields : FieldPath) :
  resolveFieldPath_loop r root path false cs i msg result = Ok fields ->
  exists added,
    fields = result ++ added /\
    (Forall required added ->
       resolveFieldPath_loop r root path true cs i msg result = Ok fields) /\
    (~ Forall required added ->
       exists name,
         resolveFieldPath_loop r root path true cs i msg result
         = Err (ErrOptionalField name path)).
Proof.
  revert i msg result. induction cs as [| c cs IH]; intros i msg result Hloop.
  - simpl in Hloop. injection Hloop as <-. exists []. rewrite app_nil_r.
    split; [reflexivity |]. split; [reflexivity |].
    intros Hn. exfalso. apply Hn. constructor.
  - simpl in *.
    match type of Hloop with (?X ≫= _) = _ => destruct X as [msg' | e |] end;
      simpl in *; try discriminate.
    destruct (lookupField msg' c) as [f |] eqn:Hf; [| discriminate].
    destruct (IH _ _ _ Hloop) as (added & -> & Hyes & Hno).
    exists (component c f :: added). split; [rewrite <- app_assoc; reflexivity |].
    destruct (Field_Proto3Optional f) eqn:Hopt.
    + split.
      * intros Hall. inversion Hall as [| ? ? Hc _]; subst.
        unfold required in Hc. simpl in Hc. congruence.
      * intros _. eexists. reflexivity.
    + split.
      * intros Hall. inversion Hall; subst. auto.
      * intros Hn. apply Hno. intros Hall. apply Hn. constructor; [exact Hopt | exact Hall].
Qed.

Lemma type_switch {A : Type} (t : FieldDescriptorProto_Type) (x y : A) :
  match t with
  | TYPE_MESSAGE | TYPE_GROUP => x
  | _ => y
  end = if aggregate t then x else y.
Proof. destruct t; reflexivity. Qed.

(** [newParam], with the terminal field read by [last]. *)
Lemma newParam_unfold (r : Registry) (meth : MethodRef) (path : string) :
  newParam r meth path
  = match resolveFieldPath r (RequestType meth) path true with
    | Ok fields =>
        match last fields with
        | None => Err (ErrInvalidFieldAccessList path)
        | Some c =>
            let built := Ok {| Param_FieldPath := fields; Param_Method := meth;
                               Param_Target := Comp_Target c |} in
            if aggregate (Field_Type (Comp_Target c)) then
              match Field_TypeName (Comp_Target c) with
              | None => Panic
              | Some typeName =>
                  if IsWellKnownType typeName then built
                  else Err (ErrMessageTypePathParam
                              (Service_GetName (Method_Service meth))
                              (Method_GetName meth) path)
              end
            else built
        end
    | Err e => Err e
    | Panic => Panic
    end.
Proof.
  unfold newParam.
  destruct (resolveFieldPath r (RequestType meth) path true) as [fields | e |];
    simpl; try reflexivity.
  rewrite last_lookup.
  destruct fields as [| c0 fields']; [reflexivity |].
  cbn [length Nat.eqb Nat.pred].
  replace (S (length fields') - 1) with (length fields') by lia.
  destruct (lookup_lt_is_Some_2 (c0 :: fields') (length fields')) as [c Hc];
    [simpl; lia |].
  rewrite Hc.
  rewrite type_switch.
  destruct (aggregate (Field_Type (Comp_Target c))); [| reflexivity].
  destruct (Field_TypeName (Comp_Target c)) as [typeName |]; [| reflexivity].
  destruct (IsWellKnownType typeName); reflexivity.
Qed.

Lemma resolveFieldPath_required (r : Registry) (msg : Message) (path : string)
    (fields : FieldPath) :
  resolveFieldPath r msg path true = Ok fields -> Forall required fields.
Proof.
  unfold resolveFieldPath. destruct (String.eqb path "").
  - intros [= <-]. constructor.
  - intros Hloop. eapply resolveFieldPath_loop_required; [exact Hloop | constructor].
Qed.

(** C6. A [Parameter] that [newParam] builds has a terminal field (the
    last field of the chain resolved for the capture group) that is not
    optional and, when of message or group type, is of a well-known type.
    Construction fails with an error when the capture group resolves to an
    optional field, and when it resolves to a message-typed field whose
    type is not well-known; it succeeds for a field of a well-known type. *)
Theorem newParam_terminal_field (r : Registry) (meth : MethodRef) (path : string) :
  (forall p, newParam r meth path = Ok p ->
     Field_Proto3Optional (Param_Target p) = false /\
     (aggregate (Field_Type (Param_Target p)) = true ->
        exists typeName, Field_TypeName (Param_Target p) = Some typeName
                         /\ IsWellKnownType typeName = true) /\
     (exists c, last (Param_FieldPath p) = Some c /\ Comp_Target c = Param_Target p) /\
     resolveFieldPath r (RequestType meth) path true = Ok (Param_FieldPath p)) /\
  (forall fields c,
     resolveFieldPath r (RequestType meth) path false = Ok fields ->
     last fields = Some c -> Field_Proto3Optional (Comp_Target c) = true ->
     exists name, newParam r meth path = Err (ErrOptionalField name path)) /\
  (forall fields c typeName,
     resolveFieldPath r (RequestType meth) path true = Ok fields ->
     last fields = Some c ->
     aggregate (Field_Type (Comp_Target c)) = true ->
     Field_TypeName (Comp_Target c) = Some typeName ->
     newParam r meth path
     = if IsWellKnownType typeName
       then Ok {| Param_FieldPath := fields; Param_Method := meth;
                  Param_Target := Comp_Target c |}
       else Err (ErrMessageTypePathParam (Service_GetName (Method_Service meth))
                   (Method_GetName meth) path)).
Proof.
  split; [| split].
  - intros p Hp. rewrite newParam_unfold in Hp.
    destruct (resolveFieldPath r (RequestType meth) path true) as [fields | e |] eqn:Hres;
      try discriminate.
    destruct (last fields) as [c |] eqn:Hlast; [| discriminate].
    assert (Hreq : required c).
    { apply resolveFieldPath_required in Hres.
      rewrite Forall_forall in Hres. apply Hres.
      apply last_Some_elem_of. exact Hlast. }
    cbv zeta in Hp.
    destruct (aggregate (Field_Type (Comp_Target c))) eqn:Hagg.
    + destruct (Field_TypeName (Comp_Target c)) as [typeName |] eqn:Htn; [| discriminate].
      destruct (IsWellKnownType typeName) eqn:Hwk; [| discriminate].
      injection Hp as <-. simpl. repeat split; eauto.
    + injection Hp as <-. simpl. repeat split; eauto.
      intros Habs. congruence.
  - intros fields c Hres Hlast Hopt. rewrite newParam_unfold.
    unfold resolveFieldPath in *.
    destruct (String.eqb path ""); [injection Hres as <-; discriminate |].
    destruct (resolveFieldPath_loop_modes _ _ _ _ _ _ _ _ Hres) as (added & Heq & _ & Hno).
    simpl in Heq. subst added.
    destruct Hno as [name Hname].
    + intros Hall. rewrite Forall_forall in Hall.
      assert (Hc : required c) by (apply Hall, last_Some_elem_of, Hlast).
      unfold required in Hc. congruence.
    + exists name. rewrite Hname. reflexivity.
  - intros fields c typeName Hres Hlast Hagg Htn. rewrite newParam_unfold.
    rewrite Hres, Hlast. cbv zeta. rewrite Hagg, Htn. reflexivity.
Qed.

End field_path.

Lemma resolveFieldPath_chain_witness :
  resolveFieldPath demo.reg demo.Book "shelf.owner.name" true
  = Ok [component "shelf" (demo.nested "shelf" ".demo.Shelf");
        component "owner" (demo.nested "owner" ".demo.Owner");
        component "name" (demo.scalar "name" false)]
  /\ resolveFieldPath demo.reg demo.Book "shelf.owner.age" false
     = Err (ErrNoField "shelf.owner.age" "Book").
Proof.
  split.
  - destruct (resolveFieldPath_chain demo.reg demo.Book "shelf" "owner" "name" true
                eq_refl eq_refl eq_refl) as (Hchain & _).
    apply (Hchain _ _ _ demo.Shelf demo.Owner);
      try (split; vm_compute; reflexivity); try (vm_compute; reflexivity).
    intros _. repeat split.
  - destruct (resolveFieldPath_chain demo.reg demo.Book "shelf" "owner" "age" false
                eq_refl eq_refl eq_refl) as (_ & _ & _ & Hmissing).
    apply (Hmissing (demo.nested "shelf" ".demo.Shelf") (demo.nested "owner" ".demo.Owner")
             demo.Shelf demo.Owner);
      try (split; vm_compute; reflexivity); try (vm_compute; reflexivity).
Defined.

Lemma newParam_terminal_field_witness :
  (exists name, newParam demo.reg demo.getBook "shelf.owner.nick"
                = Err (ErrOptionalField name "shelf.owner.nick"))
  /\ newParam demo.reg demo.getBook "shelf.owner"
     = Err (ErrMessageTypePathParam "Library" "GetBook" "shelf.owner")
  /\ exists fields,
       newParam demo.reg demo.getBook "shelf.owner.since"
       = Ok {| Param_FieldPath := fields; Param_Method := demo.getBook;
               Param_Target := demo.nested "since" ".google.protobuf.Timestamp" |}.
Proof.
  split; [| split].
  - destruct (newParam_terminal_field demo.reg demo.getBook "shelf.owner.nick")
      as (_ & Hopt & _).
    eapply Hopt; [vm_compute; reflexivity | reflexivity | reflexivity].
  - destruct (newParam_terminal_field demo.reg demo.getBook "shelf.owner")
      as (_ & _ & Hagg).
    erewrite Hagg; [| vm_compute; reflexivity | reflexivity | reflexivity | reflexivity].
    reflexivity.
  - destruct (newParam_terminal_field demo.reg demo.getBook "shelf.owner.since")
      as (_ & _ & Hagg).
    eexists.
    erewrite Hagg; [| vm_compute; reflexivity | reflexivity | reflexivity | reflexivity].
    reflexivity.
Defined.

(** ** Binding construction *)

Section bindings.
Context `{Externals}.

Lemma resolveFieldPath_loop_error (r : Registry) (root : Message) (path : string)
    (isPathParam : bool) (cs : list string) (i : nat) (msg : Message)
    (result : FieldPath) (e : error) :
  resolveFieldPath_loop r root path isPathParam cs i msg result = Err e ->
  body_ground e = false.
Proof.
  revert i msg result. induction cs as [| c cs IH]; intros i msg result; simpl.
  - discriminate.
  - destruct (Nat.ltb 0 i).
    + destruct (result !! (i - 1)) as [prev |]; simpl; [| discriminate].
      rewrite type_switch.
      destruct (aggregate (Field_Type (Comp_Target prev))); simpl.
      * destruct (LookupMsg r (Message_FQMN msg) (Field_GetTypeName (Comp_Target prev)))
          as [m | msg']; simpl.
        -- intros [= <-]. reflexivity.
        -- destruct (lookupField msg' c) as [f |]; [| intros [= <-]; reflexivity].
           destruct (isPathParam && Field_Proto3Optional f);
             [intros [= <-]; reflexivity | apply IH].
      * intros [= <-]. reflexivity.
    + simpl. destruct (lookupField msg c) as [f |]; [| intros [= <-]; reflexivity].
      destruct (isPathParam && Field_Proto3Optional f);
        [intros [= <-]; reflexivity | apply IH].
Qed.

Lemma resolveFieldPath_error (r : Registry) (msg : Message) (path : string)
    (isPathParam : bool) (e : error) :
  resolveFieldPath r msg path isPathParam = Err e -> body_ground e = false.
Proof.
  unfold resolveFieldPath. destruct (String.eqb path ""); [discriminate |].
  apply resolveFieldPath_loop_error.
Qed.

Lemma newParam_error (r : Registry) (meth : MethodRef) (path : string) (e : error) :
  newParam r meth path = Err e -> body_ground e = false.
Proof.
  rewrite newParam_unfold.
  destruct (resolveFieldPath r (RequestType meth) path true) as [fields | e' |] eqn:Hres;
    try discriminate.
  - destruct (last fields) as [c |]; [| intros [= <-]; reflexivity].
    cbv zeta. destruct (aggregate _); [| discriminate].
    destruct (Field_TypeName _) as [typeName |]; [| discriminate].
    destruct (IsWellKnownType typeName); [discriminate | intros [= <-]; reflexivity].
  - intros [= <-]. eapply resolveFieldPath_error. exact Hres.
Qed.

Lemma newBinding_params_error (r : Registry) (meth : MethodRef) (fields : list string)
    (acc : list Parameter_) (e : error) :
  newBinding_params r meth fields acc = Err e -> body_ground e = false.
Proof.
  revert acc. induction fields as [| f rest IH]; intros acc; simpl; [discriminate |].
  destruct (newParam r meth f) as [p | e' |] eqn:Hp; simpl; try discriminate.
  - apply IH.
  - intros [= <-]. eapply newParam_error. exact Hp.
Qed.

Lemma newBody_error (r : Registry) (meth : MethodRef) (path : string) (e : error) :
  newBody r meth path = Err e -> body_ground e = false.
Proof.
  unfold newBody. destruct (String.eqb path ""); [discriminate |].
  destruct (String.eqb path "*"); [discriminate |].
  destruct (resolveFieldPath r (RequestType meth) path false) as [fs | e' |] eqn:Hres;
    simpl; try discriminate.
  intros [= <-]. eapply resolveFieldPath_error. exact Hres.
Qed.

Lemma newResponse_error (r : Registry) (meth : MethodRef) (path : string) (e : error) :
  newResponse r meth path = Err e -> body_ground e = false.
Proof.
  unfold newResponse. destruct (String.eqb path "" || String.eqb path "*"); [discriminate |].
  destruct (resolveFieldPath r (ResponseType meth) path false) as [fs | e' |] eqn:Hres;
    simpl; try discriminate.
  intros [= <-]. eapply resolveFieldPath_error. exact Hres.
Qed.

(** What follows the [switch] never rejects a rule on body grounds. *)
Lemma newBinding_build_error (r : Registry) (md : MethodDescriptorProto) (meth : MethodRef)
    (opts : HttpRule) (idx : nat) (httpMethod pathTemplate : string) (e : error) :
  newBinding_build r md meth opts idx httpMethod pathTemplate = Err e ->
  body_ground e = false.
Proof.
  unfold newBinding_build.
  destruct (httprule_Parse pathTemplate) as [msg | parsed]; simpl.
  - intros [= <-]. reflexivity.
  - destruct (md_ClientStreaming md && _); [intros [= <-]; reflexivity |].
    destruct (newBinding_params r meth (Tmpl_Fields (Compile parsed)) []) as [ps | e' |] eqn:Hps;
      simpl; try discriminate.
    + destruct (newBody r meth (Body opts)) as [body | e' |] eqn:Hb; simpl; try discriminate.
      * destruct (newResponse r meth (ResponseBody opts)) as [resp | e' |] eqn:Hr;
          simpl; try discriminate.
        intros [= <-]. eapply newResponse_error. exact Hr.
      * intros [= <-]. eapply newBody_error. exact Hb.
    + intros [= <-]. eapply newBinding_params_error. exact Hps.
Qed.

Lemma newBinding_continue_error (r : Registry) (md : MethodDescriptorProto)
    (meth : MethodRef) (opts : HttpRule) (idx : nat) (httpMethod pathTemplate : string)
    (e : error) :
  newBinding_continue r md meth opts idx httpMethod pathTemplate = Err e ->
  body_ground e = false.
Proof.
  unfold newBinding_continue.
  destruct (newBinding_build r md meth opts idx httpMethod pathTemplate) as [b | e' |] eqn:Hb;
    simpl; try discriminate.
  intros [= <-]. eapply newBinding_build_error. exact Hb.
Qed.

(** C7. For a rule whose GET pattern is selected, [newBinding] returns the
    must-not-set-request-body error exactly when the body of the rule is
    not the empty string; with an empty body the outcome is that of the
    rest of the construction, which never rejects on body grounds. *)
Theorem newBinding_GET_body (r : Registry) (md : MethodDescriptorProto) (meth : MethodRef)
    (opts : HttpRule) (idx : nat) :
  GetGet opts <> "" ->
  (Body opts <> "" ->
     newBinding r md meth opts idx = Err (ErrGetWithBody (md_Name md))) /\
  (Body opts = "" ->
     newBinding r md meth opts idx
     = newBinding_continue r md meth opts idx "GET" (GetGet opts)
     /\ forall e, newBinding r md meth opts idx = Err e -> body_ground e = false) /\
  ((exists e, newBinding r md meth opts idx = Err e /\ body_ground e = true)
   <-> Body opts <> "").
Proof.
  intros Hget.
  assert (Hyes : Body opts <> "" ->
                 newBinding r md meth opts idx = Err (ErrGetWithBody (md_Name md))).
  { intros Hbody. unfold newBinding, newBinding_pattern.
    destruct (String.eqb_spec (GetGet opts) ""); [contradiction |].
    destruct (String.eqb_spec (Body opts) ""); [contradiction |]. reflexivity. }
  assert (Hno : Body opts = "" ->
                newBinding r md meth opts idx
                = newBinding_continue r md meth opts idx "GET" (GetGet opts)).
  { intros Hbody. unfold newBinding, newBinding_pattern.
    destruct (String.eqb_spec (GetGet opts) ""); [contradiction |].
    rewrite Hbody. reflexivity. }
  split; [exact Hyes | split].
  - intros Hbody. split; [exact (Hno Hbody) |].
    intros e. rewrite (Hno Hbody). apply newBinding_continue_error.
  - split.
    + intros (e & He & Hground) Hbody.
      rewrite (Hno Hbody) in He. apply newBinding_continue_error in He. congruence.
    + intros Hbody. eexists. split; [exact (Hyes Hbody) | reflexivity].
Qed.

(** C8. For a rule whose DELETE pattern is selected and whose body is not
    the empty string, [newBinding] returns the must-not-set-request-body
    error when [allowDeleteBody] is off; when it is on, the outcome is that
    of the rest of the construction, which never rejects on body grounds. *)
Theorem newBinding_DELETE_body (r : Registry) (md : MethodDescriptorProto)
    (meth : MethodRef) (opts : HttpRule) (idx : nat) (path : string) :
  Pattern opts = Some (HttpRule_Delete path) -> path <> "" -> Body opts <> "" ->
  (allowDeleteBody r = false ->
     newBinding r md meth opts idx = Err (ErrDeleteWithBody (md_Name md))) /\
  (allowDeleteBody r = true ->
     newBinding r md meth opts idx
     = newBinding_continue r md meth opts idx "DELETE" path
     /\ forall e, newBinding r md meth opts idx = Err e -> body_ground e = false).
Proof.
  intros Hpat Hpath Hbody.
  assert (Hsel : newBinding_pattern r md opts
                 = if allowDeleteBody r then Ok (Some ("DELETE", path))
                   else Err (ErrDeleteWithBody (md_Name md))).
  { unfold newBinding_pattern, GetGet, GetPut, GetPost, GetDelete. rewrite Hpat. simpl.
    destruct (String.eqb_spec path ""); [contradiction |].
    destruct (String.eqb_spec (Body opts) ""); [contradiction |].
    destruct (allowDeleteBody r); reflexivity. }
  split; intros Hflag.
  - unfold newBinding. rewrite Hsel, Hflag. reflexivity.
  - assert (Heq : newBinding r md meth opts idx
                  = newBinding_continue r md meth opts idx "DELETE" path).
    { unfold newBinding. rewrite Hsel, Hflag. reflexivity. }
    split; [exact Heq |]. intros e. rewrite Heq. apply newBinding_continue_error.
Qed.

End bindings.

(** ** The default rule *)

Section default_rule.
Context `{Externals}.

Lemma extractAPIOptions_inline (md : MethodDescriptorProto) :
  extractAPIOptions md = Ok (inline_rule md).
Proof.
  unfold extractAPIOptions, inline_rule.
  destruct (md_Options md) as [o |]; [| reflexivity].
  destruct (E_Http o); reflexivity.
Qed.

Lemma defaultAPIOptions_rule (svc : ServiceRef) (md : MethodDescriptorProto) :
  defaultAPIOptions svc md
  = Ok {| Pattern := Some (HttpRule_Post (default_path svc md)); Body := "*";
          ResponseBody := ""; AdditionalBindings := [] |}.
Proof. reflexivity. Qed.

(** [newBinding] on the default rule. *)
Lemma newBinding_default (r : Registry) (svc : ServiceRef) (md : MethodDescriptorProto)
    (meth : MethodRef) (idx : nat) :
  newBinding r md meth
    {| Pattern := Some (HttpRule_Post (default_path svc md)); Body := "*";
       ResponseBody := ""; AdditionalBindings := [] |} idx
  = match httprule_Parse (default_path svc md) with
    | inl msg => Err (ErrParse msg)
    | inr parsed =>
        if md_ClientStreaming md && Nat.ltb 0 (length (Tmpl_Fields (Compile parsed)))
        then Err ErrClientStreamingPathParam
        else
          params ← newBinding_params r meth (Tmpl_Fields (Compile parsed)) [];
          Ok (Some {| Binding_Method := meth;
                      Binding_Index := idx;
                      PathTmpl := Compile parsed;
                      HTTPMethod := "POST";
                      PathParams := params;
                      Binding_Body := Some {| Body_FieldPath := [] |};
                      Binding_ResponseBody := None |})
    end.
Proof.
  unfold newBinding, newBinding_pattern, newBinding_build, GetGet, GetPut, GetPost.
  cbn [Pattern Body ResponseBody String.eqb negb default_path].
  change (String.eqb (default_path svc md) "") with false.
  cbn [negb mbind outcome_bind].
  destruct (httprule_Parse (default_path svc md)) as [msg | parsed]; [reflexivity |].
  cbn [lift mbind outcome_bind].
  destruct (md_ClientStreaming md && _); [reflexivity |].
  destruct (newBinding_params r meth (Tmpl_Fields (Compile parsed)) []); reflexivity.
Qed.

(** C1. For a method with no external override and no inline rule, with
    default generation on: whenever the resolution of the method
    succeeds, the method has exactly one binding, for verb POST, whose
    template is the compiled [/<service-fqn>/<method>] and whose body is
    the whole request message; and the resolution does succeed when the
    role annotation is accepted, the request and response types resolve
    and the path compiles to a template without capture groups. *)
Theorem loadServices_method_default (r : Registry) (svc : ServiceRef)
    (md : MethodDescriptorProto) :
  inline_rule md = None ->
  LookupExternalHTTPRules r (Method_FQMN svc md) = [] ->
  generateUnboundMethods r = true ->
  (forall meth, loadServices_method r svc md = Ok meth ->
     exists b, Bindings meth = [Some b] /\ default_binding svc md b) /\
  (forall role requestType responseType parsed,
     extractRoleOptions md = Ok role ->
     LookupMsg r (fd_Package (Service_File svc)) (md_InputType md) = inr requestType ->
     LookupMsg r (fd_Package (Service_File svc)) (md_OutputType md) = inr responseType ->
     httprule_Parse (default_path svc md) = inr parsed ->
     Tmpl_Fields (Compile parsed) = [] ->
     exists meth b,
       loadServices_method r svc md = Ok meth /\
       Bindings meth = [Some b] /\ default_binding svc md b /\ PathParams b = []).
Proof.
  intros Hinline Hext Hgen.
  assert (Hunfold : loadServices_method r svc md
                    = role ← extractRoleOptions md;
                      newMethod r svc md
                        [{| Pattern := Some (HttpRule_Post (default_path svc md)); Body := "*";
                            ResponseBody := ""; AdditionalBindings := [] |}] role).
  { unfold loadServices_method. rewrite extractAPIOptions_inline, Hinline, Hext, Hgen.
    reflexivity. }
  rewrite Hunfold. split.
  - intros meth.
    destruct (extractRoleOptions md) as [role | e |]; simpl; try discriminate.
    unfold newMethod.
    destruct (LookupMsg r (fd_Package (Service_File svc)) (md_InputType md))
      as [msg | requestType]; simpl; try discriminate.
    destruct (LookupMsg r (fd_Package (Service_File svc)) (md_OutputType md))
      as [msg | responseType]; simpl; try discriminate.
    unfold applyOpts. cbn [Bindings length]. rewrite newBinding_default.
    destruct (httprule_Parse (default_path svc md)) as [msg | parsed] eqn:Hparse;
      simpl; try discriminate.
    destruct (md_ClientStreaming md && _); simpl; try discriminate.
    destruct (newBinding_params r _ (Tmpl_Fields (Compile parsed)) []) as [ps | e |];
      simpl; try discriminate.
    intros [= <-]. eexists. split; [reflexivity |].
    unfold default_binding. simpl. repeat split; eauto.
  - intros role requestType responseType parsed Hrole Hreq Hresp Hparse Hfields.
    rewrite Hrole. simpl. unfold newMethod. rewrite Hreq, Hresp. simpl.
    unfold applyOpts. cbn [Bindings length]. rewrite newBinding_default.
    rewrite Hparse, Hfields. simpl. rewrite andb_false_r. simpl.
    eexists. eexists. split; [reflexivity |].
    split; [reflexivity |].
    unfold default_binding. simpl. repeat split; eauto.
Qed.

End default_rule.

Lemma loadServices_method_default_witness :
  exists meth b,
    loadServices_method demo.reg demo.Library demo.GetBook = Ok meth /\
    Bindings meth = [Some b] /\
    default_binding demo.Library demo.GetBook b /\ PathParams b = [].
Proof.
  eapply (proj2 (loadServices_method_default demo.reg demo.Library demo.GetBook
                   eq_refl eq_refl eq_refl)).
  - reflexivity.
  - vm_compute. reflexivity.
  - vm_compute. reflexivity.
  - vm_compute. reflexivity.
  - reflexivity.
Defined.

Example default_path_demo :
  default_path demo.Library demo.GetBook = "/demo.Library/GetBook".
Proof. reflexivity. Qed.

(** ** Rules without a pattern *)

Section without_pattern.
Context `{Externals}.

Lemma newBinding_without_pattern (r : Registry) (md : MethodDescriptorProto)
    (meth : MethodRef) (opts : HttpRule) (idx : nat) :
  Pattern opts = None -> newBinding r md meth opts idx = Ok None.
Proof.
  intros Hpat.
  unfold newBinding, newBinding_pattern, GetGet, GetPut, GetPost, GetDelete, GetPatch,
    GetCustom.
  rewrite Hpat. reflexivity.
Qed.

(** The primary rule: nothing is appended. *)
Lemma applyOpts_primary_without_pattern (r : Registry) (svc : ServiceRef)
    (md : MethodDescriptorProto) (meth : Method) (opts : HttpRule) :
  Pattern opts = None ->
  applyOpts r svc md meth opts
  = applyOpts_additional r svc md meth (AdditionalBindings opts).
Proof.
  intros Hpat. unfold applyOpts.
  rewrite newBinding_without_pattern by assumption. reflexivity.
Qed.

(** An additional binding: the nil that [newBinding] returned is appended. *)
Lemma applyOpts_additional_without_pattern (r : Registry) (svc : ServiceRef)
    (md : MethodDescriptorProto) (meth : Method) (additional : HttpRule)
    (rest : list HttpRule) :
  Pattern additional = None -> AdditionalBindings additional = [] ->
  applyOpts_additional r svc md meth (additional :: rest)
  = applyOpts_additional r svc md (append_binding meth None) rest.
Proof.
  intros Hpat Hnested. simpl. rewrite Hnested. simpl.
  rewrite newBinding_without_pattern by assumption. reflexivity.
Qed.

End without_pattern.

(** C3, evaluated: a rule [GET /v1/books/{id}] with one additional binding
    that sets no pattern. [newBinding] returns nil and no error for the
    additional binding, and the method ends with two entries in
    [Bindings], the second one nil; the same rule without a pattern as a
    primary rule leaves [Bindings] empty. *)
Theorem applyOpts_additional_appends_nil :
  newBinding demo.reg demo.GetBook demo.getBook rule_without_pattern 1 = Ok None /\
  (exists meth b,
     newMethod demo.reg demo.Library demo.GetBook [rule_with_additional] None = Ok meth
     /\ Bindings meth = [Some b; None]) /\
  (exists meth,
     newMethod demo.reg demo.Library demo.GetBook [rule_without_pattern] None = Ok meth
     /\ Bindings meth = []).
Proof.
  split; [reflexivity |]. split.
  - eexists. eexists. split; [vm_compute; reflexivity | reflexivity].
  - eexists. split; [vm_compute; reflexivity | reflexivity].
Qed.

(** The nil entry is dereferenced by the loop of [applyTemplate] over the
    bindings of the method. *)
Example applyTemplate_nil_binding :
  applyTemplate {| File_proto := demo.file; File_Messages := [];
                   Services := [service_with_nil_binding] |} demo.reg
  = Panic.
Proof. vm_compute. reflexivity. Qed.

Lemma newBinding_GET_body_witness :
  newBinding demo.reg demo.GetBook demo.getBook (rule_get "*") 0
  = Err (ErrGetWithBody "GetBook")
  /\ exists b, newBinding demo.reg demo.GetBook demo.getBook (rule_get "") 0 = Ok (Some b).
Proof.
  split.
  - apply (newBinding_GET_body demo.reg demo.GetBook demo.getBook (rule_get "*") 0);
      discriminate.
  - destruct (newBinding_GET_body demo.reg demo.GetBook demo.getBook (rule_get "") 0)
      as (_ & Hempty & _); [discriminate |].
    destruct (Hempty eq_refl) as [-> _].
    eexists. vm_compute. reflexivity.
Defined.

Lemma newBinding_DELETE_body_witness :
  newBinding demo.reg demo.GetBook demo.getBook (rule_delete "*") 0
  = Err (ErrDeleteWithBody "GetBook")
  /\ exists b, newBinding (with_delete_body demo.reg) demo.GetBook demo.getBook
                 (rule_delete "*") 0 = Ok (Some b).
Proof.
  split.
  - apply (newBinding_DELETE_body demo.reg demo.GetBook demo.getBook (rule_delete "*") 0
             "/v1/books/{id}"); (reflexivity || discriminate).
  - destruct (newBinding_DELETE_body (with_delete_body demo.reg) demo.GetBook demo.getBook
                (rule_delete "*") 0 "/v1/books/{id}") as (_ & Hon);
      [reflexivity | discriminate | discriminate |].
    destruct (Hon eq_refl) as [-> _].
    eexists. vm_compute. reflexivity.
Defined.

(** ** Query parameters *)

Lemma filter_iff_in {A : Type} (P1 P2 : A -> Prop)
    `{!forall x, Decision (P1 x), !forall x, Decision (P2 x)} (l : list A) :
  (forall x, x ∈ l -> (P1 x <-> P2 x)) -> filter P1 l = filter P2 l.
Proof.
  induction l as [| a l IH]; intros Hiff; [reflexivity |].
  assert (Hl : forall x, x ∈ l -> (P1 x <-> P2 x))
    by (intros x Hx; apply Hiff, elem_of_cons; auto).
  assert (Ha : P1 a <-> P2 a) by (apply Hiff, elem_of_cons; auto).
  destruct (decide (P1 a)) as [Hp | Hp].
  - rewrite !filter_cons_True by tauto. rewrite IH by assumption. reflexivity.
  - rewrite !filter_cons_False by tauto. apply IH. assumption.
Qed.

Lemma foldl_insert_lookup (fs : list Field) (m0 : gmap string bool) (k : string) :
  foldl (fun fields f => <[Field_Name f := true]> fields) m0 fs !! k
  = if decide (k ∈ map Field_Name fs) then Some true else m0 !! k.
Proof.
  revert m0. induction fs as [| f fs IH]; intros m0.
  - reflexivity.
  - cbn [foldl map]. rewrite IH. destruct (decide (k ∈ map Field_Name fs)) as [Hin | Hnin].
    + rewrite decide_True by (apply elem_of_cons; auto). reflexivity.
    + destruct (decide (k = Field_Name f)) as [-> | Hne].
      * rewrite lookup_insert_eq.
        rewrite decide_True by (apply elem_of_cons; auto). reflexivity.
      * rewrite lookup_insert_ne by congruence.
        rewrite decide_False; [reflexivity |].
        intros [Heq | Hin]%elem_of_cons; contradiction.
Qed.

Lemma foldl_delete_lookup {A : Type} (g : A -> string) (ps : list A)
    (m0 : gmap string bool) (k : string) :
  foldl (fun fields p => delete (g p) fields) m0 ps !! k
  = if decide (k ∈ map g ps) then None else m0 !! k.
Proof.
  revert m0. induction ps as [| p ps IH]; intros m0.
  - reflexivity.
  - cbn [foldl map]. rewrite IH. destruct (decide (k ∈ map g ps)) as [Hin | Hnin].
    + rewrite decide_True by (apply elem_of_cons; auto). reflexivity.
    + destruct (decide (k = g p)) as [-> | Hne].
      * rewrite lookup_delete_eq.
        rewrite decide_True by (apply elem_of_cons; auto). reflexivity.
      * rewrite lookup_delete_ne by congruence.
        rewrite decide_False; [reflexivity |].
        intros [Heq | Hin]%elem_of_cons; contradiction.
Qed.

(** A key is in [fields] exactly when it names a request field and was not
    deleted. *)
Lemma query_fields_lookup (b : Binding) (k : string) :
  query_fields b !! k
  = if decide (k ∈ request_fields b /\ k ∉ deleted_keys b) then Some true else None.
Proof.
  unfold query_fields, deleted_keys, path_param_keys, request_fields.
  rewrite foldl_delete_lookup.
  destruct (decide (k ∈ map _ (PathParams b))) as [Hpp | Hpp].
  - rewrite decide_False; [reflexivity |].
    intros [_ Hn]. apply Hn, elem_of_app. right. exact Hpp.
  - destruct (Binding_Body b) as [body |].
    + destruct (decide (k = FieldPath_String (Body_FieldPath body))) as [-> | Hne].
      * rewrite lookup_delete_eq. rewrite decide_False; [reflexivity |].
        intros [_ Hn]. apply Hn. apply elem_of_app. left. apply list_elem_of_singleton.
        reflexivity.
      * rewrite lookup_delete_ne by congruence. rewrite foldl_insert_lookup.
        rewrite lookup_empty.
        destruct (decide (k ∈ map Field_Name _)) as [Hin | Hnin].
        -- rewrite decide_True; [reflexivity |]. split; [exact Hin |].
           intros [Hb | Hp]%elem_of_app; [| contradiction].
           apply list_elem_of_singleton in Hb. contradiction.
        -- rewrite decide_False; [reflexivity |]. intros [Hin _]. contradiction.
    + rewrite foldl_insert_lookup, lookup_empty.
      destruct (decide (k ∈ map Field_Name _)) as [Hin | Hnin].
      * rewrite decide_True; [reflexivity |]. split; [exact Hin |]. simpl. exact Hpp.
      * rewrite decide_False; [reflexivity |]. intros [Hin _]. contradiction.
Qed.

Lemma getQueryParams_loop_filter (fields : gmap string bool) (fs : list Field)
    (acc : list string) :
  getQueryParams_loop fields fs acc
  = acc ++ filter (fun name => is_Some (fields !! name)) (map Field_Name fs).
Proof.
  revert acc. induction fs as [| f fs IH]; intros acc; simpl.
  - rewrite app_nil_r. reflexivity.
  - destruct (fields !! Field_Name f) as [v |] eqn:Hl.
    + rewrite IH, filter_cons_True by (rewrite Hl; eauto).
      rewrite <- app_assoc. reflexivity.
    + rewrite IH, filter_cons_False by (rewrite Hl; apply is_Some_None). reflexivity.
Qed.

Lemma hasQueryParams_loop_filter (fields : gmap string bool) (fs : list Field) :
  hasQueryParams_loop fields fs
  = negb (Nat.eqb (length (filter (fun name => is_Some (fields !! name))
                                  (map Field_Name fs))) 0).
Proof.
  induction fs as [| f fs IH]; simpl; [reflexivity |].
  destruct (fields !! Field_Name f) as [v |] eqn:Hl.
  - rewrite filter_cons_True by (rewrite Hl; eauto). reflexivity.
  - rewrite filter_cons_False by (rewrite Hl; apply is_Some_None). exact IH.
Qed.

Lemma query_fields_size (b : Binding) :
  Nat.ltb 0 (size (query_fields b))
  = hasQueryParams_loop (query_fields b) (Message_Fields (RequestType (Binding_Method b))).
Proof.
  rewrite hasQueryParams_loop_filter.
  destruct (filter _ _) as [| n l] eqn:Hf; simpl.
  - assert (Hempty : query_fields b = ∅).
    { apply map_empty. intros k.
      destruct (query_fields b !! k) as [v |] eqn:Hk; [| reflexivity].
      exfalso. assert (Hin : k ∈ request_fields b).
      { rewrite query_fields_lookup in Hk. destruct (decide _) as [[Hin _] |]; [exact Hin |].
        discriminate. }
      assert (Hnot : k ∉ request_fields b).
      { eapply (filter_nil_not_elem_of
                  (fun name => is_Some (query_fields b !! name)) (request_fields b) k);
          [exact Hf | rewrite Hk; eauto]. }
      contradiction. }
    rewrite Hempty, map_size_empty. reflexivity.
  - assert (Hn : n ∈ filter (fun name => is_Some (query_fields b !! name))
                     (map Field_Name (Message_Fields (RequestType (Binding_Method b)))))
      by (rewrite Hf; apply elem_of_cons; auto).
    apply list_elem_of_filter in Hn as [Hsome _].
    apply map_size_ne_0_lookup_2 in Hsome.
    apply Nat.ltb_lt. lia.
Qed.

Lemma hasQueryParams_first (m : Method) (b : Binding) (rest : list (option Binding)) :
  Bindings m = Some b :: rest ->
  hasQueryParams m
  = Ok (if whole_message_body b then false
        else hasQueryParams_loop (query_fields b)
               (Message_Fields (RequestType (Binding_Method b)))).
Proof.
  intros Hb. unfold hasQueryParams. rewrite Hb. simpl.
  unfold whole_message_body, query_fields.
  destruct (Binding_Body b) as [body |]; [| reflexivity].
  destruct (Nat.eqb (length (Body_FieldPath body)) 0); reflexivity.
Qed.

Lemma getQueryParams_first (m : Method) (b : Binding) (rest : list (option Binding)) :
  Bindings m = Some b :: rest ->
  getQueryParams m
  = Ok (if whole_message_body b then []
        else filter (fun name => is_Some (query_fields b !! name)) (request_fields b)).
Proof.
  intros Hb. unfold getQueryParams. rewrite Hb. simpl.
  unfold whole_message_body. destruct (Binding_Body b) as [body |] eqn:Hbody.
  - destruct (Nat.eqb (length (Body_FieldPath body)) 0); [reflexivity |].
    rewrite getQueryParams_loop_filter. unfold query_fields. rewrite Hbody. reflexivity.
  - rewrite getQueryParams_loop_filter. unfold query_fields. rewrite Hbody. reflexivity.
Qed.

Lemma HasQueryParam_first (b : Binding) :
  HasQueryParam (Some b)
  = Ok (if whole_message_body b then false else Nat.ltb 0 (size (query_fields b))).
Proof.
  unfold HasQueryParam, whole_message_body, query_fields.
  destruct (Binding_Body b) as [body |]; [| reflexivity].
  destruct (Nat.eqb (length (Body_FieldPath body)) 0); reflexivity.
Qed.

(** C2, amended. For a method whose first binding is [b]: when the body
    of [b] is the whole request message, [getQueryParams] returns the
    empty list; otherwise it returns the names of the direct fields of
    the request message, minus the field named by the body's field path
    (if any) and minus the field path of every path parameter, in
    declaration order. *)
Theorem getQueryParams_spec (m : Method) (b : Binding) (rest : list (option Binding)) :
  Bindings m = Some b :: rest ->
  getQueryParams m
  = Ok (if whole_message_body b then [] else specified_query_params b).
Proof.
  intros Hb. rewrite (getQueryParams_first m b rest Hb). f_equal.
  destruct (whole_message_body b) eqn:Hw; [reflexivity |].
  unfold specified_query_params.
  assert (Hkeys : match Binding_Body b with
                  | Some body => match Body_FieldPath body with
                                 | [] => []
                                 | path => [FieldPath_String path]
                                 end
                  | None => []
                  end ++ path_param_keys b = deleted_keys b).
  { unfold deleted_keys, whole_message_body in *.
    destruct (Binding_Body b) as [body |]; [| reflexivity].
    destruct (Body_FieldPath body); [discriminate | reflexivity]. }
  cbv zeta. rewrite Hkeys.
  apply filter_iff_in. intros name Hin.
  rewrite query_fields_lookup.
  destruct (decide (name ∈ request_fields b /\ name ∉ deleted_keys b)) as [[_ Hn] | Hno].
  - split; eauto.
  - split; [intros [v Hv]; discriminate |].
    intros Hn. exfalso. apply Hno. split; assumption.
Qed.

Lemma getQueryParams_spec_witness :
  getQueryParams (query_demo.method_of query_demo.get_binding) = Ok ["name"; "filter"].
Proof.
  rewrite (getQueryParams_spec (query_demo.method_of query_demo.get_binding)
             query_demo.get_binding [] eq_refl).
  vm_compute. reflexivity.
Defined.

(** C2 as stated fails when the body of the first binding is the whole
    request message: the list computed is empty, the list described is
    every field of the request. *)
Lemma getQueryParams_whole_message_counterexample :
  getQueryParams (query_demo.method_of query_demo.post_binding) = Ok []
  /\ specified_query_params query_demo.post_binding = ["id"; "name"; "filter"]
  /\ getQueryParams (query_demo.method_of query_demo.post_binding)
     <> Ok (specified_query_params query_demo.post_binding).
Proof.
  split; [vm_compute; reflexivity |]. split; [vm_compute; reflexivity |].
  vm_compute. discriminate.
Qed.

(** C10. For a method with at least one binding, the three computations
    agree: [HasQueryParam] on the first binding and [hasQueryParams] on
    the method have the same outcome, and that outcome is true exactly
    when [getQueryParams] returns a list that is not empty (all three
    panic when the first binding is nil). *)
Theorem query_param_functions_agree (m : Method) (first : option Binding)
    (rest : list (option Binding)) :
  Bindings m = first :: rest ->
  HasQueryParam first = hasQueryParams m /\
  hasQueryParams m = (l ← getQueryParams m; Ok (negb (Nat.eqb (length l) 0))) /\
  (HasQueryParam first = Ok true <-> hasQueryParams m = Ok true) /\
  (hasQueryParams m = Ok true <-> exists l, getQueryParams m = Ok l /\ l <> []).
Proof.
  intros Hb.
  assert (H1 : HasQueryParam first = hasQueryParams m).
  { destruct first as [b |].
    - rewrite HasQueryParam_first, (hasQueryParams_first m b rest Hb), query_fields_size.
      reflexivity.
    - unfold hasQueryParams. rewrite Hb. reflexivity. }
  assert (H2 : hasQueryParams m
               = (l ← getQueryParams m; Ok (negb (Nat.eqb (length l) 0)))).
  { destruct first as [b |].
    - rewrite (hasQueryParams_first m b rest Hb), (getQueryParams_first m b rest Hb).
      simpl. destruct (whole_message_body b); [reflexivity |].
      rewrite hasQueryParams_loop_filter. reflexivity.
    - unfold hasQueryParams, getQueryParams. rewrite Hb. reflexivity. }
  split; [exact H1 |]. split; [exact H2 |]. split.
  - rewrite H1. tauto.
  - rewrite H2. destruct (getQueryParams m) as [l | e |]; simpl.
    + split.
      * intros [= Hl]. exists l. split; [reflexivity |].
        intros ->. discriminate.
      * intros (l' & [= <-] & Hne). destruct l; [contradiction | reflexivity].
    + split; [discriminate | intros (l' & Hl & _); discriminate].
    + split; [discriminate | intros (l' & Hl & _); discriminate].
Qed.

Lemma query_param_functions_agree_witness :
  HasQueryParam (Some query_demo.get_binding) = Ok true
  /\ hasQueryParams (query_demo.method_of query_demo.get_binding) = Ok true
  /\ HasQueryParam (Some query_demo.post_binding)
     = hasQueryParams (query_demo.method_of query_demo.post_binding).
Proof.
  destruct (query_param_functions_agree (query_demo.method_of query_demo.get_binding)
              (Some query_demo.get_binding) [] eq_refl) as (Hsame & _ & Hiff & _).
  assert (Hhas : hasQueryParams (query_demo.method_of query_demo.get_binding) = Ok true)
    by (vm_compute; reflexivity).
  split; [apply Hiff, Hhas |]. split; [exact Hhas |].
  apply (query_param_functions_agree (query_demo.method_of query_demo.post_binding)
           (Some query_demo.post_binding) [] eq_refl).
Defined.

(** ** Duplicate routes *)

Section duplicate_routes.
Context `{Externals}.

Lemma CheckDuplicateAnnotation_Ok (r r' : Registry) (verb template : string) (svc : Service) :
  CheckDuplicateAnnotation r verb template svc = Ok r' ->
  ((verb, template, Service_FQSN (Service_ref svc)) ∉ annotationMap r) /\
  annotationMap r'
  = ({[ (verb, template, Service_FQSN (Service_ref svc)) ]} ∪ annotationMap r).
Proof.
  unfold CheckDuplicateAnnotation. cbv zeta.
  destruct (decide (_ ∈ annotationMap r)) as [Hin | Hnin]; [discriminate |].
  intros [= <-]. split; [exact Hnin | reflexivity].
Qed.

Lemma registered_after_keeps (r r' : Registry) (key : string * string * string) :
  registered_after r r' -> key ∈ annotationMap r -> key ∈ annotationMap r'.
Proof.
  induction 1 as [| r' r'' verb template svc _ IH Hstep]; intros Hkey; [exact Hkey |].
  apply CheckDuplicateAnnotation_Ok in Hstep as [_ ->].
  apply elem_of_union. right. apply IH. exact Hkey.
Qed.

Lemma collidingMethods_names (svc : Service) (verb template : string) (m : Method)
    (b : Binding) :
  m ∈ Methods svc -> Some b ∈ Bindings m ->
  HTTPMethod b = verb -> Tmpl_Template (PathTmpl b) = template ->
  Method_GetName (Method_ref m) ∈ collidingMethods svc verb template.
Proof.
  intros Hm Hb Hverb Htmpl. unfold collidingMethods.
  apply list_elem_of_fmap. exists m. split; [reflexivity |].
  apply list_elem_of_filter. split; [| exact Hm].
  unfold owns_route. apply existsb_exists. exists (Some b). split.
  - apply list_elem_of_In. exact Hb.
  - rewrite Hverb, Htmpl, !String.eqb_refl. reflexivity.
Qed.

(** C4. For a service and a pair of verb and compiled template not yet
    registered for it, the first registration succeeds; after it, and
    after any further successful registrations, registering the same pair
    for the same service fails with the duplicate-route error, which
    names every method of the service that owns a binding with this verb
    and template (so both colliding methods). *)
Theorem CheckDuplicateAnnotation_second_fails (r : Registry) (svc : Service)
    (verb template : string) :
  (verb, template, Service_FQSN (Service_ref svc)) ∉ annotationMap r ->
  exists r1,
    CheckDuplicateAnnotation r verb template svc = Ok r1 /\
    forall r2 svc2,
      registered_after r1 r2 -> Service_ref svc2 = Service_ref svc ->
      exists names,
        CheckDuplicateAnnotation r2 verb template svc2
        = Err (ErrDuplicateRoute (Service_GetName (Service_ref svc)) verb template names)
        /\ forall m b,
             m ∈ Methods svc2 -> Some b ∈ Bindings m ->
             HTTPMethod b = verb -> Tmpl_Template (PathTmpl b) = template ->
             Method_GetName (Method_ref m) ∈ names.
Proof.
  intros Hfresh. eexists. split.
  - unfold CheckDuplicateAnnotation. cbv zeta.
    rewrite decide_False by exact Hfresh. reflexivity.
  - intros r2 svc2 Hafter Hsame.
    exists (collidingMethods svc2 verb template). split.
    + unfold CheckDuplicateAnnotation. cbv zeta. rewrite Hsame.
      rewrite decide_True; [reflexivity |].
      eapply registered_after_keeps; [exact Hafter |].
      simpl. apply elem_of_union. left. apply elem_of_singleton. reflexivity.
    + intros m b. apply collidingMethods_names.
Qed.

End duplicate_routes.

Lemma CheckDuplicateAnnotation_second_fails_witness :
  exists r1 names,
    CheckDuplicateAnnotation demo.reg "GET" "/v1/books/{id}" route_demo.library = Ok r1 /\
    CheckDuplicateAnnotation r1 "GET" "/v1/books/{id}" route_demo.library
    = Err (ErrDuplicateRoute "Library" "GET" "/v1/books/{id}" names) /\
    "GetBook" ∈ names /\ "fetchBook" ∈ names.
Proof.
  destruct (CheckDuplicateAnnotation_second_fails demo.reg route_demo.library
              "GET" "/v1/books/{id}") as (r1 & Hfirst & Hsecond).
  - apply not_elem_of_empty.
  - destruct (Hsecond r1 route_demo.library (after_none r1) eq_refl)
      as (names & Herr & Hnames).
    exists r1, names. split; [exact Hfirst |]. split; [exact Herr |]. split.
    + apply (Hnames {| Method_ref := demo.getBook;
                       Bindings := [Some (route_demo.binding demo.getBook "GET"
                                            "/v1/books/{id}")] |}
                    (route_demo.binding demo.getBook "GET" "/v1/books/{id}"));
        try reflexivity; repeat constructor.
    + apply (Hnames {| Method_ref := route_demo.fetch_book;
                       Bindings := [Some (route_demo.binding route_demo.fetch_book "GET"
                                            "/v1/books/{id}")] |}
                    (route_demo.binding route_demo.fetch_book "GET" "/v1/books/{id}"));
        try reflexivity; repeat constructor.
Defined.

(** The registration loop of [applyTemplate] on a service whose two
    methods are bound to the same route. *)
Example applyTemplate_duplicate :
  applyTemplate route_demo.file demo.reg
  = Err (ErrDuplicateRoute "Library" "GET" "/v1/books/{id}" ["GetBook"; "FetchBook"]).
Proof. vm_compute. reflexivity. Qed.

(** ** The registration loop *)

Section registration_loop.
Context `{Externals}.

Lemma register_routes_annotationMap (r : Registry) (svc : ServiceRef)
    (ks : list (string * string)) (key : string * string * string) :
  key ∈ annotationMap (register_routes r svc ks)
  <-> key ∈ map (route_key svc) ks \/ key ∈ annotationMap r.
Proof.
  revert r. induction ks as [| k ks IH]; intros r.
  - simpl. split; [auto |]. intros [Hin | Hin]; [| exact Hin].
    apply elem_of_nil in Hin. contradiction.
  - cbn [register_routes foldl map]. fold (register_routes (register_route r (route_key svc k)) svc ks).
    rewrite IH. simpl. rewrite elem_of_union, elem_of_singleton, elem_of_cons. tauto.
Qed.

Lemma routes_app (l1 l2 : list (option Binding)) :
  routes (l1 ++ l2) = routes l1 ++ routes l2.
Proof. unfold routes. rewrite omap_app, map_app. reflexivity. Qed.

Lemma route_key_inj (svc : ServiceRef) (k1 k2 : string * string) :
  route_key svc k1 = route_key svc k2 -> k1 = k2.
Proof. destruct k1, k2. unfold route_key. simpl. congruence. Qed.

(** Bindings that are not nil, pairwise distinct in verb and template and
    not registered yet are registered one after the other. *)
Lemma applyTemplate_bindings_prefix (reg : Registry) (svc : Service)
    (pre rest : list (option Binding)) (seen : bool) :
  Forall is_Some pre -> NoDup (routes pre) ->
  (forall k, k ∈ routes pre -> route_key (Service_ref svc) k ∉ annotationMap reg) ->
  applyTemplate_bindings reg svc (pre ++ rest) seen
  = applyTemplate_bindings (register_routes reg (Service_ref svc) (routes pre)) svc rest
      (match pre with [] => seen | _ => true end).
Proof.
  revert reg seen. induction pre as [| ob pre IH]; intros reg seen Hsome Hnodup Hfresh.
  - reflexivity.
  - inversion Hsome as [| ? ? [b ->] Hsome']; subst.
    change (routes (Some b :: pre)) with (route_of b :: routes pre) in *.
    apply NoDup_cons in Hnodup as [Hnotin Hnodup].
    cbn [app applyTemplate_bindings].
    unfold CheckDuplicateAnnotation. cbv zeta.
    rewrite decide_False by (apply (Hfresh (route_of b)), elem_of_cons; auto).
    cbn [mbind outcome_bind].
    rewrite IH; [| assumption | assumption |].
    + destruct pre; reflexivity.
    + intros k Hk Hin. simpl in Hin.
      apply elem_of_union in Hin as [Hin | Hin].
      * apply elem_of_singleton in Hin.
        apply (route_key_inj (Service_ref svc) k (route_of b)) in Hin. congruence.
      * apply (Hfresh k); [apply elem_of_cons; auto | exact Hin].
Qed.

Lemma applyTemplate_bindings_repeat (reg : Registry) (svc : Service) (b : Binding)
    (rest : list (option Binding)) (seen : bool) :
  route_key (Service_ref svc) (route_of b) ∈ annotationMap reg ->
  applyTemplate_bindings reg svc (Some b :: rest) seen
  = Err (ErrDuplicateRoute (Service_GetName (Service_ref svc)) (HTTPMethod b)
           (Tmpl_Template (PathTmpl b))
           (collidingMethods svc (HTTPMethod b) (Tmpl_Template (PathTmpl b)))).
Proof.
  intros Hin. cbn [applyTemplate_bindings]. unfold CheckDuplicateAnnotation. cbv zeta.
  rewrite decide_True by exact Hin. reflexivity.
Qed.

Lemma register_routes_app (r : Registry) (svc : ServiceRef) (k1 k2 : list (string * string)) :
  register_routes r svc (k1 ++ k2) = register_routes (register_routes r svc k1) svc k2.
Proof. unfold register_routes. apply foldl_app. Qed.

(** Methods whose bindings are not nil, pairwise distinct in verb and
    template and not registered yet are visited one after the other. *)
Lemma applyTemplate_methods_prefix (reg : Registry) (svc : ServiceRef)
    (done mpre rest : list Method) (seen : bool) :
  Forall is_Some (flat_map Bindings mpre) ->
  NoDup (routes (flat_map Bindings mpre)) ->
  (forall k, k ∈ routes (flat_map Bindings mpre) -> route_key svc k ∉ annotationMap reg) ->
  applyTemplate_methods reg svc done (mpre ++ rest) seen
  = applyTemplate_methods (register_routes reg svc (routes (flat_map Bindings mpre))) svc
      (done ++ map rename_method mpre) rest
      (match flat_map Bindings mpre with [] => seen | _ => true end).
Proof.
  revert reg done seen.
  induction mpre as [| m mpre IH]; intros reg done seen Hsome Hnodup Hfresh.
  - simpl. rewrite app_nil_r. reflexivity.
  - cbn [flat_map] in *. rewrite routes_app in *.
    apply Forall_app in Hsome as [Hsome_m Hsome'].
    apply NoDup_app in Hnodup as (Hnodup_m & Hdisj & Hnodup').
    cbn [app applyTemplate_methods].
    change (Bindings (rename_method m)) with (Bindings m).
    rewrite <- (app_nil_r (Bindings m)) at 1.
    rewrite applyTemplate_bindings_prefix;
      [| assumption | assumption
       | intros k Hk; apply Hfresh, elem_of_app; auto].
    cbn [applyTemplate_bindings Service_ref mbind outcome_bind].
    rewrite IH; [| assumption | assumption |].
    + rewrite <- register_routes_app. rewrite <- app_assoc. cbn [app map].
      f_equal. destruct (Bindings m); [reflexivity |].
      destruct (flat_map Bindings mpre); reflexivity.
    + intros k Hk Hin. apply register_routes_annotationMap in Hin as [Hin | Hin].
      * apply list_elem_of_fmap in Hin as (k' & Heq & Hk').
        apply route_key_inj in Heq. subst k'. apply (Hdisj k); assumption.
      * apply (Hfresh k); [apply elem_of_app; auto | exact Hin].
Qed.

(** X19. In the loop of [applyTemplate] over the methods of a service: when
    the bindings visited before [b] are not nil, pairwise distinct in verb
    and template and not registered before the loop, and [b] repeats the
    verb and template of one of them, the loop stops at [b] with the
    duplicate-route error, which names (in camel case, as renamed by the
    loop) the method of [b] and every method visited so far that owns a
    binding with this verb and template. *)
Theorem applyTemplate_methods_duplicate (reg : Registry) (svc : ServiceRef)
    (mpre mrest : list Method) (m : Method) (bpre bpost : list (option Binding))
    (b : Binding) (seen : bool) :
  Bindings m = bpre ++ Some b :: bpost ->
  Forall is_Some (flat_map Bindings mpre ++ bpre) ->
  NoDup (routes (flat_map Bindings mpre ++ bpre)) ->
  (forall k, k ∈ routes (flat_map Bindings mpre ++ bpre) ->
             route_key svc k ∉ annotationMap reg) ->
  route_of b ∈ routes (flat_map Bindings mpre ++ bpre) ->
  exists names,
    applyTemplate_methods reg svc [] (mpre ++ m :: mrest) seen
    = Err (ErrDuplicateRoute (Service_GetName svc) (HTTPMethod b)
             (Tmpl_Template (PathTmpl b)) names) /\
    forall m' b',
      m' ∈ mpre ++ [m] -> Some b' ∈ Bindings m' -> route_of b' = route_of b ->
      casing_Camel (Method_GetName (Method_ref m')) ∈ names.
Proof.
  intros Hm Hsome Hnodup Hfresh Hrepeat.
  rewrite routes_app in *.
  apply Forall_app in Hsome as [Hsome_pre Hsome_b].
  apply NoDup_app in Hnodup as (Hnodup_pre & Hdisj & Hnodup_b).
  rewrite applyTemplate_methods_prefix;
    [| assumption | assumption | intros k Hk; apply Hfresh, elem_of_app; auto].
  cbn [app applyTemplate_methods].
  change (Bindings (rename_method m)) with (Bindings m). rewrite Hm.
  rewrite applyTemplate_bindings_prefix; [| assumption | assumption |].
  - rewrite applyTemplate_bindings_repeat.
    + cbn [mbind outcome_bind Service_ref]. eexists. split; [reflexivity |].
      intros m' b' Hm' Hb' Hroute.
      injection Hroute as Hverb Htmpl.
      change (casing_Camel (Method_GetName (Method_ref m')))
        with (Method_GetName (Method_ref (rename_method m'))).
      apply (collidingMethods_names _ _ _ (rename_method m') b'); try assumption.
      cbn [Methods].
      apply elem_of_app in Hm' as [Hm' | Hm'].
      * apply elem_of_app. left. apply list_elem_of_fmap. eauto.
      * apply list_elem_of_singleton in Hm'. subst m'.
        apply elem_of_app. right. apply elem_of_cons. auto.
    + cbn [Service_ref]. apply register_routes_annotationMap.
      apply elem_of_app in Hrepeat as [Hrepeat | Hrepeat].
      * right. apply register_routes_annotationMap. left.
        apply list_elem_of_fmap. eauto.
      * left. apply list_elem_of_fmap. eauto.
  - cbn [Service_ref]. intros k Hk Hin.
    apply register_routes_annotationMap in Hin as [Hin | Hin].
    + apply list_elem_of_fmap in Hin as (k' & Heq & Hk').
      apply route_key_inj in Heq. subst k'. apply (Hdisj k); assumption.
    + apply (Hfresh k); [apply elem_of_app; auto | exact Hin].
Qed.

End registration_loop.


(* ===================================================================== *)
(** * Further properties of services.go                                   *)
(* ===================================================================== *)

(** ** lookupField *)

Lemma lookupField_fields_first (fields : list Field) (name : string) :
  match lookupField_fields fields name with
  | Some f => exists pre post,
                fields = pre ++ f :: post /\ Field_Name f = name
                /\ Forall (fun g => Field_Name g <> name) pre
  | None => Forall (fun g => Field_Name g <> name) fields
  end.
Proof.
  induction fields as [| g fields IH]; simpl.
  - constructor.
  - destruct (String.eqb_spec (Field_Name g) name) as [Heq | Hne].
    + exists [], fields. split; [reflexivity |]. split; [exact Heq | constructor].
    + destruct (lookupField_fields fields name) as [f |].
      * destruct IH as (pre & post & -> & Hname & Hpre).
        exists (g :: pre), post. split; [reflexivity |]. split; [exact Hname |].
        constructor; assumption.
      * constructor; assumption.
Qed.

(** X1. [lookupField] returns the first field of the message that has the
    name asked for: the fields before it have other names; it returns nil
    exactly when no field of the message has that name. *)
Theorem lookupField_first (msg : Message) (name : string) :
  match lookupField msg name with
  | Some f => exists pre post,
                Message_Fields msg = pre ++ f :: post /\ Field_Name f = name
                /\ Forall (fun g => Field_Name g <> name) pre
  | None => Forall (fun g => Field_Name g <> name) (Message_Fields msg)
  end.
Proof. apply lookupField_fields_first. Qed.

(** ** resolveFieldPath *)

Section resolve_more.
Context `{Externals}.

Lemma strings_Split_nonempty (s : string) (sep : ascii) : strings_Split s sep <> [].
Proof.
  destruct s as [| c s]; simpl; [discriminate |].
  destruct (Ascii.eqb c sep); [discriminate |].
  destruct (strings_Split s sep); discriminate.
Qed.

Lemma resolveFieldPath_loop_returns (r : Registry) (root : Message) (path : string)
    (isPathParam : bool) (cs : list string) (i : nat) (msg : Message) (result : FieldPath) :
  length result = i ->
  returns (resolveFieldPath_loop r root path isPathParam cs i msg result).
Proof.
  revert i msg result. induction cs as [| c cs IH]; intros i msg result Hlen; simpl.
  - exact I.
  - destruct (Nat.ltb 0 i) eqn:Hi.
    + apply Nat.ltb_lt in Hi.
      destruct (lookup_lt_is_Some_2 result (i - 1)) as [prev Hprev]; [lia |].
      rewrite Hprev. rewrite type_switch.
      destruct (aggregate (Field_Type (Comp_Target prev))); simpl; [| exact I].
      destruct (LookupMsg r (Message_FQMN msg) (Field_GetTypeName (Comp_Target prev)))
        as [e | msg']; simpl; [exact I |].
      destruct (lookupField msg' c) as [f |]; [| exact I].
      destruct (isPathParam && Field_Proto3Optional f); [exact I |].
      apply IH. rewrite length_app. simpl. lia.
    + simpl. destruct (lookupField msg c) as [f |]; [| exact I].
      destruct (isPathParam && Field_Proto3Optional f); [exact I |].
      apply IH. rewrite length_app. simpl. lia.
Qed.

(** X2. [resolveFieldPath] never panics: the read of [result[i-1]] is
    always in range. It returns a chain or an error for every registry,
    message, path and mode. *)
Theorem resolveFieldPath_returns (r : Registry) (msg : Message) (path : string)
    (isPathParam : bool) :
  returns (resolveFieldPath r msg path isPathParam).
Proof.
  unfold resolveFieldPath. destruct (String.eqb path ""); [exact I |].
  apply resolveFieldPath_loop_returns. reflexivity.
Qed.

(** What a successful run of the loop appends: one component per name
    that remained, named like it and targeting a field of that name;
    every field from the last one of [result] up to the one before the
    last one of the chain is of message or group type. *)
Lemma resolveFieldPath_loop_chain (r : Registry) (root : Message) (path : string)
    (isPathParam : bool) (cs : list string) (i : nat) (msg : Message)
    (result fields : FieldPath) :
  length result = i ->
  resolveFieldPath_loop r root path isPathParam cs i msg result = Ok fields ->
  exists added,
    fields = result ++ added /\ map Comp_Name added = cs /\ Forall well_named added /\
    forall j c, i <= S j -> S j < length fields -> fields !! j = Some c ->
                aggregate (Field_Type (Comp_Target c)) = true.
Proof.
  revert i msg result. induction cs as [| c cs IH]; intros i msg result Hlen Hloop.
  - simpl in Hloop. injection Hloop as <-. exists []. rewrite app_nil_r.
    repeat split; [constructor |]. intros j c Hi Hj. lia.
  - simpl in Hloop.
    assert (Hstep : exists msg' f,
               lookupField msg' c = Some f /\
               resolveFieldPath_loop r root path isPathParam cs (S i) msg'
                 (result ++ [component c f]) = Ok fields /\
               (0 < i -> exists prev, result !! (i - 1) = Some prev /\
                          aggregate (Field_Type (Comp_Target prev)) = true)).
    { destruct (Nat.ltb 0 i) eqn:Hi.
      - destruct (result !! (i - 1)) as [prev |] eqn:Hprev; [| discriminate].
        rewrite type_switch in Hloop.
        destruct (aggregate (Field_Type (Comp_Target prev))) eqn:Hagg; [| discriminate].
        destruct (LookupMsg r (Message_FQMN msg) (Field_GetTypeName (Comp_Target prev)))
          as [e | msg']; simpl in Hloop; [discriminate |].
        destruct (lookupField msg' c) as [f |] eqn:Hf; [| discriminate].
        destruct (isPathParam && Field_Proto3Optional f); [discriminate |].
        exists msg', f. repeat split; eauto.
      - simpl in Hloop. apply Nat.ltb_ge in Hi.
        destruct (lookupField msg c) as [f |] eqn:Hf; [| discriminate].
        destruct (isPathParam && Field_Proto3Optional f); [discriminate |].
        exists msg, f. repeat split; eauto. intros Hpos. lia. }
    destruct Hstep as (msg' & f & Hf & Hrest & Hprev).
    apply IH in Hrest; [| rewrite length_app; simpl; lia].
    destruct Hrest as (added & -> & Hnames & Hwell & Hagg).
    exists (component c f :: added). rewrite <- app_assoc. simpl.
    split; [reflexivity |]. split; [rewrite Hnames; reflexivity |]. split.
    + constructor; [| exact Hwell]. unfold well_named. simpl.
      pose proof (lookupField_fields_first (Message_Fields msg') c) as Hfirst.
      unfold lookupField in Hf. rewrite Hf in Hfirst.
      destruct Hfirst as (_ & _ & _ & Hname & _). exact Hname.
    + intros j c0 Hi Hj Hlook.
      destruct (decide (S j = i)) as [Heq | Hne].
      * destruct Hprev as (prev & Hprev & Haggp); [lia |].
        replace (i - 1) with j in Hprev by lia.
        rewrite lookup_app_l in Hlook by lia.
        rewrite Hprev in Hlook. injection Hlook as <-. exact Haggp.
      * apply (Hagg j c0); [lia | |].
        -- rewrite <- app_assoc. simpl. exact Hj.
        -- rewrite <- app_assoc. simpl. exact Hlook.
Qed.

(** X3. A chain that [resolveFieldPath] returns follows the path: an
    empty path gives the empty chain; for any other path the names of the
    components are the parts of the path between the dots, in order, and
    each component targets a field of its own name. *)
Theorem resolveFieldPath_components (r : Registry) (msg : Message) (path : string)
    (isPathParam : bool) (fields : FieldPath) :
  resolveFieldPath r msg path isPathParam = Ok fields ->
  (path = "" -> fields = []) /\
  (path <> "" ->
     map Comp_Name fields = strings_Split path "." /\ Forall well_named fields
     /\ fields <> []).
Proof.
  unfold resolveFieldPath. destruct (String.eqb_spec path "") as [-> | Hne].
  - intros [= <-]. split; [reflexivity | intros Habs; contradiction].
  - intros Hloop. split; [intros Habs; contradiction |]. intros _.
    apply resolveFieldPath_loop_chain in Hloop; [| reflexivity].
    destruct Hloop as (added & -> & Hnames & Hwell & _). simpl.
    split; [exact Hnames |]. split; [exact Hwell |].
    intros ->. simpl in Hnames. symmetry in Hnames.
    apply strings_Split_nonempty in Hnames. exact Hnames.
Qed.

(** X4. In a chain that [resolveFieldPath] returns, every field but the
    last one is of message or group type. *)
Theorem resolveFieldPath_inner_aggregate (r : Registry) (msg : Message) (path : string)
    (isPathParam : bool) (fields : FieldPath) (j : nat) (c : FieldPathComponent) :
  resolveFieldPath r msg path isPathParam = Ok fields ->
  S j < length fields -> fields !! j = Some c ->
  aggregate (Field_Type (Comp_Target c)) = true.
Proof.
  unfold resolveFieldPath. destruct (String.eqb path "").
  - intros [= <-]. simpl. lia.
  - intros Hloop Hj Hc.
    apply resolveFieldPath_loop_chain in Hloop; [| reflexivity].
    destruct Hloop as (added & _ & _ & _ & Hagg).
    apply (Hagg j c); [lia | exact Hj | exact Hc].
Qed.

Lemma resolveFieldPath_loop_strict_loose (r : Registry) (root : Message) (path : string)
    (cs : list string) (i : nat) (msg : Message) (result : FieldPath) :
  match resolveFieldPath_loop r root path true cs i msg result with
  | Ok fields => resolveFieldPath_loop r root path false cs i msg result = Ok fields
  | Err e =>
      resolveFieldPath_loop r root path false cs i msg result = Err e
      \/ exists name, e = ErrOptionalField name path
  | Panic => resolveFieldPath_loop r root path false cs i msg result = Panic
  end.
Proof.
  revert i msg result. induction cs as [| c cs IH]; intros i msg result; simpl.
  - reflexivity.
  - match goal with
    | |- context [mbind _ ?X] => destruct X as [msg' | e |]
    end; simpl; auto.
    destruct (lookupField msg' c) as [f |]; [| auto].
    destruct (Field_Proto3Optional f); simpl; [right; eauto | apply IH].
Qed.

(** X5. The path-parameter mode of [resolveFieldPath] only adds the
    rejection of optional fields to the other mode: a path resolved in
    path-parameter mode resolves to the same chain in the other mode, and
    an error of the path-parameter mode is the error of the other mode or
    the optional-field error. *)
Theorem resolveFieldPath_strict_loose (r : Registry) (msg : Message) (path : string) :
  match resolveFieldPath r msg path true with
  | Ok fields => resolveFieldPath r msg path false = Ok fields
  | Err e =>
      resolveFieldPath r msg path false = Err e
      \/ exists name, e = ErrOptionalField name path
  | Panic => False
  end.
Proof.
  unfold resolveFieldPath. destruct (String.eqb path ""); [reflexivity |].
  pose proof (resolveFieldPath_loop_returns r msg path true (strings_Split path ".")
                0 msg [] eq_refl) as Hret.
  pose proof (resolveFieldPath_loop_strict_loose r msg path (strings_Split path ".")
                0 msg []) as Hrel.
  destruct (resolveFieldPath_loop r msg path true (strings_Split path ".") 0 msg []);
    [exact Hrel | exact Hrel | exact Hret].
Qed.

End resolve_more.

Lemma resolveFieldPath_components_witness :
  map Comp_Name shelf_owner_name = ["shelf"; "owner"; "name"]
  /\ Forall well_named shelf_owner_name /\ shelf_owner_name <> [].
Proof.
  apply (resolveFieldPath_components demo.reg demo.Book "shelf.owner.name" true
           shelf_owner_name); [vm_compute; reflexivity | discriminate].
Defined.

Lemma resolveFieldPath_inner_aggregate_witness :
  aggregate (Field_Type (demo.nested "owner" ".demo.Owner")) = true.
Proof.
  apply (resolveFieldPath_inner_aggregate demo.reg demo.Book "shelf.owner.name" true
           shelf_owner_name 1 (component "owner" (demo.nested "owner" ".demo.Owner")));
    [vm_compute; reflexivity | simpl; lia | reflexivity].
Defined.

Section resolve_errors.
Context `{Externals}.

Lemma resolveFieldPath_loop_errors (r : Registry) (root : Message) (path : string)
    (isPathParam : bool) (cs : list string) (i : nat) (msg : Message)
    (result : FieldPath) (e : error) :
  resolveFieldPath_loop r root path isPathParam cs i msg result = Err e ->
  (exists msg, e = ErrLookupMsg msg) \/
  (exists field, e = ErrNotAggregate field path) \/
  e = ErrNoField path (Message_Name root) \/
  (exists field, e = ErrOptionalField field path /\ isPathParam = true).
Proof.
  revert i msg result. induction cs as [| c cs IH]; intros i msg result; simpl.
  - discriminate.
  - assert (Hlook : forall msg',
              match lookupField msg' c with
              | Some f =>
                  if isPathParam && Field_Proto3Optional f
                  then Err (ErrOptionalField (Field_Name f) path)
                  else resolveFieldPath_loop r root path isPathParam cs (S i) msg'
                         (result ++ [{| Comp_Name := c; Comp_Target := f |}])
              | None => Err (ErrNoField path (Message_Name root))
              end = Err e ->
              (exists msg, e = ErrLookupMsg msg) \/
              (exists field, e = ErrNotAggregate field path) \/
              e = ErrNoField path (Message_Name root) \/
              (exists field, e = ErrOptionalField field path /\ isPathParam = true)).
    { intros msg'. destruct (lookupField msg' c) as [f |]; [| intros [= <-]; auto].
      destruct isPathParam; simpl; [| apply IH].
      destruct (Field_Proto3Optional f); [| apply IH].
      intros [= <-]. right. right. right. eauto. }
    destruct (Nat.ltb 0 i).
    + destruct (result !! (i - 1)) as [prev |]; simpl; [| discriminate].
      rewrite type_switch.
      destruct (aggregate (Field_Type (Comp_Target prev))); simpl.
      * destruct (LookupMsg r (Message_FQMN msg) (Field_GetTypeName (Comp_Target prev)))
          as [m | msg']; simpl; [intros [= <-]; eauto | apply Hlook].
      * intros [= <-]. right. left. eauto.
    + simpl. apply Hlook.
Qed.

(** X6. The errors of [resolveFieldPath]: what [LookupMsg] reports, the
    not-an-aggregate error, the no-field error and, in path-parameter mode
    only, the optional-field error; the last three carry the whole path
    that was asked for, the no-field error also the name of the message
    the resolution started from. An empty path never fails. *)
Theorem resolveFieldPath_errors (r : Registry) (msg : Message) (path : string)
    (isPathParam : bool) (e : error) :
  resolveFieldPath r msg path isPathParam = Err e ->
  path <> "" /\
  ((exists m, e = ErrLookupMsg m) \/
   (exists field, e = ErrNotAggregate field path) \/
   e = ErrNoField path (Message_Name msg) \/
   (exists field, e = ErrOptionalField field path /\ isPathParam = true)).
Proof.
  unfold resolveFieldPath. destruct (String.eqb_spec path "") as [-> | Hne]; [discriminate |].
  intros Hloop. split; [exact Hne |].
  eapply resolveFieldPath_loop_errors. exact Hloop.
Qed.

(** X7. [newParam] reports an invalid field access list for the empty
    path, and only for it. *)
Theorem newParam_empty_path (r : Registry) (meth : MethodRef) :
  newParam r meth "" = Err (ErrInvalidFieldAccessList "") /\
  forall path p, newParam r meth path = Err (ErrInvalidFieldAccessList p) -> path = "".
Proof.
  split; [reflexivity |].
  intros path p. rewrite newParam_unfold.
  destruct (String.eqb_spec path "") as [-> | Hne]; [reflexivity |].
  unfold resolveFieldPath. rewrite (proj2 (String.eqb_neq path "") Hne).
  destruct (resolveFieldPath_loop r (RequestType meth) path true (strings_Split path ".") 0
              (RequestType meth) []) as [fields | e |] eqn:Hloop; [| | discriminate].
  - apply resolveFieldPath_loop_chain in Hloop; [| reflexivity].
    destruct Hloop as (added & -> & Hnames & _). simpl.
    destruct added as [| c0 added].
    + simpl in Hnames. symmetry in Hnames. apply strings_Split_nonempty in Hnames.
      contradiction.
    + destruct (last (c0 :: added)) as [c |] eqn:Hlast.
      * cbv zeta. destruct (aggregate _); [| discriminate].
        destruct (Field_TypeName _) as [typeName |]; [| discriminate].
        destruct (IsWellKnownType typeName); discriminate.
      * apply last_None in Hlast. discriminate.
  - intros [= ->]. apply resolveFieldPath_loop_errors in Hloop.
    destruct Hloop as [[m Hm] | [[f Hf] | [Hn | [f [Hf _]]]]]; discriminate.
Qed.

End resolve_errors.

Lemma resolveFieldPath_errors_witness :
  "shelf.theme.x" <> "" /\
  ((exists m, ErrNotAggregate "theme" "shelf.theme.x" = ErrLookupMsg m) \/
   (exists field, ErrNotAggregate "theme" "shelf.theme.x"
                  = ErrNotAggregate field "shelf.theme.x") \/
   ErrNotAggregate "theme" "shelf.theme.x" = ErrNoField "shelf.theme.x" "Book" \/
   (exists field, ErrNotAggregate "theme" "shelf.theme.x"
                  = ErrOptionalField field "shelf.theme.x" /\ false = true)).
Proof.
  apply (resolveFieldPath_errors demo.reg demo.Book "shelf.theme.x" false).
  vm_compute. reflexivity.
Defined.

(** ** newBinding *)

Section binding_more.
Context `{Externals}.

(** What a successful [newBinding] went through. *)
Lemma newBinding_Some_inv (r : Registry) (md : MethodDescriptorProto) (meth : MethodRef)
    (opts : HttpRule) (idx : nat) (b : Binding) :
  newBinding r md meth opts idx = Ok (Some b) ->
  exists httpMethod pathTemplate parsed params body responseBody,
    newBinding_pattern r md opts = Ok (Some (httpMethod, pathTemplate)) /\
    httprule_Parse pathTemplate = inr parsed /\
    md_ClientStreaming md && Nat.ltb 0 (length (Tmpl_Fields (Compile parsed))) = false /\
    newBinding_params r meth (Tmpl_Fields (Compile parsed)) [] = Ok params /\
    newBody r meth (Body opts) = Ok body /\
    newResponse r meth (ResponseBody opts) = Ok responseBody /\
    b = {| Binding_Method := meth; Binding_Index := idx; PathTmpl := Compile parsed;
           HTTPMethod := httpMethod; PathParams := params; Binding_Body := body;
           Binding_ResponseBody := responseBody |}.
Proof.
  unfold newBinding.
  destruct (newBinding_pattern r md opts) as [[[httpMethod pathTemplate] |] | e |];
    simpl; try discriminate.
  unfold newBinding_build.
  destruct (httprule_Parse pathTemplate) as [msg | parsed] eqn:Hparse; simpl;
    try discriminate.
  destruct (md_ClientStreaming md && _) eqn:Hstream; simpl; try discriminate.
  destruct (newBinding_params r meth (Tmpl_Fields (Compile parsed)) [])
    as [params | e |] eqn:Hparams; simpl; try discriminate.
  destruct (newBody r meth (Body opts)) as [body | e |] eqn:Hbody; simpl; try discriminate.
  destruct (newResponse r meth (ResponseBody opts)) as [responseBody | e |] eqn:Hresp;
    simpl; try discriminate.
  intros [= <-]. do 6 eexists. repeat split; eauto.
Qed.

Lemma newBinding_params_spec (r : Registry) (meth : MethodRef) (fields : list string)
    (acc params : list Parameter_) :
  newBinding_params r meth fields acc = Ok params ->
  exists new, params = acc ++ new
              /\ Forall2 (fun capture p => newParam r meth capture = Ok p) fields new.
Proof.
  revert acc. induction fields as [| f fields IH]; intros acc; simpl.
  - intros [= <-]. exists []. rewrite app_nil_r. split; [reflexivity | constructor].
  - destruct (newParam r meth f) as [p | e |] eqn:Hp; simpl; try discriminate.
    intros Hrest. apply IH in Hrest as (new & -> & Hall).
    exists (p :: new). rewrite <- app_assoc. split; [reflexivity |].
    constructor; assumption.
Qed.

(** X8. A binding that [newBinding] builds has one path parameter per
    capture group of its compiled template, in the order of the capture
    groups: each parameter is what [newParam] builds for the capture, and
    the names of its field path are the parts of the capture between the
    dots. The binding carries the index it was built for and points back
    to the method. *)
Theorem newBinding_path_params (r : Registry) (md : MethodDescriptorProto)
    (meth : MethodRef) (opts : HttpRule) (idx : nat) (b : Binding) :
  newBinding r md meth opts idx = Ok (Some b) ->
  Forall2 (fun capture p =>
             newParam r meth capture = Ok p /\
             map Comp_Name (Param_FieldPath p) = strings_Split capture ".")
          (Tmpl_Fields (PathTmpl b)) (PathParams b) /\
  Binding_Index b = idx /\ Binding_Method b = meth.
Proof.
  intros Hb. apply newBinding_Some_inv in Hb.
  destruct Hb as (httpMethod & pathTemplate & parsed & params & body & responseBody
                  & _ & _ & _ & Hparams & _ & _ & ->).
  simpl. split; [| split; reflexivity].
  apply newBinding_params_spec in Hparams as (new & -> & Hall). simpl.
  eapply Forall2_impl; [exact Hall |].
  intros capture p Hp. cbv beta in Hp. split; [exact Hp |].
  rewrite newParam_unfold in Hp.
  destruct (resolveFieldPath r (RequestType meth) capture true) as [fields | e |] eqn:Hres;
    try discriminate.
  assert (Hfields : Param_FieldPath p = fields).
  { destruct (last fields) as [c |]; [| discriminate]. cbv zeta in Hp.
    destruct (aggregate _).
    - destruct (Field_TypeName _) as [typeName |]; [| discriminate].
      destruct (IsWellKnownType typeName); [| discriminate].
      injection Hp as <-. reflexivity.
    - injection Hp as <-. reflexivity. }
  rewrite Hfields.
  assert (Hne : capture <> "").
  { intros ->. unfold resolveFieldPath in Hres. simpl in Hres. injection Hres as <-.
    discriminate. }
  unfold resolveFieldPath in Hres. rewrite (proj2 (String.eqb_neq capture "") Hne) in Hres.
  apply resolveFieldPath_loop_chain in Hres; [| reflexivity].
  destruct Hres as (added & -> & Hnames & _). exact Hnames.
Qed.

(** X9. A method with client-side streaming gets no binding whose
    template has a capture group: once a pattern is selected and its path
    compiles with a capture group, [newBinding] fails with the
    client-streaming error, and a binding that is built for such a method
    has neither capture groups nor path parameters. *)
Theorem newBinding_client_streaming (r : Registry) (md : MethodDescriptorProto)
    (meth : MethodRef) (opts : HttpRule) (idx : nat) :
  md_ClientStreaming md = true ->
  (forall httpMethod pathTemplate parsed,
     newBinding_pattern r md opts = Ok (Some (httpMethod, pathTemplate)) ->
     httprule_Parse pathTemplate = inr parsed ->
     Tmpl_Fields (Compile parsed) <> [] ->
     newBinding r md meth opts idx = Err ErrClientStreamingPathParam) /\
  (forall b, newBinding r md meth opts idx = Ok (Some b) ->
             Tmpl_Fields (PathTmpl b) = [] /\ PathParams b = []).
Proof.
  intros Hstream. split.
  - intros httpMethod pathTemplate parsed Hpat Hparse Hfields.
    unfold newBinding. rewrite Hpat. simpl. unfold newBinding_build.
    rewrite Hparse. simpl. rewrite Hstream.
    destruct (Tmpl_Fields (Compile parsed)); [contradiction | reflexivity].
  - intros b Hb. apply newBinding_Some_inv in Hb.
    destruct Hb as (httpMethod & pathTemplate & parsed & params & body & responseBody
                    & _ & _ & Hguard & Hparams & _ & _ & ->).
    simpl. rewrite Hstream in Hguard. simpl in Hguard.
    destruct (Tmpl_Fields (Compile parsed)) as [| f fields] eqn:Hfields; [| discriminate].
    split; [reflexivity |]. simpl in Hparams. injection Hparams as <-. reflexivity.
Qed.

End binding_more.

Lemma newBinding_path_params_witness :
  Forall2 (fun capture p =>
             newParam demo.reg demo.getBook capture = Ok p /\
             map Comp_Name (Param_FieldPath p) = strings_Split capture ".")
          ["id"] [id_param]
  /\ Binding_Index get_book_binding = 0 /\ Binding_Method get_book_binding = demo.getBook.
Proof.
  apply (newBinding_path_params demo.reg demo.GetBook demo.getBook (rule_get "") 0
           get_book_binding).
  vm_compute. reflexivity.
Defined.

Lemma newBinding_client_streaming_witness :
  newBinding demo.reg Upload upload (rule_get "") 0 = Err ErrClientStreamingPathParam.
Proof.
  eapply (proj1 (newBinding_client_streaming demo.reg Upload upload (rule_get "") 0
                   eq_refl)).
  - reflexivity.
  - reflexivity.
  - discriminate.
Defined.

(** ** applyOpts and newMethod *)

Section method_more.
Context `{Externals}.

Lemma applyOpts_additional_nested (r : Registry) (svc : ServiceRef)
    (md : MethodDescriptorProto) (additionals : list HttpRule) (meth : Method) :
  Exists nests additionals ->
  ~ succeeds (applyOpts_additional r svc md meth additionals).
Proof.
  revert meth. induction additionals as [| a rest IH]; intros meth Hex [meth' Hok].
  - inversion Hex.
  - simpl in Hok. destruct (AdditionalBindings a) as [| n ns] eqn:Hnested.
    + simpl in Hok.
      destruct (newBinding r md (Method_ref meth) a (length (Bindings meth)))
        as [b | e |]; simpl in Hok; try discriminate.
      inversion Hex as [? ? Habs | ? ? Hrest]; subst.
      * unfold nests in Habs. contradiction.
      * apply (IH (append_binding meth b) Hrest). exists meth'. exact Hok.
    + simpl in Hok. discriminate.
Qed.

Lemma newMethod_optsList_nested (r : Registry) (svc : ServiceRef)
    (md : MethodDescriptorProto) (optsList : list HttpRule) (meth : Method) :
  Exists (fun opts => Exists nests (AdditionalBindings opts)) optsList ->
  ~ succeeds (newMethod_optsList r svc md meth optsList).
Proof.
  revert meth. induction optsList as [| opts rest IH]; intros meth Hex [meth' Hok].
  - inversion Hex.
  - simpl in Hok.
    destruct (applyOpts r svc md meth opts) as [meth1 | e |] eqn:Happly;
      simpl in Hok; try discriminate.
    inversion Hex as [? ? Hhere | ? ? Hrest]; subst.
    + unfold applyOpts in Happly.
      destruct (newBinding r md (Method_ref meth) opts (length (Bindings meth)))
        as [b | e |]; simpl in Happly; try discriminate.
      eapply applyOpts_additional_nested; [exact Hhere |]. eexists. exact Happly.
    + apply (IH meth1 Hrest). exists meth'. exact Hok.
Qed.

(** X10. A rule one of whose additional bindings declares additional
    bindings of its own is never accepted: [newMethod] does not return a
    method when its list of rules holds such a rule, and [applyOpts]
    reports the nesting, with the names of the service and of the method,
    when the primary binding is built and the first additional binding is
    the nested one. *)
Theorem newMethod_nested_additional_bindings (r : Registry) (svc : ServiceRef)
    (md : MethodDescriptorProto) (optsList : list HttpRule) (role : option api_Role) :
  Exists (fun opts => Exists nests (AdditionalBindings opts)) optsList ->
  ~ succeeds (newMethod r svc md optsList role) /\
  forall meth opts additional rest b,
    AdditionalBindings opts = additional :: rest -> nests additional ->
    newBinding r md (Method_ref meth) opts (length (Bindings meth)) = Ok b ->
    applyOpts r svc md meth opts
    = Err (ErrNestedAdditionalBinding (Service_GetName svc)
             (Method_GetName (Method_ref meth))).
Proof.
  intros Hex. split.
  - intros [meth Hok]. unfold newMethod in Hok.
    destruct (LookupMsg r (fd_Package (Service_File svc)) (md_InputType md))
      as [e | requestType]; simpl in Hok; try discriminate.
    destruct (LookupMsg r (fd_Package (Service_File svc)) (md_OutputType md))
      as [e | responseType]; simpl in Hok; try discriminate.
    eapply newMethod_optsList_nested; [exact Hex |]. eexists. exact Hok.
  - intros meth opts additional rest b Hadd Hnests Hb.
    unfold applyOpts. rewrite Hb. simpl. unfold GetAdditionalBindings. rewrite Hadd.
    simpl. unfold nests in Hnests.
    destruct (AdditionalBindings additional); [contradiction |].
    destruct b; reflexivity.
Qed.

Lemma newBinding_index (r : Registry) (md : MethodDescriptorProto) (meth : MethodRef)
    (opts : HttpRule) (idx : nat) (b : Binding) :
  newBinding r md meth opts idx = Ok (Some b) ->
  Binding_Index b = idx /\ Binding_Method b = meth.
Proof.
  intros Hb. apply newBinding_Some_inv in Hb.
  destruct Hb as (? & ? & ? & ? & ? & ? & _ & _ & _ & _ & _ & _ & ->).
  split; reflexivity.
Qed.

Lemma append_binding_indexed (meth : Method) (ob : option Binding) :
  indexed meth ->
  (forall b, ob = Some b ->
             Binding_Index b = length (Bindings meth) /\ Binding_Method b = Method_ref meth) ->
  indexed (append_binding meth ob).
Proof.
  intros Hinv Hnew i b Hi. unfold append_binding in *. simpl in *.
  apply lookup_app_Some in Hi as [Hi | [Hlen Hi]].
  - apply Hinv. exact Hi.
  - apply list_lookup_singleton_Some in Hi as [Hidx ->].
    destruct (Hnew b eq_refl) as [Hindex Hmeth]. split; [lia | exact Hmeth].
Qed.

Lemma applyOpts_additional_indexed (r : Registry) (svc : ServiceRef)
    (md : MethodDescriptorProto) (additionals : list HttpRule) (meth meth' : Method) :
  indexed meth ->
  applyOpts_additional r svc md meth additionals = Ok meth' ->
  indexed meth' /\ Method_ref meth' = Method_ref meth.
Proof.
  revert meth. induction additionals as [| a rest IH]; intros meth Hinv; simpl.
  - intros [= <-]. split; [exact Hinv | reflexivity].
  - destruct (Nat.ltb 0 (length (AdditionalBindings a))); [discriminate |].
    destruct (newBinding r md (Method_ref meth) a (length (Bindings meth)))
      as [ob | e |] eqn:Hb; simpl; try discriminate.
    intros Hrest. apply IH in Hrest; [exact Hrest |].
    apply append_binding_indexed; [exact Hinv |].
    intros b ->. eapply newBinding_index. exact Hb.
Qed.

Lemma applyOpts_indexed (r : Registry) (svc : ServiceRef) (md : MethodDescriptorProto)
    (opts : HttpRule) (meth meth' : Method) :
  indexed meth ->
  applyOpts r svc md meth opts = Ok meth' ->
  indexed meth' /\ Method_ref meth' = Method_ref meth.
Proof.
  intros Hinv. unfold applyOpts.
  destruct (newBinding r md (Method_ref meth) opts (length (Bindings meth)))
    as [ob | e |] eqn:Hb; simpl; try discriminate.
  intros Hrest. destruct ob as [b |].
  - apply applyOpts_additional_indexed in Hrest; [exact Hrest |].
    apply append_binding_indexed; [exact Hinv |].
    intros b' [= <-]. eapply newBinding_index. exact Hb.
  - apply applyOpts_additional_indexed in Hrest; assumption.
Qed.

Lemma newMethod_optsList_indexed (r : Registry) (svc : ServiceRef)
    (md : MethodDescriptorProto) (optsList : list HttpRule) (meth meth' : Method) :
  indexed meth ->
  newMethod_optsList r svc md meth optsList = Ok meth' ->
  indexed meth' /\ Method_ref meth' = Method_ref meth.
Proof.
  revert meth. induction optsList as [| opts rest IH]; intros meth Hinv; simpl.
  - intros [= <-]. split; [exact Hinv | reflexivity].
  - destruct (applyOpts r svc md meth opts) as [meth1 | e |] eqn:Happly;
      simpl; try discriminate.
    apply applyOpts_indexed in Happly as [Hinv1 Href1]; [| exact Hinv].
    intros Hrest. apply IH in Hrest as [Hinv' Href']; [| exact Hinv1].
    split; [exact Hinv' | congruence].
Qed.

Lemma newMethod_keeps (r : Registry) (svc : ServiceRef) (md : MethodDescriptorProto)
    (optsList : list HttpRule) (role : option api_Role) (meth : Method) :
  newMethod r svc md optsList role = Ok meth ->
  indexed meth /\
  Method_Service (Method_ref meth) = svc /\ Method_proto (Method_ref meth) = md.
Proof.
  unfold newMethod.
  destruct (LookupMsg r (fd_Package (Service_File svc)) (md_InputType md))
    as [e | requestType]; simpl; try discriminate.
  destruct (LookupMsg r (fd_Package (Service_File svc)) (md_OutputType md))
    as [e | responseType]; simpl; try discriminate.
  intros Hlist. apply newMethod_optsList_indexed in Hlist as [Hinv Href].
  - split; [exact Hinv |]. rewrite Href. split; reflexivity.
  - intros i b Hi. simpl in Hi. rewrite lookup_nil in Hi. discriminate.
Qed.

(** X11. In a method that [newMethod] returns, every binding that is not
    nil carries its position in [Bindings] as its index and points back
    to the method; the method keeps the service and the descriptor it was
    built for. *)
Theorem newMethod_indexed (r : Registry) (svc : ServiceRef) (md : MethodDescriptorProto)
    (optsList : list HttpRule) (role : option api_Role) (meth : Method) :
  newMethod r svc md optsList role = Ok meth ->
  indexed meth /\
  Method_Service (Method_ref meth) = svc /\ Method_proto (Method_ref meth) = md.
Proof.
  exact (newMethod_keeps r svc md optsList role meth).
Qed.

(** X12. With default generation off, a method with no external override
    and no inline rule gets no binding and no error: whenever its
    resolution succeeds the method has no bindings, and it does succeed
    when the role annotation is accepted and the request and response
    types resolve. *)
Theorem loadServices_method_unbound (r : Registry) (svc : ServiceRef)
    (md : MethodDescriptorProto) :
  inline_rule md = None ->
  LookupExternalHTTPRules r (Method_FQMN svc md) = [] ->
  generateUnboundMethods r = false ->
  (forall meth, loadServices_method r svc md = Ok meth -> Bindings meth = []) /\
  (forall role requestType responseType,
     extractRoleOptions md = Ok role ->
     LookupMsg r (fd_Package (Service_File svc)) (md_InputType md) = inr requestType ->
     LookupMsg r (fd_Package (Service_File svc)) (md_OutputType md) = inr responseType ->
     exists meth, loadServices_method r svc md = Ok meth /\ Bindings meth = []).
Proof.
  intros Hinline Hext Hgen.
  assert (Hunfold : loadServices_method r svc md
                    = role ← extractRoleOptions md; newMethod r svc md [] role).
  { unfold loadServices_method. rewrite extractAPIOptions_inline, Hinline, Hext, Hgen.
    reflexivity. }
  rewrite Hunfold. split.
  - intros meth. destruct (extractRoleOptions md) as [role | e |]; simpl; try discriminate.
    unfold newMethod.
    destruct (LookupMsg r (fd_Package (Service_File svc)) (md_InputType md))
      as [e | requestType]; simpl; try discriminate.
    destruct (LookupMsg r (fd_Package (Service_File svc)) (md_OutputType md))
      as [e | responseType]; simpl; try discriminate.
    intros [= <-]. reflexivity.
  - intros role requestType responseType Hrole Hreq Hresp.
    rewrite Hrole. simpl. unfold newMethod. rewrite Hreq, Hresp. simpl.
    eexists. split; reflexivity.
Qed.

End method_more.

Lemma newMethod_nested_additional_bindings_witness :
  applyOpts demo.reg demo.Library demo.GetBook
    {| Method_ref := demo.getBook; Bindings := [] |} rule_nested
  = Err (ErrNestedAdditionalBinding "Library" "GetBook").
Proof.
  eapply (proj2 (newMethod_nested_additional_bindings demo.reg demo.Library demo.GetBook
                   [rule_nested] None _)
                {| Method_ref := demo.getBook; Bindings := [] |} rule_nested).
  - reflexivity.
  - discriminate.
  - vm_compute. reflexivity.
  Unshelve. repeat constructor. discriminate.
Defined.

Lemma newMethod_indexed_witness :
  exists meth,
    newMethod demo.reg demo.Library demo.GetBook [rule_three_routes] None = Ok meth
    /\ length (Bindings meth) = 3 /\ indexed meth.
Proof.
  destruct (newMethod demo.reg demo.Library demo.GetBook [rule_three_routes] None)
    as [meth | e |] eqn:Hm; [| vm_compute in Hm; discriminate Hm ..].
  exists meth. split; [reflexivity |]. split.
  - vm_compute in Hm. injection Hm as <-. reflexivity.
  - apply (newMethod_indexed demo.reg demo.Library demo.GetBook [rule_three_routes] None
             meth Hm).
Defined.

Lemma loadServices_method_unbound_witness :
  exists meth,
    loadServices_method reg_no_default demo.Library demo.GetBook = Ok meth
    /\ Bindings meth = [].
Proof.
  eapply (proj2 (loadServices_method_unbound reg_no_default demo.Library demo.GetBook
                   eq_refl eq_refl eq_refl)).
  - reflexivity.
  - vm_compute. reflexivity.
  - vm_compute. reflexivity.
Defined.

(** ** loadServices *)

Section loading_more.
Context `{Externals}.

Lemma bind_Ok {A B : Type} (c : outcome A) (k : A -> outcome B) (b : B) :
  c ≫= k = Ok b -> exists a, c = Ok a /\ k a = Ok b.
Proof. destruct c as [a | e |]; simpl; try discriminate. eauto. Qed.

Lemma same_settings_refl (r : Registry) : same_settings r r.
Proof. repeat split. Qed.

Lemma same_settings_trans (r1 r2 r3 : Registry) :
  same_settings r1 r2 -> same_settings r2 r3 -> same_settings r1 r3.
Proof. unfold same_settings. intuition congruence. Qed.

Lemma stored_last_nil (table : gmap string Method) (k : string) :
  stored_last table [] k = table !! k.
Proof. reflexivity. Qed.

Lemma stored_last_app (table table' : gmap string Method) (l1 l2 : list Method) :
  (forall k, table' !! k = stored_last table l1 k) ->
  forall k, stored_last table' l2 k = stored_last table (l1 ++ l2) k.
Proof.
  intros Htable k. unfold stored_last. rewrite filter_app.
  destruct (filter (fun m => FQMN m = k) l2) as [| m l] eqn:Hl2 using rev_ind.
  - rewrite app_nil_r. simpl. rewrite Htable. reflexivity.
  - rewrite app_assoc, !last_snoc. reflexivity.
Qed.

Lemma stored_last_insert (table : gmap string Method) (m : Method) :
  forall k, <[FQMN m := m]> table !! k = stored_last table [m] k.
Proof.
  intros k. unfold stored_last. destruct (decide (FQMN m = k)) as [Heq | Hne].
  - rewrite filter_cons_True by exact Heq. simpl. rewrite <- Heq.
    apply lookup_insert_eq.
  - rewrite filter_cons_False by exact Hne. simpl. apply lookup_insert_ne. exact Hne.
Qed.

Lemma loadServices_method_keeps (r : Registry) (svc : ServiceRef)
    (md : MethodDescriptorProto) (meth : Method) :
  loadServices_method r svc md = Ok meth ->
  indexed meth /\
  Method_Service (Method_ref meth) = svc /\ Method_proto (Method_ref meth) = md.
Proof.
  unfold loadServices_method.
  destruct (extractAPIOptions md) as [opts | e |]; simpl; try discriminate.
  destruct (extractRoleOptions md) as [role | e |]; simpl; try discriminate.
  intros Hmeth. apply bind_Ok in Hmeth as (optsList & _ & Hmeth).
  eapply newMethod_keeps. exact Hmeth.
Qed.

(** The loop over the methods of a service. *)
Lemma loadServices_methods_spec (r : Registry) (svc : ServiceRef)
    (mds : list MethodDescriptorProto) (methods : list Method)
    (r' : Registry) (methods' : list Method) :
  loadServices_methods r svc mds methods = Ok (r', methods') ->
  exists news,
    methods' = methods ++ news /\
    map (fun m => Method_proto (Method_ref m)) news = mds /\
    Forall (fun m => Method_Service (Method_ref m) = svc /\ indexed m) news /\
    same_settings r r' /\
    forall k, meths r' !! k = stored_last (meths r) news k.
Proof.
  revert r methods. induction mds as [| md mds IH]; intros r methods; simpl.
  - intros [= <- <-]. exists []. rewrite app_nil_r.
    repeat split; try constructor.
  - destruct (loadServices_method r svc md) as [meth | e |] eqn:Hmeth;
      simpl; try discriminate.
    intros Hrest. apply IH in Hrest as (news & -> & Hproto & Hall & Hsame & Htable).
    apply loadServices_method_keeps in Hmeth as (Hidx & Hsvc & Hmd).
    exists (meth :: news). rewrite <- app_assoc. split; [reflexivity |].
    split; [simpl; congruence |]. split; [constructor; auto |].
    split; [exact Hsame |].
    intros k. rewrite Htable.
    change (meth :: news) with ([meth] ++ news).
    apply stored_last_app. intros k'. cbn [meths register_method].
    rewrite <- Hsvc, <- Hmd at 1. apply stored_last_insert.
Qed.

(** The loop over the services of the file. *)
Lemma loadServices_services_spec (r0 r : Registry) (file : FileDescriptorProto)
    (sds : list ServiceDescriptorProto) (svcs : list Service)
    (r' : Registry) (svcs' : list Service) :
  standalone r = standalone r0 ->
  loadServices_services r file sds svcs = Ok (r', svcs') ->
  exists news,
    svcs' = svcs ++ news /\
    map Service_ref news = map (service_of r0 file) (filter (fun sd => declares_methods sd = true) sds) /\
    Forall (fun s =>
              map (fun m => Method_proto (Method_ref m)) (Methods s)
              = sd_Method (Service_proto (Service_ref s)) /\
              Forall (fun m => Method_Service (Method_ref m) = Service_ref s /\ indexed m)
                     (Methods s)) news /\
    same_settings r r' /\
    forall k, meths r' !! k = stored_last (meths r) (loaded_methods news) k.
Proof.
  revert r svcs. induction sds as [| sd sds IH]; intros r svcs Hstandalone; simpl.
  - intros [= <- <-]. exists []. rewrite app_nil_r.
    repeat split; try constructor.
  - destruct (loadServices_methods r _ (sd_Method sd) []) as [[r1 methods] | e |] eqn:Hloop;
      simpl; try discriminate.
    apply loadServices_methods_spec in Hloop
      as (news_m & Hmethods & Hproto & Hall & Hsame1 & Htable1).
    simpl in Hmethods. subst methods.
    assert (Hstandalone1 : standalone r1 = standalone r0).
    { destruct Hsame1 as (_ & _ & _ & Hs & _). congruence. }
    assert (Hdecl : declares_methods sd = negb (Nat.eqb (length news_m) 0)).
    { unfold declares_methods. rewrite <- Hproto, length_map. reflexivity. }
    destruct news_m as [| m news_m]; simpl in Hdecl |- *.
    + rewrite filter_cons_False by (rewrite Hdecl; discriminate).
      intros Hrest. apply (IH r1 svcs Hstandalone1) in Hrest
        as (news & -> & Hrefs & Hall' & Hsame & Htable).
      exists news. split; [reflexivity |]. split; [exact Hrefs |].
      split; [exact Hall' |]. split; [eapply same_settings_trans; eassumption |].
      intros k. rewrite Htable. unfold stored_last.
      destruct (last _); [reflexivity |]. rewrite Htable1. reflexivity.
    + rewrite filter_cons_True by exact Hdecl.
      intros Hrest. apply (IH r1 _ Hstandalone1) in Hrest
        as (news & -> & Hrefs & Hall' & Hsame & Htable).
      eexists (_ :: news). rewrite <- app_assoc. split; [reflexivity |].
      split; [| split; [| split]].
      * cbn [map Service_ref]. rewrite Hrefs. unfold service_of at 2.
        rewrite Hstandalone. reflexivity.
      * constructor; [| exact Hall']. cbn [Methods Service_ref Service_proto].
        split; [exact Hproto | exact Hall].
      * eapply same_settings_trans; eassumption.
      * intros k. rewrite Htable. unfold loaded_methods. cbn [flat_map Methods].
        apply stored_last_app. exact Htable1.
Qed.

Lemma loadServices_inv (r : Registry) (file : File) (r' : Registry) (file' : File) :
  loadServices r file = Ok (r', file') ->
  File_proto file' = File_proto file /\ File_Messages file' = File_Messages file /\
  loadServices_services r (File_proto file) (fd_Service (File_proto file)) []
  = Ok (r', Services file').
Proof.
  unfold loadServices.
  destruct (loadServices_services r _ _ []) as [[r1 svcs] | e |]; simpl; try discriminate.
  intros [= <- <-]. repeat split.
Qed.

(** X13. The services that [loadServices] stores in the file are those of
    the file's service descriptors that declare a method, in the order of
    the descriptors: each is built for its descriptor, for the file and
    with the registry's standalone flag, and holds one method per method
    descriptor, in order, each pointing back to the service and keeping
    its bindings indexed. The file's descriptor and messages are kept. *)
Theorem loadServices_services_loaded (r : Registry) (file : File) (r' : Registry)
    (file' : File) :
  loadServices r file = Ok (r', file') ->
  File_proto file' = File_proto file /\ File_Messages file' = File_Messages file /\
  map Service_ref (Services file')
  = map (service_of r (File_proto file))
        (filter (fun sd => declares_methods sd = true) (fd_Service (File_proto file))) /\
  Forall (fun s =>
            map (fun m => Method_proto (Method_ref m)) (Methods s)
            = sd_Method (Service_proto (Service_ref s)) /\
            Forall (fun m => Method_Service (Method_ref m) = Service_ref s /\ indexed m)
                   (Methods s)) (Services file').
Proof.
  intros Hload. apply loadServices_inv in Hload as (Hproto & Hmsgs & Hloop).
  apply (loadServices_services_spec r) in Hloop
    as (news & Hsvcs & Hrefs & Hall & _ & _); [| reflexivity].
  simpl in Hsvcs. subst news. auto.
Qed.

(** X14. [loadServices] changes the registry in its method table only,
    and there it stores every method of the services it returns under the
    method's fully-qualified name: a name that several loaded methods
    share ends up with the last of them, any other key keeps its entry. *)
Theorem loadServices_registers (r : Registry) (file : File) (r' : Registry)
    (file' : File) :
  loadServices r file = Ok (r', file') ->
  same_settings r r' /\
  forall k, meths r' !! k = stored_last (meths r) (loaded_methods (Services file')) k.
Proof.
  intros Hload. apply loadServices_inv in Hload as (_ & _ & Hloop).
  apply (loadServices_services_spec r) in Hloop
    as (news & Hsvcs & _ & _ & Hsame & Htable); [| reflexivity].
  simpl in Hsvcs. subst news. auto.
Qed.

End loading_more.

Lemma loadServices_services_loaded_witness :
  exists r' file',
    loadServices demo.reg load_demo.file = Ok (r', file') /\
    map Service_GetName (map Service_ref (Services file')) = ["Library"; "Archive"].
Proof.
  destruct (loadServices demo.reg load_demo.file) as [[r' file'] | e |] eqn:Hload;
    [| vm_compute in Hload; discriminate Hload ..].
  exists r', file'. split; [reflexivity |].
  destruct (loadServices_services_loaded demo.reg load_demo.file r' file' Hload)
    as (_ & _ & Hrefs & _).
  rewrite Hrefs. reflexivity.
Defined.

Lemma loadServices_registers_witness :
  exists r' file',
    loadServices demo.reg load_demo.file = Ok (r', file') /\ same_settings demo.reg r'.
Proof.
  destruct (loadServices demo.reg load_demo.file) as [[r' file'] | e |] eqn:Hload;
    [| vm_compute in Hload; discriminate Hload ..].
  exists r', file'. split; [reflexivity |].
  apply (loadServices_registers demo.reg load_demo.file r' file' Hload).
Defined.

(* ===================================================================== *)
(** * Further properties of the SDK generator                             *)
(* ===================================================================== *)

(** ** The registration loop of applyTemplate *)

Section targets_more.
Context `{Externals}.





Lemma service_keys_annotationMap (reg : Registry) (s : Service)
    (key : string * string * string) :
  key ∈ annotationMap (register_routes reg (rename_service (Service_ref s))
                         (routes (flat_map Bindings (Methods s))))
  <-> key ∈ service_keys s \/ key ∈ annotationMap reg.
Proof. apply register_routes_annotationMap. Qed.

Lemma NoDup_route_keys (svc : ServiceRef) (ks : list (string * string)) :
  NoDup (map (route_key svc) ks) <-> NoDup ks.
Proof.
  split.
  - apply NoDup_fmap_1.
  - intros Hnodup. apply NoDup_fmap_2_strong; [| exact Hnodup].
    intros k1 k2 _ _. apply route_key_inj.
Qed.


Lemma bound_flat_map (ms : list Method) :
  match flat_map Bindings ms with [] => false | _ => true end = existsb bound ms.
Proof.
  induction ms as [| m ms IH]; [reflexivity |].
  cbn [flat_map existsb]. unfold bound at 1.
  destruct (Bindings m) as [| b bs]; [exact IH | reflexivity].
Qed.

(** The loop over the services of the file, when every binding is built
    and the routes are pairwise distinct and not registered yet. *)
Lemma applyTemplate_services_run (reg : Registry) (svcs targets : list Service) :
  Forall built svcs -> NoDup (file_keys svcs) ->
  (forall key, key ∈ file_keys svcs -> key ∉ annotationMap reg) ->
  exists reg',
    applyTemplate_services reg svcs targets
    = Ok (reg', targets ++ map renamed (filter (fun s => targeted s = true) svcs)).
Proof.
  revert reg targets. induction svcs as [| s svcs IH]; intros reg targets Hbuilt Hnodup Hfresh.
  - exists reg. simpl. rewrite app_nil_r. reflexivity.
  - inversion Hbuilt as [| ? ? Hbuilt_s Hbuilt']; subst.
    cbn [file_keys flat_map] in Hnodup, Hfresh. fold (file_keys svcs) in Hnodup, Hfresh.
    apply NoDup_app in Hnodup as (Hnodup_s & Hdisj & Hnodup').
    assert (Hmethods :
              applyTemplate_methods reg (rename_service (Service_ref s)) [] (Methods s) false
              = Ok (register_routes reg (rename_service (Service_ref s))
                      (routes (flat_map Bindings (Methods s))),
                    map rename_method (Methods s), targeted s)).
    { rewrite <- (app_nil_r (Methods s)) at 1.
      rewrite applyTemplate_methods_prefix.
      - cbn [applyTemplate_methods app]. rewrite bound_flat_map. reflexivity.
      - unfold built in Hbuilt_s. clear -Hbuilt_s.
        induction Hbuilt_s as [| m ms Hm _ IHms]; [constructor |].
        cbn [flat_map]. apply Forall_app. split; assumption.
      - apply NoDup_route_keys in Hnodup_s. exact Hnodup_s.
      - intros k Hk. apply Hfresh, elem_of_app. left.
        apply list_elem_of_fmap. eauto. }
    destruct (IH (register_routes reg (rename_service (Service_ref s))
                    (routes (flat_map Bindings (Methods s))))
                 (if targeted s then targets ++ [renamed s] else targets)
                 Hbuilt' Hnodup') as [reg' Hrun].
    + intros key Hkey Hin. apply service_keys_annotationMap in Hin as [Hin | Hin].
      * apply (Hdisj key); assumption.
      * apply (Hfresh key); [apply elem_of_app; auto | exact Hin].
    + exists reg'. cbn [applyTemplate_services]. cbv zeta. rewrite Hmethods.
      cbn [mbind outcome_bind]. fold (renamed s). rewrite Hrun. f_equal. f_equal.
      destruct (targeted s) eqn:Htargeted.
      * rewrite filter_cons_True by exact Htargeted. rewrite <- app_assoc. reflexivity.
      * rewrite filter_cons_False by (rewrite Htargeted; discriminate). reflexivity.
Qed.

Lemma targeted_filter (svcs : list Service) :
  Nat.eqb (length (map renamed (filter (fun s => targeted s = true) svcs))) 0
  = negb (existsb targeted svcs).
Proof.
  induction svcs as [| s svcs IH]; [reflexivity |].
  cbn [existsb]. destruct (targeted s) eqn:Htargeted.
  - rewrite filter_cons_True by exact Htargeted. reflexivity.
  - rewrite filter_cons_False by (rewrite Htargeted; discriminate). exact IH.
Qed.

(** X15. A file in which no method has a binding is reported as having no
    target service, whatever the registry holds; this is so in particular
    for a file without services. *)
Theorem applyTemplate_unbound_file (p : File) (reg : Registry) :
  Forall (fun s => Forall (fun m => Bindings m = []) (Methods s)) (Services p) ->
  applyTemplate p reg = Err ErrNoTargetService.
Proof.
  intros Hunbound.
  assert (Hflat : forall s, s ∈ Services p -> flat_map Bindings (Methods s) = []).
  { intros s Hs. rewrite Forall_forall in Hunbound. specialize (Hunbound s Hs).
    induction Hunbound as [| m ms Hm _ IHms]; [reflexivity |].
    cbn [flat_map]. rewrite Hm. exact IHms. }
  assert (Hkeys : file_keys (Services p) = []).
  { revert Hflat. generalize (Services p). intros svcs Hflat.
    induction svcs as [| s svcs IH]; [reflexivity |].
    cbn [file_keys flat_map]. unfold service_keys at 1.
    rewrite (Hflat s) by (apply elem_of_cons; auto). simpl. apply IH.
    intros s' Hs'. apply Hflat. apply elem_of_cons. auto. }
  destruct (applyTemplate_services_run reg (Services p) []) as [reg' Hrun].
  - rewrite Forall_forall in Hunbound |- *. intros s Hs. specialize (Hunbound s Hs).
    unfold built. eapply Forall_impl; [exact Hunbound |].
    intros m Hm. simpl in Hm. rewrite Hm. constructor.
  - rewrite Hkeys. constructor.
  - rewrite Hkeys. intros key Hkey. apply elem_of_nil in Hkey. contradiction.
  - unfold applyTemplate. rewrite Hrun. cbn [mbind outcome_bind app].
    rewrite targeted_filter.
    assert (Hnone : existsb targeted (Services p) = false).
    { clear Hrun Hkeys. revert Hflat. generalize (Services p). intros svcs Hflat.
      induction svcs as [| s svcs IH]; [reflexivity |].
      cbn [existsb]. unfold targeted at 1. rewrite <- bound_flat_map.
      rewrite (Hflat s) by (apply elem_of_cons; auto). simpl. apply IH.
      intros s' Hs'. apply Hflat. apply elem_of_cons. auto. }
    rewrite Hnone. reflexivity.
Qed.




End targets_more.

Lemma applyTemplate_unbound_file_witness :
  applyTemplate target_demo.unbound_file demo.reg = Err ErrNoTargetService.
Proof.
  apply (applyTemplate_unbound_file target_demo.unbound_file demo.reg).
  repeat constructor.
Defined.




Lemma applyTemplate_methods_duplicate_witness :
  exists names,
    applyTemplate_methods demo.reg demo.Library [] (Methods route_demo.library) false
    = Err (ErrDuplicateRoute "Library" "GET" "/v1/books/{id}" names) /\
    "GetBook" ∈ names /\ "FetchBook" ∈ names.
Proof.
  destruct (applyTemplate_methods_duplicate demo.reg demo.Library
              [ {| Method_ref := demo.getBook;
                   Bindings := [Some (route_demo.binding demo.getBook "GET"
                                        "/v1/books/{id}")] |} ]
              []
              {| Method_ref := route_demo.fetch_book;
                 Bindings := [Some (route_demo.binding route_demo.fetch_book "GET"
                                      "/v1/books/{id}")] |}
              [] [] (route_demo.binding route_demo.fetch_book "GET" "/v1/books/{id}")
              false) as (names & Herr & Hnames).
  - reflexivity.
  - repeat constructor. eexists. reflexivity.
  - vm_compute. repeat constructor. apply not_elem_of_nil.
  - intros k _. apply not_elem_of_empty.
  - vm_compute. repeat constructor.
  - exists names. split; [exact Herr |]. split.
    + apply (Hnames {| Method_ref := demo.getBook;
                       Bindings := [Some (route_demo.binding demo.getBook "GET"
                                            "/v1/books/{id}")] |}
                    (route_demo.binding demo.getBook "GET" "/v1/books/{id}"));
        try reflexivity; repeat constructor.
    + apply (Hnames {| Method_ref := route_demo.fetch_book;
                       Bindings := [Some (route_demo.binding route_demo.fetch_book "GET"
                                            "/v1/books/{id}")] |}
                    (route_demo.binding route_demo.fetch_book "GET" "/v1/books/{id}"));
        try reflexivity; repeat constructor.
Defined.

(** ** equalPath *)

Lemma equalPath_loop_drop (a b : list Z) (n i : nat) :
  i + n = length a -> length b = length a ->
  equalPath_loop a b (seq i n) = Ok (bool_decide (drop i a = drop i b)).
Proof.
  revert i. induction n as [| n IH]; intros i Ha Hb.
  - simpl. rewrite !drop_ge by lia. rewrite bool_decide_eq_true_2; reflexivity.
  - cbn [seq equalPath_loop].
    destruct (lookup_lt_is_Some_2 a i) as [x Hx]; [lia |].
    destruct (lookup_lt_is_Some_2 b i) as [y Hy]; [lia |].
    rewrite Hx, Hy. rewrite (drop_S a x i Hx), (drop_S b y i Hy).
    destruct (Z.eqb_spec x y) as [-> | Hne]; simpl.
    + rewrite IH by lia. f_equal. apply bool_decide_ext.
      split; [intros ->; reflexivity | intros [= ->]; reflexivity].
    + f_equal. symmetry. apply bool_decide_eq_false_2. intros [= Heq _]. contradiction.
Qed.

(** X20. [equalPath] returns true exactly when the two paths are equal,
    element by element; it returns for all inputs (no index is read past
    the end of a slice). *)
Theorem equalPath_eq (a b : list Z) :
  equalPath a b = Ok (bool_decide (a = b)).
Proof.
  unfold equalPath. destruct (Nat.eqb_spec (length a) (length b)) as [Hlen | Hlen]; simpl.
  - apply (equalPath_loop_drop a b (length a) 0); [reflexivity | symmetry; exact Hlen].
  - f_equal. symmetry. apply bool_decide_eq_false_2. intros ->. contradiction.
Qed.

(** ** getImports *)

Section imports.
Context `{Externals}.

Lemma holds_insert (importMap : gmap string bool) (k k' : string) (v : bool) :
  holds (<[k' := v]> importMap) k = bool_decide (k' = k) || holds importMap k.
Proof.
  unfold holds. destruct (decide (k' = k)) as [-> | Hne].
  - rewrite lookup_insert_eq, bool_decide_eq_true_2; reflexivity.
  - rewrite lookup_insert_ne by exact Hne. rewrite bool_decide_eq_false_2 by exact Hne.
    reflexivity.
Qed.

Lemma getImports_method_spec (importMap : gmap string bool) (m : Method) :
  if first_nil m then getImports_method importMap m = Panic
  else exists importMap',
      getImports_method importMap m = Ok importMap' /\
      holds importMap' "strings"
      = holds importMap "strings" || existsb has_path_params (first_bindings [m]) /\
      holds importMap' "net/url"
      = holds importMap "net/url"
        || (existsb has_path_params (first_bindings [m]) || existsb has_query [m]) /\
      holds importMap' "bytes"
      = holds importMap "bytes" || existsb has_body (first_bindings [m]).
Proof.
  unfold first_nil. destruct (Bindings m) as [| [b |] rest] eqn:Hb.
  - assert (Hfirst : first_bindings [m] = []).
    { unfold first_bindings. simpl. rewrite Hb. reflexivity. }
    assert (Hquery : has_query m = false).
    { unfold has_query, hasQueryParams. rewrite Hb. reflexivity. }
    unfold getImports_method. cbn [existsb]. rewrite Hb, Hfirst, Hquery. simpl.
    exists importMap.
    rewrite !orb_false_r. auto.
  - assert (Hfirst : first_bindings [m] = [b]).
    { unfold first_bindings. simpl. rewrite Hb. reflexivity. }
    pose proof (hasQueryParams_first m b rest Hb) as Hquery.
    cbn [existsb]. unfold getImports_method, has_query. rewrite Hb, Hquery, Hfirst.
    cbn [length Nat.eqb lookup list_lookup mbind outcome_bind existsb].
    generalize (if whole_message_body b then false
                else hasQueryParams_loop (query_fields b)
                       (Message_Fields (RequestType (Binding_Method b)))).
    intros q. eexists. split; [reflexivity |].
    unfold has_path_params, has_body.
    destruct (Nat.eqb (length (PathParams b)) 0); destruct q;
      destruct (Binding_Body b); cbn [negb];
      rewrite ?holds_insert; simpl; rewrite ?orb_false_r, ?orb_true_r; auto.
  - unfold getImports_method. rewrite Hb. reflexivity.
Qed.

Lemma first_bindings_app (l1 l2 : list Method) :
  first_bindings (l1 ++ l2) = first_bindings l1 ++ first_bindings l2.
Proof. apply omap_app. Qed.

Lemma getImports_methods_spec (importMap : gmap string bool) (ms : list Method) :
  if existsb first_nil ms then getImports_methods importMap ms = Panic
  else exists importMap',
      getImports_methods importMap ms = Ok importMap' /\
      holds importMap' "strings"
      = holds importMap "strings" || existsb has_path_params (first_bindings ms) /\
      holds importMap' "net/url"
      = holds importMap "net/url"
        || (existsb has_path_params (first_bindings ms) || existsb has_query ms) /\
      holds importMap' "bytes"
      = holds importMap "bytes" || existsb has_body (first_bindings ms).
Proof.
  revert importMap. induction ms as [| m ms IH]; intros importMap.
  - simpl. exists importMap. rewrite !orb_false_r. auto.
  - change (m :: ms) with ([m] ++ ms).
    rewrite first_bindings_app, !existsb_app.
    change (existsb first_nil [m]) with (first_nil m || false). rewrite orb_false_r.
    cbn [getImports_methods app].
    pose proof (getImports_method_spec importMap m) as Hm.
    destruct (first_nil m); cbn [orb].
    + rewrite Hm. reflexivity.
    + destruct Hm as (im1 & -> & Hs & Hu & Hb). cbn [mbind outcome_bind].
      specialize (IH im1). destruct (existsb first_nil ms); [exact IH |].
      destruct IH as (im2 & -> & Hs' & Hu' & Hb'). exists im2. split; [reflexivity |].
      rewrite Hs', Hu', Hb', Hs, Hu, Hb.
      repeat split;
        repeat match goal with
               | |- context [holds importMap ?k] => destruct (holds importMap k)
               | |- context [existsb ?f ?l] => destruct (existsb f l)
               end; reflexivity.
Qed.

Lemma getImports_services_spec (importMap : gmap string bool) (services : list Service) :
  if existsb first_nil (flat_map Methods services)
  then getImports_services importMap services = Panic
  else exists importMap',
      getImports_services importMap services = Ok importMap' /\
      holds importMap' "strings"
      = holds importMap "strings"
        || existsb has_path_params (first_bindings (flat_map Methods services)) /\
      holds importMap' "net/url"
      = holds importMap "net/url"
        || (existsb has_path_params (first_bindings (flat_map Methods services))
            || existsb has_query (flat_map Methods services)) /\
      holds importMap' "bytes"
      = holds importMap "bytes"
        || existsb has_body (first_bindings (flat_map Methods services)).
Proof.
  revert importMap. induction services as [| s services IH]; intros importMap.
  - simpl. exists importMap. rewrite !orb_false_r. auto.
  - cbn [flat_map getImports_services]. rewrite first_bindings_app, !existsb_app.
    pose proof (getImports_methods_spec importMap (Methods s)) as Hs.
    destruct (existsb first_nil (Methods s)); cbn [orb].
    + rewrite Hs. reflexivity.
    + destruct Hs as (im1 & -> & Hs & Hu & Hb). cbn [mbind outcome_bind].
      specialize (IH im1). destruct (existsb first_nil (flat_map Methods services));
        [exact IH |].
      destruct IH as (im2 & -> & Hs' & Hu' & Hb'). exists im2. split; [reflexivity |].
      rewrite Hs', Hu', Hb', Hs, Hu, Hb.
      repeat split;
        repeat match goal with
               | |- context [holds importMap ?k] => destruct (holds importMap k)
               | |- context [existsb ?f ?l] => destruct (existsb f l)
               end; reflexivity.
Qed.

(** X21. [getImports] panics exactly when some method has a nil first
    binding. Otherwise it returns the four fixed imports followed, in this
    order, by [strings] when the first binding of some method has a path
    parameter, by [net/url] when the first binding of some method has a
    path parameter or [hasQueryParams] holds of some method, and by
    [bytes] when the first binding of some method has a body. *)
Theorem getImports_imports (services : list Service) :
  getImports services
  = if existsb first_nil (flat_map Methods services) then Panic
    else Ok (["context"; "fmt"; "io"; "net/http"]
               ++ added_imports (flat_map Methods services)).
Proof.
  unfold getImports. cbv zeta.
  pose proof (getImports_services_spec ∅ services) as Hloop.
  destruct (existsb first_nil (flat_map Methods services)).
  - rewrite Hloop. reflexivity.
  - destruct Hloop as (importMap & -> & Hs & Hu & Hb). cbn [mbind outcome_bind].
    unfold holds in Hs, Hu, Hb. rewrite !lookup_empty in Hs, Hu, Hb.
    cbn [orb] in Hs, Hu, Hb.
    unfold added_imports. rewrite <- Hu, <- Hs, <- Hb.
    destruct (importMap !! "strings"), (importMap !! "net/url"), (importMap !! "bytes");
      reflexivity.
Qed.

End imports.

(* ===================================================================== *)
(** * Properties of Plural2Singular                                       *)
(* ===================================================================== *)

(** ** Strings *)

Lemma append_nil (b : string) : "" +:+ b = b.
Proof. reflexivity. Qed.

Lemma append_cons (c : ascii) (a b : string) : String c a +:+ b = String c (a +:+ b).
Proof. reflexivity. Qed.

Lemma length_append (a b : string) :
  String.length (a +:+ b) = String.length a + String.length b.
Proof.
  induction a as [| c a IH]; [reflexivity |].
  rewrite append_cons. simpl. rewrite IH. reflexivity.
Qed.

Lemma append_assoc (a b c : string) : (a +:+ b) +:+ c = a +:+ (b +:+ c).
Proof.
  induction a as [| x a IH]; [reflexivity |].
  rewrite !append_cons, IH. reflexivity.
Qed.

Lemma substring_all (b : string) : substring 0 (String.length b) b = b.
Proof. induction b as [| c b IH]; simpl; [reflexivity | rewrite IH; reflexivity]. Qed.

Lemma substring_append_l (a b : string) :
  substring 0 (String.length a) (a +:+ b) = a.
Proof.
  induction a as [| c a IH].
  - rewrite append_nil. destruct b; reflexivity.
  - rewrite append_cons. simpl. rewrite IH. reflexivity.
Qed.

Lemma substring_append_r (a b : string) :
  substring (String.length a) (String.length b) (a +:+ b) = b.
Proof.
  induction a as [| c a IH].
  - rewrite append_nil. apply substring_all.
  - rewrite append_cons. simpl. exact IH.
Qed.

Lemma substring_split (n : nat) (s : string) :
  n <= String.length s ->
  s = substring 0 n s +:+ substring n (String.length s - n) s.
Proof.
  revert n. induction s as [| c s IH]; intros n Hn; simpl in Hn.
  - assert (n = 0) as -> by lia. reflexivity.
  - destruct n as [| n].
    + simpl. rewrite substring_all. reflexivity.
    + simpl. rewrite append_cons. rewrite <- IH by lia. reflexivity.
Qed.

(** Two ways to split a string before a suffix of the same length. *)
Lemma append_inj (a b x y : string) :
  a +:+ x = b +:+ y -> String.length x = String.length y -> a = b /\ x = y.
Proof.
  revert b. induction a as [| c a IH]; intros b Heq Hlen.
  - destruct b as [| d b]; rewrite ?append_nil, ?append_cons in Heq.
    + auto.
    + subst x. simpl in Hlen. rewrite length_append in Hlen. lia.
  - destruct b as [| d b]; rewrite ?append_nil, ?append_cons in Heq.
    + subst y. simpl in Hlen. rewrite length_append in Hlen. lia.
    + injection Heq as -> Heq. destruct (IH b Heq Hlen) as [-> ->]. auto.
Qed.

Section plurals.
Context `{parser.GoStrings}.
Import parser.

Lemma strings_HasSuffix_spec (s suffix : string) :
  strings_HasSuffix s suffix = true <-> exists stem, s = stem +:+ suffix.
Proof.
  unfold strings_HasSuffix. split.
  - intros Hs. apply andb_prop in Hs as [Hlen Heq].
    apply Nat.leb_le in Hlen. apply String.eqb_eq in Heq.
    exists (substring 0 (String.length s - String.length suffix) s).
    pose proof (substring_split (String.length s - String.length suffix) s) as Hsplit.
    replace (String.length s - (String.length s - String.length suffix))
      with (String.length suffix) in Hsplit by lia.
    rewrite Heq in Hsplit. apply Hsplit. lia.
  - intros [stem ->]. rewrite length_append.
    replace (String.length stem + String.length suffix - String.length suffix)
      with (String.length stem) by lia.
    rewrite substring_append_r, String.eqb_refl, andb_true_r.
    apply Nat.leb_le. lia.
Qed.

(** What [word[:len(word)-len(suffix)]] is for a word with that suffix. *)
Lemma trim_suffix (stem suffix : string) :
  substring 0 (String.length (stem +:+ suffix) - String.length suffix) (stem +:+ suffix)
  = stem.
Proof.
  rewrite length_append.
  replace (String.length stem + String.length suffix - String.length suffix)
    with (String.length stem) by lia.
  apply substring_append_l.
Qed.

Lemma strings_HasSuffix_longer (s x y : string) :
  strings_HasSuffix s (x +:+ y) = true -> strings_HasSuffix s y = true.
Proof.
  intros Hs. apply strings_HasSuffix_spec in Hs as [stem ->].
  apply strings_HasSuffix_spec. exists (stem +:+ x). apply eq_sym, append_assoc.
Qed.

Lemma strings_HasSuffix_conflict (s x y : string) :
  strings_HasSuffix s x = true -> strings_HasSuffix s y = true ->
  String.length x = String.length y -> x = y.
Proof.
  intros Hx Hy Hlen.
  apply strings_HasSuffix_spec in Hx as [a ->].
  apply strings_HasSuffix_spec in Hy as [b Heq].
  apply append_inj in Heq; [tauto | exact Hlen].
Qed.

Lemma strings_HasSuffix_append (stem x y : string) :
  strings_HasSuffix (stem +:+ y) (x +:+ y) = strings_HasSuffix stem x.
Proof.
  destruct (strings_HasSuffix stem x) eqn:Hstem.
  - apply strings_HasSuffix_spec in Hstem as [a ->].
    apply strings_HasSuffix_spec. exists a. apply append_assoc.
  - destruct (strings_HasSuffix (stem +:+ y) (x +:+ y)) eqn:Hs; [| reflexivity].
    apply strings_HasSuffix_spec in Hs as [a Heq].
    rewrite <- append_assoc in Heq. apply append_inj in Heq as [-> _]; [| reflexivity].
    rewrite <- Hstem. symmetry. apply strings_HasSuffix_spec. eauto.
Qed.

Lemma strings_HasSuffix_length (s suffix : string) :
  strings_HasSuffix s suffix = true -> String.length suffix <= String.length s.
Proof.
  unfold strings_HasSuffix. intros Hs. apply andb_prop in Hs as [Hlen _].
  apply Nat.leb_le. exact Hlen.
Qed.

Lemma irregulars_inv (w singular : string) :
  irregulars !! w = Some singular ->
  (w, singular) ∈ [ ("men", "man"); ("women", "woman"); ("children", "child");
                    ("feet", "foot"); ("teeth", "tooth"); ("geese", "goose");
                    ("mice", "mouse"); ("people", "person") ].
Proof. unfold irregulars. apply elem_of_list_to_map_2. Qed.

Ltac irregular_cases Hin :=
  repeat (apply elem_of_cons in Hin as [Hin | Hin];
          [injection Hin as ? ? |]);
  [.. | apply elem_of_nil in Hin; contradiction].

(** The four outcomes of [Plural2Singular] on the lowered word [w]. *)
Lemma Plural2Singular_cases (word : string) :
  let w := strings_ToLower word in
  (exists singular, irregulars !! w = Some singular
                    /\ Plural2Singular word = (singular, true)) \/
  (irregulars !! w = None /\
   ((exists stem, w = stem +:+ "ies" /\ stem <> ""
                  /\ Plural2Singular word = (stem +:+ "y", true)) \/
    (exists stem, w = stem +:+ "es" /\ sibilant stem = true
                  /\ Plural2Singular word = (stem, true)) \/
    (exists stem, w = stem +:+ "s" /\ 3 <= String.length stem
                  /\ strings_HasSuffix w "ss" = false
                  /\ strings_HasSuffix w "us" = false
                  /\ Plural2Singular word = (stem, true)) \/
    Plural2Singular word = (w, false))).
Proof.
  intros w. unfold Plural2Singular. cbv zeta. fold w.
  destruct (irregulars !! w) as [singular |] eqn:Hirr; [left; eauto |].
  right. split; [reflexivity |].
  destruct (strings_HasSuffix w "ies" && Nat.ltb 3 (String.length w)) eqn:Hies.
  { left. apply andb_prop in Hies as [Hs Hlen]. apply Nat.ltb_lt in Hlen.
    apply strings_HasSuffix_spec in Hs as [stem Hw]. exists stem.
    split; [exact Hw |]. split.
    - intros ->. rewrite Hw in Hlen. simpl in Hlen. lia.
    - rewrite Hw. change 3 with (String.length "ies") at 1.
      rewrite trim_suffix. reflexivity. }
  right.
  destruct (strings_HasSuffix w "es"
            && (strings_HasSuffix w "ses" || strings_HasSuffix w "xes"
                || strings_HasSuffix w "zes" || strings_HasSuffix w "ches"
                || strings_HasSuffix w "shes")) eqn:Hes.
  { left. apply andb_prop in Hes as [Hs Hsib].
    apply strings_HasSuffix_spec in Hs as [stem Hw]. exists stem.
    split; [exact Hw |]. split.
    - rewrite Hw in Hsib. unfold sibilant.
      rewrite <- (strings_HasSuffix_append stem "s" "es"),
              <- (strings_HasSuffix_append stem "x" "es"),
              <- (strings_HasSuffix_append stem "z" "es"),
              <- (strings_HasSuffix_append stem "ch" "es"),
              <- (strings_HasSuffix_append stem "sh" "es").
      exact Hsib.
    - rewrite Hw. change 2 with (String.length "es") at 1.
      rewrite trim_suffix. reflexivity. }
  right.
  destruct (strings_HasSuffix w "s" && Nat.ltb 3 (String.length w)
            && negb (strings_HasSuffix w "ss") && negb (strings_HasSuffix w "us")) eqn:Hs.
  { left. apply andb_prop in Hs as [Hs Hus]. apply andb_prop in Hs as [Hs Hss].
    apply andb_prop in Hs as [Hs Hlen]. apply Nat.ltb_lt in Hlen.
    apply negb_true_iff in Hus, Hss.
    apply strings_HasSuffix_spec in Hs as [stem Hw]. exists stem.
    split; [exact Hw |]. split; [| split; [exact Hss | split; [exact Hus |]]].
    - rewrite Hw, length_append in Hlen. simpl in Hlen. lia.
    - rewrite Hw. change 1 with (String.length "s") at 1.
      rewrite trim_suffix. reflexivity. }
  right. reflexivity.
Qed.

Lemma append_longer (stem suffix : string) :
  suffix <> "" -> stem <> stem +:+ suffix.
Proof.
  intros Hne Heq. apply (f_equal String.length) in Heq. rewrite length_append in Heq.
  destruct suffix; [contradiction | simpl in Heq; lia].
Qed.

(** X22. [Plural2Singular] reports a change exactly when it makes one:
    the flag is false if and only if the returned word is the lower-cased
    input. *)
Theorem Plural2Singular_flag (word : string) :
  (Plural2Singular word).2 = false <-> (Plural2Singular word).1 = strings_ToLower word.
Proof.
  destruct (Plural2Singular_cases word)
    as [(singular & Hirr & ->)
       | (_ & [(stem & Hw & Hne & ->)
              | [(stem & Hw & _ & ->)
                | [(stem & Hw & _ & _ & _ & ->) | ->]]])]; cbn [fst snd].
  - split; [discriminate |]. intros Heq. rewrite <- Heq in Hirr.
    apply irregulars_inv in Hirr. irregular_cases Hirr; congruence.
  - split; [discriminate |]. rewrite Hw. intros Heq.
    apply (f_equal String.length) in Heq. rewrite !length_append in Heq.
    simpl in Heq. lia.
  - split; [discriminate |]. rewrite Hw. intros Heq.
    apply append_longer in Heq; [contradiction | discriminate].
  - split; [discriminate |]. rewrite Hw. intros Heq.
    apply append_longer in Heq; [contradiction | discriminate].
  - split; reflexivity.
Qed.

(** X23. A word that [Plural2Singular] changes is an irregular plural,
    returned as its singular, or ends in [s]: [ies] after a stem that is
    not empty becomes [y]; [es] after a stem in [s], [x], [z], [ch] or
    [sh] is dropped; otherwise the final [s] of a word of more than three
    bytes is dropped. *)
Theorem Plural2Singular_rules (word singular : string) :
  Plural2Singular word = (singular, true) ->
  irregulars !! strings_ToLower word = Some singular \/
  (irregulars !! strings_ToLower word = None /\
   exists stem,
     (strings_ToLower word = stem +:+ "ies" /\ stem <> "" /\ singular = stem +:+ "y") \/
     (strings_ToLower word = stem +:+ "es" /\ sibilant stem = true /\ singular = stem) \/
     (strings_ToLower word = stem +:+ "s" /\ 3 <= String.length stem /\ singular = stem)).
Proof.
  intros Hres.
  destruct (Plural2Singular_cases word)
    as [(s & Hirr & Hp)
       | (Hnone & [(stem & Hw & Hne & Hp)
                  | [(stem & Hw & Hsib & Hp)
                    | [(stem & Hw & Hlen & _ & _ & Hp) | Hp]]])];
    rewrite Hp in Hres; try discriminate Hres; injection Hres as <-.
  - left. exact Hirr.
  - right. split; [exact Hnone |]. exists stem. auto.
  - right. split; [exact Hnone |]. exists stem. auto.
  - right. split; [exact Hnone |]. exists stem. auto 6.
Qed.

(** X24. A word whose lower-cased form ends in [ss] or in [us] is
    returned lower-cased and unchanged. *)
Theorem Plural2Singular_ss_us (word : string) :
  strings_HasSuffix (strings_ToLower word) "ss" = true
  \/ strings_HasSuffix (strings_ToLower word) "us" = true ->
  Plural2Singular word = (strings_ToLower word, false).
Proof.
  intros Hend.
  assert (Hes : strings_HasSuffix (strings_ToLower word) "es" = false).
  { destruct (strings_HasSuffix (strings_ToLower word) "es") eqn:Hes; [| reflexivity].
    destruct Hend as [Hend | Hend];
      pose proof (strings_HasSuffix_conflict _ _ _ Hes Hend eq_refl); discriminate. }
  destruct (Plural2Singular_cases word)
    as [(singular & Hirr & _)
       | (_ & [(stem & Hw & _ & _)
              | [(stem & Hw & _ & _)
                | [(stem & _ & _ & Hss & Hus & _) | Hp]]])].
  - apply irregulars_inv in Hirr. revert Hirr Hend. generalize (strings_ToLower word).
    intros w Hirr Hend.
    irregular_cases Hirr; subst; destruct Hend as [Hend | Hend];
      vm_compute in Hend; discriminate.
  - exfalso. rewrite (strings_HasSuffix_longer _ "i" "es") in Hes; [discriminate |].
    apply strings_HasSuffix_spec. exists stem. exact Hw.
  - exfalso. rewrite (proj2 (strings_HasSuffix_spec _ "es")) in Hes; [discriminate |].
    exists stem. exact Hw.
  - destruct Hend; congruence.
  - exact Hp.
Qed.

(** X25. [Plural2Singular] returns the empty word only for a word whose
    lower-cased form is empty. *)
Theorem Plural2Singular_empty (word : string) :
  (Plural2Singular word).1 = "" <-> strings_ToLower word = "".
Proof.
  destruct (Plural2Singular_cases word)
    as [(singular & Hirr & ->)
       | (_ & [(stem & Hw & Hne & ->)
              | [(stem & Hw & Hsib & ->)
                | [(stem & Hw & Hlen & _ & _ & ->) | ->]]])]; cbn [fst snd].
  - apply irregulars_inv in Hirr. revert Hirr. generalize (strings_ToLower word).
    intros w Hirr. irregular_cases Hirr; subst; split; discriminate.
  - rewrite Hw. split; intros Heq; apply (f_equal String.length) in Heq;
      rewrite length_append in Heq; simpl in Heq; lia.
  - rewrite Hw. split.
    + intros ->. discriminate.
    + intros Heq. apply (f_equal String.length) in Heq.
      rewrite length_append in Heq. simpl in Heq. lia.
  - rewrite Hw. split.
    + intros ->. simpl in Hlen. lia.
    + intros Heq. apply (f_equal String.length) in Heq.
      rewrite length_append in Heq. simpl in Heq. lia.
  - reflexivity.
Qed.

End plurals.

(** The table of the repository's test of [Plural2Singular]. *)
Example TestPlural2Singular :
  Forall (fun t => parser.Plural2Singular t.1.1 = (t.1.2, t.2)) TestPlural2Singular_tests.
Proof. repeat constructor. Qed.

Lemma Plural2Singular_rules_witness :
  parser.irregulars !! parser.strings_ToLower "Parties" = Some "party" \/
  (parser.irregulars !! parser.strings_ToLower "Parties" = None /\
   exists stem,
     (parser.strings_ToLower "Parties" = stem +:+ "ies" /\ stem <> ""
      /\ "party" = stem +:+ "y") \/
     (parser.strings_ToLower "Parties" = stem +:+ "es" /\ sibilant stem = true
      /\ "party" = stem) \/
     (parser.strings_ToLower "Parties" = stem +:+ "s" /\ 3 <= String.length stem
      /\ "party" = stem)).
Proof.
  apply (Plural2Singular_rules "Parties" "party"). vm_compute. reflexivity.
Defined.

Lemma Plural2Singular_ss_us_witness :
  parser.Plural2Singular "Status" = ("status", false).
Proof.
  apply (Plural2Singular_ss_us "Status"). right. vm_compute. reflexivity.
Defined.

(* ===================================================================== *)
(** * The shape of kebab-case values                                      *)
(* ===================================================================== *)

Section kebab_shape.
Import regexp.

Lemma matches_alnum (s : list ascii) :
  matches alnum s <-> exists c, s = [c] /\ is_alnum c = true.
Proof.
  unfold alnum, is_alnum. split.
  - intros Hm. inversion Hm as [| | | ? ? ? Hl | ? ? ? Hr | |]; subst.
    + inversion Hl; subst. eexists. split; [reflexivity |].
      apply orb_true_iff. auto.
    + inversion Hr; subst. eexists. split; [reflexivity |].
      apply orb_true_iff. auto.
  - intros (c & -> & Hc). apply orb_true_iff in Hc as [Hc | Hc].
    + apply m_alt_l, m_range. exact Hc.
    + apply m_alt_r, m_range. exact Hc.
Qed.

Lemma matches_star_cons (c : ascii) (s : list ascii) :
  is_alnum c = true -> matches (Star alnum) s -> matches (Star alnum) (c :: s).
Proof.
  intros Hc Hs. apply (m_star_app alnum [c] s); [| exact Hs].
  apply matches_alnum. eauto.
Qed.

(** A run of letters and digits, read off its first byte. *)
Lemma matches_star_alnum (s : list ascii) :
  matches (Star alnum) s ->
  s = [] \/ exists c rest, s = c :: rest /\ is_alnum c = true /\ matches (Star alnum) rest.
Proof.
  intros Hm. inversion Hm as [| | | | | | ? s1 s2 H1 H2]; subst; [left; reflexivity |].
  right. apply matches_alnum in H1 as (c & -> & Hc). exists c, s2. auto.
Qed.

Lemma matches_group (s : list ascii) :
  matches group s ->
  exists c rest, s = "-"%char :: c :: rest /\ is_alnum c = true /\ matches (Star alnum) rest.
Proof.
  unfold group, Lit, Plus. intros Hm.
  inversion Hm as [| | ? ? ? ? Hdash Hplus | | | |]; subst.
  inversion Hdash as [| ? ? d Hd | | | | |]; subst.
  inversion Hplus as [| | ? ? ? ? Hfirst Hrest | | | |]; subst.
  apply matches_alnum in Hfirst as (c & -> & Hc).
  assert (d = "-"%char) as ->.
  { unfold in_range in Hd. apply andb_prop in Hd as [Hlo Hhi].
    apply Nat.leb_le in Hlo, Hhi. change (nat_of_ascii "-") with 45 in Hlo, Hhi.
    rewrite <- (ascii_nat_embedding d). replace "-"%char with (ascii_of_nat 45) by reflexivity.
    f_equal. lia. }
  exists c. eexists. split; [reflexivity |]. auto.
Qed.

Lemma hyphenated_alnum (s rest : list ascii) :
  matches (Star alnum) s -> hyphenated rest = true -> hyphenated (s ++ rest) = true.
Proof.
  intros Hs Hrest. remember (Star alnum) as e eqn:He.
  induction Hs as [| | | | | | r0 s1 s2 H1 _ H2 IH]; try discriminate; [exact Hrest |].
  injection He as ->. apply matches_alnum in H1 as (c & -> & Hc).
  cbn [app hyphenated]. rewrite Hc. cbn [orb andb]. apply IH. reflexivity.
Qed.

Lemma hyphenated_groups (s : list ascii) :
  matches (Star group) s -> hyphenated s = true.
Proof.
  intros Hs. remember (Star group) as e eqn:He.
  induction Hs as [| | | | | | r0 s1 s2 H1 _ H2 IH]; try discriminate; [reflexivity |].
  injection He as ->. apply matches_group in H1 as (c & rest & -> & Hc & Hrest).
  cbn [app hyphenated]. rewrite Hc. cbn [Ascii.eqb]. simpl (is_alnum "-").
  cbn [orb andb Bool.eqb]. apply hyphenated_alnum; [exact Hrest |]. apply IH. reflexivity.
Qed.

Lemma hyphenated_matches (s : list ascii) :
  hyphenated s = true ->
  matches (Cat (Star alnum) (Star group)) s.
Proof.
  induction s as [| c s IH]; intros Hs.
  - apply (m_cat _ _ [] []); constructor.
  - cbn [hyphenated] in Hs. apply andb_prop in Hs as [Hc Hs].
    specialize (IH Hs).
    inversion IH as [| | ? ? s1 s2 H1 H2 | | | |]; subst.
    apply orb_true_iff in Hc as [Hc | Hc].
    + apply (m_cat _ _ (c :: s1) s2); [| exact H2].
      apply matches_star_cons; assumption.
    + apply andb_prop in Hc as [Hdash Hnext]. apply Ascii.eqb_eq in Hdash. subst c.
      destruct (matches_star_alnum s1 H1) as [-> | (d & rest & -> & Hd & Hrest)].
      * exfalso. cbn [app] in Hnext.
        inversion H2 as [| | | | | | ? g1 g2 Hg1 Hg2]; subst; [discriminate |].
        apply matches_group in Hg1 as (c' & rest' & -> & _ & _).
        cbn [app] in Hnext. discriminate.
      * apply (m_cat _ _ [] ("-"%char :: (d :: rest) ++ s2)); [constructor |].
        apply (m_star_app group ("-"%char :: d :: rest) s2); [| exact H2].
        unfold group, Lit, Plus.
        apply (m_cat _ _ ["-"%char] (d :: rest)); [apply m_range; reflexivity |].
        apply (m_cat _ _ [d] rest); [| exact Hrest].
        apply matches_alnum. eauto.
Qed.

Lemma kebabCaseRegex_shape (value : string) :
  MatchString descriptor.kebabCaseRegex value = kebab_shaped value.
Proof.
  apply eq_true_iff_eq. rewrite MatchString_spec. unfold kebab_shaped.
  unfold descriptor.kebabCaseRegex. cbv zeta. fold alnum. fold group.
  generalize (list_ascii_of_string value). intros s. split.
  - intros Hm. inversion Hm as [| | ? ? s0 s' Hfirst Htail | | | |]; subst.
    inversion Hfirst as [| ? ? c Hc | | | | |]; subst. cbn [app].
    unfold is_lower. rewrite Hc. cbn [andb].
    inversion Htail as [| | ? ? s1 s2 H1 H2 | | | |]; subst.
    apply hyphenated_alnum; [exact H1 |]. apply hyphenated_groups. exact H2.
  - destruct s as [| c rest]; [discriminate |]. intros Hs.
    apply andb_prop in Hs as [Hc Hrest].
    apply (m_cat _ _ [c] rest); [apply m_range; exact Hc |].
    apply hyphenated_matches. exact Hrest.
Qed.

(** X26. [validateKebabCase] accepts the empty value and the values made
    of a lower-case letter followed by lower-case letters, digits and
    hyphens in which every hyphen is followed by a letter or a digit (so
    none is last and no two are adjacent); any other value is rejected
    with the error that names the field and the value. *)
Theorem validateKebabCase_shape (field value : string) :
  descriptor.validateKebabCase field value
  = if String.eqb value "" || kebab_shaped value then None
    else Some (ErrNotKebabCase field value).
Proof.
  unfold descriptor.validateKebabCase. rewrite kebabCaseRegex_shape.
  destruct (String.eqb value ""); [reflexivity |].
  destruct (kebab_shaped value); reflexivity.
Qed.

End kebab_shape.

(* ===================================================================== *)
(** * The rule and the binding built from it                              *)
(* ===================================================================== *)

Section rule_and_binding.
Context `{Externals}.

(** The [switch] of [newBinding] selects by [selected]; it fails only
    for a body on GET or DELETE. *)
Lemma newBinding_pattern_selected (r : Registry) (md : MethodDescriptorProto)
    (opts : HttpRule) :
  match newBinding_pattern r md opts with
  | Ok sel => sel = selected opts
  | Err e => body_ground e = true /\ selected opts <> None
  | Panic => False
  end.
Proof.
  unfold newBinding_pattern, selected, GetGet, GetPut, GetPost, GetDelete, GetPatch,
    GetCustom.
  destruct (Pattern opts) as [[s | s | s | s | s | [custom |]] |]; simpl;
    try reflexivity;
    destruct (String.eqb s ""); simpl; try reflexivity.
  - destruct (String.eqb (Body opts) ""); simpl; [reflexivity |].
    split; [reflexivity | discriminate].
  - destruct (negb (String.eqb (Body opts) "") && negb (allowDeleteBody r)); simpl;
      [split; [reflexivity | discriminate] | reflexivity].
Qed.

Lemma resolveFieldPath_nonempty (r : Registry) (msg : Message) (path : string)
    (isPathParam : bool) (fields : FieldPath) :
  path <> "" -> resolveFieldPath r msg path isPathParam = Ok fields -> fields <> [].
Proof.
  unfold resolveFieldPath. intros Hne.
  rewrite (proj2 (String.eqb_neq path "") Hne). intros Hloop.
  apply resolveFieldPath_loop_chain in Hloop; [| reflexivity].
  destruct Hloop as (added & -> & Hnames & _). simpl.
  intros ->. simpl in Hnames. symmetry in Hnames.
  apply strings_Split_nonempty in Hnames. exact Hnames.
Qed.

Lemma newBody_inv (r : Registry) (meth : MethodRef) (path : string) (ob : option Body_) :
  newBody r meth path = Ok ob ->
  (ob = None <-> path = "") /\
  match ob with
  | Some body => Nat.eqb (length (Body_FieldPath body)) 0
  | None => false
  end = String.eqb path "*".
Proof.
  unfold newBody. destruct (String.eqb_spec path "") as [-> | Hne].
  - intros [= <-]. split; [tauto | reflexivity].
  - destruct (String.eqb_spec path "*") as [-> | Hstar].
    + intros [= <-]. split; [| reflexivity]. split; discriminate.
    + cbv zeta. intros Hb. apply bind_Ok in Hb as (fields & Hres & [= <-]).
      split; [split; [discriminate | contradiction] |].
      apply resolveFieldPath_nonempty in Hres; [| exact Hne].
      destruct fields; [contradiction | reflexivity].
Qed.

Lemma newResponse_inv (r : Registry) (meth : MethodRef) (path : string)
    (ob : option Body_) :
  newResponse r meth path = Ok ob ->
  (ob = None <-> path = "" \/ path = "*").
Proof.
  unfold newResponse. cbv zeta.
  destruct (String.eqb_spec path "") as [-> | Hne]; simpl.
  - intros [= <-]. tauto.
  - destruct (String.eqb_spec path "*") as [-> | Hstar].
    + intros [= <-]. tauto.
    + intros Hb. apply bind_Ok in Hb as (fields & _ & [= <-]).
      split; [discriminate | tauto].
Qed.

(** X27. The verb and the template of a binding that [newBinding] builds
    are those the rule selects: GET, PUT, POST, DELETE or PATCH with the
    path of that pattern, or the kind and path of the custom pattern, the
    path compiled by [httprule.Parse]. *)
Theorem newBinding_route (r : Registry) (md : MethodDescriptorProto) (meth : MethodRef)
    (opts : HttpRule) (idx : nat) (b : Binding) :
  newBinding r md meth opts idx = Ok (Some b) ->
  exists pathTemplate parsed,
    selected opts = Some (HTTPMethod b, pathTemplate) /\
    httprule_Parse pathTemplate = inr parsed /\
    PathTmpl b = Compile parsed.
Proof.
  intros Hb. apply newBinding_Some_inv in Hb
    as (httpMethod & pathTemplate & parsed & params & body & responseBody
        & Hsel & Hparse & _ & _ & _ & _ & ->).
  exists pathTemplate, parsed. cbn [HTTPMethod PathTmpl].
  pose proof (newBinding_pattern_selected r md opts) as Hpattern.
  rewrite Hsel in Hpattern. rewrite <- Hpattern. auto.
Qed.

(** X28. [newBinding] returns nil without an error exactly when the rule
    selects no pattern: it has none, it has the pattern of one of the five
    verbs with an empty path, or its custom pattern is nil. Such a rule is
    not checked further (a body on GET is not reported). *)
Theorem newBinding_nil (r : Registry) (md : MethodDescriptorProto) (meth : MethodRef)
    (opts : HttpRule) (idx : nat) :
  newBinding r md meth opts idx = Ok None <-> selected opts = None.
Proof.
  pose proof (newBinding_pattern_selected r md opts) as Hpattern.
  unfold newBinding.
  destruct (newBinding_pattern r md opts) as [[[httpMethod pathTemplate] |] | e |];
    simpl.
  - rewrite <- Hpattern. split; [| discriminate].
    destruct (newBinding_build r md meth opts idx httpMethod pathTemplate); discriminate.
  - rewrite <- Hpattern. tauto.
  - destruct Hpattern as [_ Hsel]. split; [discriminate | contradiction].
  - contradiction.
Qed.

(** X29. How the body options of a rule show in the binding built from
    it: the body of the binding is the whole request message (an empty
    field path, the guard of the query-parameter functions) exactly when
    the rule's body is [*]; the binding has no body exactly when the
    rule's body is empty; it has no response body exactly when the rule's
    response body is empty or [*]. *)
Theorem newBinding_bodies (r : Registry) (md : MethodDescriptorProto) (meth : MethodRef)
    (opts : HttpRule) (idx : nat) (b : Binding) :
  newBinding r md meth opts idx = Ok (Some b) ->
  whole_message_body b = String.eqb (Body opts) "*" /\
  (Binding_Body b = None <-> Body opts = "") /\
  (Binding_ResponseBody b = None <-> ResponseBody opts = "" \/ ResponseBody opts = "*").
Proof.
  intros Hb. apply newBinding_Some_inv in Hb
    as (httpMethod & pathTemplate & parsed & params & body & responseBody
        & _ & _ & _ & _ & Hbody & Hresponse & ->).
  unfold whole_message_body. cbn [Binding_Body Binding_ResponseBody].
  apply newBody_inv in Hbody as [Hnone Hwhole].
  apply newResponse_inv in Hresponse. auto.
Qed.

End rule_and_binding.

Lemma newBinding_route_witness :
  exists pathTemplate parsed,
    selected (rule_get "") = Some (HTTPMethod get_book_binding, pathTemplate) /\
    httprule_Parse pathTemplate = inr parsed /\
    PathTmpl get_book_binding = Compile parsed.
Proof.
  apply (newBinding_route demo.reg demo.GetBook demo.getBook (rule_get "") 0
           get_book_binding).
  vm_compute. reflexivity.
Defined.

Lemma newBinding_bodies_witness :
  whole_message_body get_book_binding = String.eqb (Body (rule_get "")) "*" /\
  (Binding_Body get_book_binding = None <-> Body (rule_get "") = "") /\
  (Binding_ResponseBody get_book_binding = None
   <-> ResponseBody (rule_get "") = "" \/ ResponseBody (rule_get "") = "*").
Proof.
  apply (newBinding_bodies demo.reg demo.GetBook demo.getBook (rule_get "") 0
           get_book_binding).
  vm_compute. reflexivity.
Defined.
